(** * Blockchain Verifier: the hash-chained audit log of [main.py]

    A shallow embedding of the core of [main.py] (digest engine, block
    hasher, chain validator, the two appending endpoints and the log
    endpoint) together with the properties of it that the specification
    states.

    Conventions of the embedding:
    - a Python [bytes] value is a [list byte];
    - a Python [str] is a [string] holding the UTF-8 bytes of the text, so
      that [str.encode()] is the identity on the underlying bytes and string
      concatenation is concatenation of encodings; where a string can
      hold a surrogate, which cannot be encoded (module [MerkleProof]), it
      is the list of its code points;
    - a block ([Dict[str, Any]]) is a [gmap string pyval];
    - a Python exception is the [Raise] case of [result];
    - [hashlib.sha256] is the streaming SHA-256 object of module [SHA256]
      (FIPS 180-4), [datetime] is the record of module [Datetime]. *)

From Stdlib Require Import ZArith Lia List Ascii String Permutation Sorted.
From Stdlib.Strings Require Import Byte.
From stdpp Require Import base option list gmap strings pretty.

Import ListNotations.
Local Open Scope Z_scope.

(* ===================================================================== *)
(** ** SHA-256 (FIPS 180-4) and the streaming object of [hashlib]        *)
(* ===================================================================== *)

Module SHA256.

(** 32-bit words are integers in [0, 2^32). *)
Definition wmod : Z := 2 ^ 32.
Definition add32 (x y : Z) : Z := (x + y) mod wmod.
Definition shr (n x : Z) : Z := Z.shiftr x n.
Definition rotr (n x : Z) : Z :=
  Z.lor (Z.shiftr x n) (Z.shiftl x (32 - n) mod wmod).
Definition not32 (x : Z) : Z := Z.lxor x (wmod - 1).

Definition Ch (x y z : Z) : Z := Z.lxor (Z.land x y) (Z.land (not32 x) z).
Definition Maj (x y z : Z) : Z :=
  Z.lxor (Z.lxor (Z.land x y) (Z.land x z)) (Z.land y z).
Definition bsig0 (x : Z) : Z := Z.lxor (Z.lxor (rotr 2 x) (rotr 13 x)) (rotr 22 x).
Definition bsig1 (x : Z) : Z := Z.lxor (Z.lxor (rotr 6 x) (rotr 11 x)) (rotr 25 x).
Definition ssig0 (x : Z) : Z := Z.lxor (Z.lxor (rotr 7 x) (rotr 18 x)) (shr 3 x).
Definition ssig1 (x : Z) : Z := Z.lxor (Z.lxor (rotr 17 x) (rotr 19 x)) (shr 10 x).

(** The first sixty-four primes. *)
Definition PRIMES : list Z :=
  [2; 3; 5; 7; 11; 13; 17; 19; 23; 29; 31; 37; 41; 43; 47; 53;
   59; 61; 67; 71; 73; 79; 83; 89; 97; 101; 103; 107; 109; 113; 127; 131;
   137; 139; 149; 151; 157; 163; 167; 173; 179; 181; 191; 193; 197; 199;
   211; 223; 227; 229; 233; 239; 241; 251; 257; 263; 269; 271; 277; 281;
   283; 293; 307; 311].

(** Integer cube root, found bit by bit from bit [bits - 1] downwards. *)
Fixpoint icbrt_from (bits : nat) (n r : Z) : Z :=
  match bits with
  | O => r
  | S b =>
      let c := r + 2 ^ Z.of_nat b in
      if c * c * c <=? n then icbrt_from b n c else icbrt_from b n r
  end.

Definition icbrt (n : Z) : Z := icbrt_from 40 n 0.

(** The round constants: the first 32 bits of the fractional parts of the
    cube roots of the first sixty-four primes (FIPS 180-4, section 4.2.2),
    from 428a2f98 for the prime 2 to c67178f2 for the prime 311. *)
Definition K : list Z :=
  Eval vm_compute in map (fun p => icbrt (p * 2 ^ 96) mod wmod) PRIMES.

(** The eight working registers / the intermediate hash value. *)
Record regs : Type := Regs {
  ra : Z; rb : Z; rc : Z; rd : Z; re : Z; rf : Z; rg : Z; rh : Z }.

(** The initial hash value: the first 32 bits of the fractional parts of
    the square roots of the first eight primes (FIPS 180-4, section 5.3.3). *)
Definition frac_sqrt (p : Z) : Z := Z.sqrt (p * 2 ^ 64) mod wmod.

Definition H0 : regs :=
  Eval vm_compute in
    Regs (frac_sqrt 2) (frac_sqrt 3) (frac_sqrt 5) (frac_sqrt 7)
         (frac_sqrt 11) (frac_sqrt 13) (frac_sqrt 17) (frac_sqrt 19).

Definition byte_val (b : byte) : Z := Z.of_N (Byte.to_N b).

Definition byte_of_Z (z : Z) : byte :=
  match Byte.of_N (Z.to_N (z mod 256)) with
  | Some b => b
  | None => x00
  end.

(** Big-endian 32-bit words of a block of bytes. *)
Fixpoint words_of_bytes (bs : list byte) : list Z :=
  match bs with
  | b0 :: b1 :: b2 :: b3 :: rest =>
      (((byte_val b0 * 256 + byte_val b1) * 256 + byte_val b2) * 256
       + byte_val b3) :: words_of_bytes rest
  | _ => []
  end.

(** Message schedule, kept newest word first while it is extended. *)
Fixpoint extend (n : nat) (w : list Z) : list Z :=
  match n with
  | O => w
  | S n' =>
      let wt := add32 (add32 (add32 (ssig1 (nth 1 w 0)) (nth 6 w 0))
                             (ssig0 (nth 14 w 0))) (nth 15 w 0) in
      extend n' (wt :: w)
  end.

Definition schedule (block : list byte) : list Z :=
  rev (extend 48 (rev (words_of_bytes block))).

Definition round (r : regs) (kw : Z * Z) : regs :=
  let t1 := add32 (add32 (add32 (add32 (rh r) (bsig1 (re r)))
                                (Ch (re r) (rf r) (rg r))) (fst kw)) (snd kw) in
  let t2 := add32 (bsig0 (ra r)) (Maj (ra r) (rb r) (rc r)) in
  Regs (add32 t1 t2) (ra r) (rb r) (rc r) (add32 (rd r) t1) (re r) (rf r) (rg r).

Definition add_regs (x y : regs) : regs :=
  Regs (add32 (ra x) (ra y)) (add32 (rb x) (rb y))
       (add32 (rc x) (rc y)) (add32 (rd x) (rd y))
       (add32 (re x) (re y)) (add32 (rf x) (rf y))
       (add32 (rg x) (rg y)) (add32 (rh x) (rh y)).

(** One application of the compression function to a 64-byte block. *)
Definition compress (h : regs) (block : list byte) : regs :=
  add_regs h (fold_left round (combine K (schedule block)) h).

(** [absorb n h bs] compresses the first [n] 64-byte blocks of [bs]. *)
Fixpoint absorb (n : nat) (h : regs) (bs : list byte) : regs :=
  match n with
  | O => h
  | S n' => absorb n' (compress h (take 64 bs)) (drop 64 bs)
  end.

(** Big-endian encoding of [z] on [n] bytes. *)
Fixpoint be_bytes (n : nat) (z : Z) : list byte :=
  match n with
  | O => []
  | S n' => be_bytes n' (z / 256) ++ [byte_of_Z z]
  end.

(** Padding appended to a message of [len] bytes: the bit 1, zero bits up
    to 56 modulo 64 bytes, and the bit length on 64 bits. *)
Definition pad_tail (len : nat) : list byte :=
  x80 :: repeat x00 (Z.to_nat ((55 - Z.of_nat len) mod 64))
      ++ be_bytes 8 (8 * Z.of_nat len).

Definition pad (msg : list byte) : list byte := msg ++ pad_tail (length msg).

(** Single-pass SHA-256 of a whole message (FIPS 180-4, section 6.2). *)
Definition sha256 (msg : list byte) : regs :=
  absorb (length (pad msg) / 64)%nat H0 (pad msg).

(** *** The streaming object: [hashlib.sha256()], [update], [hexdigest] *)

Record ctx : Type := Ctx {
  chain : regs;          (* intermediate hash of the blocks consumed *)
  pending : list byte;   (* bytes received but not yet compressed    *)
  total : nat            (* number of bytes received so far          *)
}.

Definition new : ctx := Ctx H0 [] 0.

Definition update (c : ctx) (data : list byte) : ctx :=
  let buf := pending c ++ data in
  let n := (length buf / 64)%nat in
  Ctx (absorb n (chain c) buf) (drop (64 * n) buf) (total c + length data).

Definition digest (c : ctx) : regs :=
  let last := pending c ++ pad_tail (total c) in
  absorb (length last / 64)%nat (chain c) last.

Definition hex_digit (z : Z) : ascii :=
  if z <? 10 then ascii_of_nat (Z.to_nat (48 + z))
  else ascii_of_nat (Z.to_nat (87 + z)).

Fixpoint hex_word (n : nat) (z : Z) : string :=
  match n with
  | O => EmptyString
  | S n' => hex_word n' (z / 16) +:+ String (hex_digit (z mod 16)) EmptyString
  end.

Definition hex_of_regs (r : regs) : string :=
  hex_word 8 (ra r) +:+ hex_word 8 (rb r) +:+ hex_word 8 (rc r) +:+
  hex_word 8 (rd r) +:+ hex_word 8 (re r) +:+ hex_word 8 (rf r) +:+
  hex_word 8 (rg r) +:+ hex_word 8 (rh r).

Definition hexdigest (c : ctx) : string := hex_of_regs (digest c).

(** [hashlib.sha256(data)]: a fresh object that has received [data]. *)
Definition of_bytes (data : list byte) : ctx := update new data.

(** The streaming object [c] has received exactly the bytes [m]. *)
Definition tracks (c : ctx) (m : list byte) : Prop :=
  chain c = absorb (length m / 64) H0 m
  /\ pending c = drop (64 * (length m / 64)) m
  /\ total c = length m.

(** The hex digest of single-pass SHA-256. *)
Definition sha256_hex (msg : list byte) : string := hex_of_regs (sha256 msg).

End SHA256.

Definition bytes_of_string (s : string) : list byte := list_byte_of_string s.


(* ===================================================================== *)
(** ** Digest engine: [calculate_file_hash]                              *)
(* ===================================================================== *)

Definition EMPTY_SHA256 : string :=
  "e3b0c44298fc1c149afbf4c8996fb92427ae41e4649b934ca495991b7852b855".

(** The [while offset < len(file_bytes)] loop.  [fuel] bounds the number of
    iterations; [None] means the bound was too small. *)
Fixpoint hash_loop (chunk_size fuel : nat) (file_bytes : list byte)
    (offset : nat) (sha256 : SHA256.ctx) : option SHA256.ctx :=
  if Nat.ltb offset (length file_bytes) then
    match fuel with
    | O => None
    | S fuel' =>
        let chunk := take chunk_size (drop offset file_bytes) in
        hash_loop chunk_size fuel' file_bytes (offset + chunk_size)%nat
                  (SHA256.update sha256 chunk)
    end
  else Some sha256.

Definition calculate_file_hash (file_bytes : list byte) : option string :=
  match file_bytes with
  | [] => Some EMPTY_SHA256
  | _ =>
      let chunk_size := (64 * 1024)%nat in
      SHA256.hexdigest <$>
        hash_loop chunk_size (length file_bytes) file_bytes 0 SHA256.new
  end.

(* ===================================================================== *)
(** ** Python values, exceptions and dictionaries                        *)
(* ===================================================================== *)

Module Py.

Inductive exn : Type :=
| KeyError (key : string)
| IndexError
| AttributeError (msg : string)
| TypeError (msg : string)
| ValueError (msg : string)
| OverflowError (msg : string)
| HTTPException (status_code : Z) (detail : string).

(** The outcome of evaluating Python code: a value or a raised exception. *)
Inductive result (A : Type) : Type :=
| Ok (a : A)
| Raise (e : exn).
Arguments Ok {A} a.
Arguments Raise {A} e.

#[global] Instance result_ret : MRet result := fun A a => Ok a.
#[global] Instance result_bind : MBind result := fun A B f m =>
  match m with
  | Ok a => f a
  | Raise e => Raise e
  end.

#[global] Instance result_fmap : FMap result := fun A B f m =>
  match m with
  | Ok a => Ok (f a)
  | Raise e => Raise e
  end.

(** The values that occur in blocks: [None], integers and strings, which
    are the values the service itself stores.  Floats and booleans, which
    a [Dict[str, Any]] may hold as well, are outside the model. *)
Inductive pyval : Type :=
| PNone
| PInt (z : Z)
| PStr (s : string).

#[global] Instance pyval_eq_dec : EqDecision pyval.
Proof. solve_decision. Defined.

(** [v == w] *)
Definition py_eq (v w : pyval) : bool := bool_decide (v = w).

(** [bool(v)], as used by [if not v]. *)
Definition truthy (v : pyval) : bool :=
  match v with
  | PNone => false
  | PInt z => negb (z =? 0)
  | PStr s => negb (String.eqb s "")
  end.

(** [str(v)], which is what an f-string field [{v}] inserts. *)
Definition py_str (v : pyval) : string :=
  match v with
  | PNone => "None"
  | PInt z => pretty z
  | PStr s => s
  end.

(** A Python [dict] with string keys. *)
Abbreviation dict := (gmap string pyval).

(** [d[key]] *)
Definition getitem (d : dict) (key : string) : result pyval :=
  match d !! key with
  | Some v => Ok v
  | None => Raise (KeyError key)
  end.

(** [d.get(key, default)] *)
Definition get (d : dict) (key : string) (default : pyval) : pyval :=
  match d !! key with
  | Some v => v
  | None => default
  end.

(** [key in d] *)
Definition contains (d : dict) (key : string) : bool :=
  match d !! key with
  | Some _ => true
  | None => false
  end.

(** [s.replace(old, new)] for a one-character [old]. *)
Fixpoint str_replace (old : ascii) (new : string) (s : string) : string :=
  match s with
  | EmptyString => EmptyString
  | String c rest =>
      if Ascii.eqb c old then new +:+ str_replace old new rest
      else String c (str_replace old new rest)
  end.

(** [v.replace(old, new)] on an arbitrary value: only [str] has the method. *)
Definition replace (v : pyval) (old : ascii) (new : string) : result string :=
  match v with
  | PStr s => Ok (str_replace old new s)
  | PNone => Raise (AttributeError "'NoneType' object has no attribute 'replace'")
  | PInt _ => Raise (AttributeError "'int' object has no attribute 'replace'")
  end.

(** [s.lower()], on ASCII letters; other bytes are left as they are. *)
Definition lower_ascii (c : ascii) : ascii :=
  let n := nat_of_ascii c in
  if (Nat.leb 65 n && Nat.leb n 90)%bool then ascii_of_nat (n + 32) else c.

Fixpoint lower (s : string) : string :=
  match s with
  | EmptyString => EmptyString
  | String c rest => String (lower_ascii c) (lower rest)
  end.

(** [s[n:]] *)
Fixpoint str_drop (n : nat) (s : string) : string :=
  match n, s with
  | O, _ => s
  | S n', String _ rest => str_drop n' rest
  | S _, EmptyString => EmptyString
  end.

End Py.
Export Py.

(* ===================================================================== *)
(** ** [datetime]: naive date-times, [isoformat] and [fromisoformat]     *)
(* ===================================================================== *)

Module Datetime.

Record datetime : Type := Datetime {
  year : Z; month : Z; day : Z;
  hour : Z; minute : Z; second : Z; microsecond : Z }.

Definition is_leap (y : Z) : bool :=
  (y mod 4 =? 0) && (negb (y mod 100 =? 0) || (y mod 400 =? 0)).

Definition DAYS_IN_MONTH : list Z :=
  [31; 28; 31; 30; 31; 30; 31; 31; 30; 31; 30; 31].
Definition DAYS_BEFORE_MONTH : list Z :=
  [0; 31; 59; 90; 120; 151; 181; 212; 243; 273; 304; 334].

Definition days_in_month (y m : Z) : Z :=
  if (m =? 2) && is_leap y then 29
  else nth (Z.to_nat (m - 1)) DAYS_IN_MONTH 0.

Definition days_before_year (y : Z) : Z :=
  let p := y - 1 in p * 365 + p / 4 - p / 100 + p / 400.

Definition days_before_month (y m : Z) : Z :=
  nth (Z.to_nat (m - 1)) DAYS_BEFORE_MONTH 0
  + (if (2 <? m) && is_leap y then 1 else 0).

Definition ymd2ord (y m d : Z) : Z :=
  days_before_year y + days_before_month y m + d.

(** The range checks of the [datetime] constructor. *)
Definition valid (t : datetime) : bool :=
  (1 <=? year t) && (year t <=? 9999)
  && (1 <=? month t) && (month t <=? 12)
  && (1 <=? day t) && (day t <=? days_in_month (year t) (month t))
  && (0 <=? hour t) && (hour t <=? 23)
  && (0 <=? minute t) && (minute t <=? 59)
  && (0 <=? second t) && (second t <=? 59)
  && (0 <=? microsecond t) && (microsecond t <=? 999999).

(** Microseconds elapsed since the start of day 0 of the proleptic
    Gregorian calendar: the instant a naive date-time denotes. *)
Definition to_micros (t : datetime) : Z :=
  (((ymd2ord (year t) (month t) (day t) * 24 + hour t) * 60 + minute t) * 60
   + second t) * 1000000 + microsecond t.

(** [a < b] and [a > b] on naive date-times. *)
Definition lt (a b : datetime) : bool := to_micros a <? to_micros b.

Definition MAX : datetime := Datetime 9999 12 31 23 59 59 999999.

(** [t + timedelta(minutes=m) < u], [>] etc. are decided on instants;
    the sum itself raises [OverflowError] beyond year 9999. *)
Definition add_minutes_micros (t : datetime) (m : Z) : result Z :=
  let r := to_micros t + m * 60 * 1000000 in
  if r >? to_micros MAX then Raise (OverflowError "date value out of range")
  else Ok r.

Definition digit_char (d : Z) : ascii := ascii_of_nat (Z.to_nat (48 + d)).

(** ["%0<width>d" % n] for [0 <= n < 10^width]. *)
Fixpoint zpad (width : nat) (n : Z) : string :=
  match width with
  | O => EmptyString
  | S w => zpad w (n / 10) +:+ String (digit_char (n mod 10)) EmptyString
  end.

(** [t.isoformat()] of a naive date-time: the fraction is printed only
    when the microsecond field is not zero. *)
Definition isoformat (t : datetime) : string :=
  zpad 4 (year t) +:+ "-" +:+ zpad 2 (month t) +:+ "-" +:+ zpad 2 (day t)
  +:+ "T" +:+ zpad 2 (hour t) +:+ ":" +:+ zpad 2 (minute t) +:+ ":"
  +:+ zpad 2 (second t)
  +:+ (if microsecond t =? 0 then EmptyString
       else "." +:+ zpad 6 (microsecond t)).

Definition digit_val (c : ascii) : option Z :=
  let n := Z.of_nat (nat_of_ascii c) in
  if (48 <=? n) && (n <=? 57) then Some (n - 48) else None.

Fixpoint parse_digits_from (acc : Z) (s : string) : option Z :=
  match s with
  | EmptyString => Some acc
  | String c rest =>
      match digit_val c with
      | Some d => parse_digits_from (acc * 10 + d) rest
      | None => None
      end
  end.

(** Exactly [n] decimal digits. *)
Definition parse_digits (n : nat) (s : string) : option Z :=
  if Nat.eqb (String.length s) n then parse_digits_from 0 s else None.

Definition is_char (c : ascii) (o : option ascii) : bool :=
  match o with
  | Some c' => Ascii.eqb c c'
  | None => false
  end.

(** [YYYY-MM-DD] *)
Definition parse_isoformat_date (dtstr : string) : option (Z * Z * Z) :=
  y ← parse_digits 4 (substring 0 4 dtstr);
  if negb (is_char "-" (String.get 4 dtstr)) then None else
  m ← parse_digits 2 (substring 5 2 dtstr);
  if negb (is_char "-" (String.get 7 dtstr)) then None else
  d ← parse_digits 2 (substring 8 2 dtstr);
  Some (y, m, d).

(** [HH[:MM[:SS]]]: up to [S more] two-digit components separated by
    colons; returns the components read and the unread rest. *)
Fixpoint parse_hh_mm_ss (more : nat) (tstr : string)
    : option (list Z * string) :=
  v ← parse_digits 2 (substring 0 2 tstr);
  let rest := str_drop 2 tstr in
  match rest, more with
  | EmptyString, _ => Some ([v], EmptyString)
  | _, O => Some ([v], rest)
  | String c rest', S more' =>
      if Ascii.eqb c ":" then
        '(vs, r) ← parse_hh_mm_ss more' rest'; Some (v :: vs, r)
      else None
  end.

(** [HH[:MM[:SS[.fff[fff]]]]] as (hour, minute, second, microsecond). *)
Definition parse_hh_mm_ss_ff (tstr : string) : option (Z * Z * Z * Z) :=
  '(comps, rest) ← parse_hh_mm_ss 2 tstr;
  let hh := nth 0 comps 0 in
  let mm := nth 1 comps 0 in
  let ss := nth 2 comps 0 in
  match rest with
  | EmptyString => Some (hh, mm, ss, 0)
  | String c frac =>
      if Ascii.eqb c "." then
        match String.length frac with
        | 3%nat => f ← parse_digits 3 frac; Some (hh, mm, ss, f * 1000)
        | 6%nat => f ← parse_digits 6 frac; Some (hh, mm, ss, f)
        | _ => None
        end
      else None
  end.

(** [s.find(c)] *)
Fixpoint str_find (c : ascii) (s : string) : option nat :=
  match s with
  | EmptyString => None
  | String a rest => if Ascii.eqb a c then Some O else S <$> str_find c rest
  end.

(** [tstr.find('-') + 1 or tstr.find('+') + 1]: the position just after
    the first minus sign, else after the first plus sign. *)
Definition find_tz (tstr : string) : option nat :=
  match str_find "-" tstr with
  | Some p => Some (S p)
  | None => S <$> str_find "+" tstr
  end.

(** The time part with an optional UTC offset; the offset is returned in
    microseconds ([None] when the string has none). *)
Definition parse_isoformat_time (tstr : string)
    : option (Z * Z * Z * Z * option Z) :=
  match find_tz tstr with
  | None =>
      '(h, m, s, us) ← parse_hh_mm_ss_ff tstr; Some (h, m, s, us, None)
  | Some tz_pos =>
      '(h, m, s, us) ← parse_hh_mm_ss_ff (substring 0 (tz_pos - 1) tstr);
      let tzstr := str_drop tz_pos tstr in
      let n := String.length tzstr in
      if negb (Nat.eqb n 5 || Nat.eqb n 8 || Nat.eqb n 15) then None else
      '(th, tm, ts, tus) ← parse_hh_mm_ss_ff tzstr;
      let sign := if is_char "-" (String.get (tz_pos - 1) tstr) then -1 else 1 in
      let off := sign * (((th * 60 + tm) * 60 + ts) * 1000000 + tus) in
      if negb (Z.abs off <? 24 * 3600 * 1000000) then None else
      Some (h, m, s, us, Some off)
  end.

(** [repr(s)] for a string of printable ASCII characters other than the
    quote and the backslash: the string between single quotes. *)
Definition repr (s : string) : string := "'" +:+ s +:+ "'".

(** The message of the [ValueError] the [datetime] constructor raises: it
    names the first field that is out of range. *)
Definition range_message (t : datetime) : string :=
  if negb ((1 <=? year t) && (year t <=? 9999))
  then "year " +:+ pretty (year t) +:+ " is out of range"
  else if negb ((1 <=? month t) && (month t <=? 12))
  then "month must be in 1..12"
  else if negb ((1 <=? day t) && (day t <=? days_in_month (year t) (month t)))
  then "day is out of range for month"
  else if negb ((0 <=? hour t) && (hour t <=? 23))
  then "hour must be in 0..23"
  else if negb ((0 <=? minute t) && (minute t <=? 59))
  then "minute must be in 0..59"
  else if negb ((0 <=? second t) && (second t <=? 59))
  then "second must be in 0..59"
  else "microsecond must be in 0..999999".

(** [datetime.fromisoformat(date_string)] as CPython 3.7 to 3.10 define it:
    [YYYY-MM-DD[*HH[:MM[:SS[.fff[fff]]]][+HH:MM[:SS[.ffffff]]]]], where [*]
    is any one character; a string longer than the date must hold a time.
    The result is the date-time read together with its UTC offset
    ([tzinfo]); a string outside the format raises [ValueError] with the
    [repr] of the string, a field out of range raises the [ValueError] of
    the constructor. *)
Definition fromisoformat (date_string : string)
    : result (datetime * option Z) :=
  let invalid :=
    Raise (ValueError ("Invalid isoformat string: " +:+ repr date_string)) in
  let dstr := substring 0 10 date_string in
  let tstr := str_drop 11 date_string in
  match parse_isoformat_date dstr with
  | None => invalid
  | Some (y, m, d) =>
      let time :=
        if Nat.ltb 10 (String.length date_string)
        then parse_isoformat_time tstr
        else Some (0, 0, 0, 0, None) in
      match time with
      | None => invalid
      | Some (h, mi, s, us, tz) =>
          let t := Datetime y m d h mi s us in
          if valid t then Ok (t, tz) else Raise (ValueError (range_message t))
      end
  end.

(** [dt.replace(tzinfo=None)]: the offset is dropped, the fields stay. *)
Definition replace_tzinfo_none (p : datetime * option Z) : datetime := fst p.

End Datetime.

(* ===================================================================== *)
(** ** Block hasher, genesis block and chain validator                   *)
(* ===================================================================== *)

Module Chain.

(** A block is a dictionary; the chain is the list [BLOCKCHAIN_LOG]. *)
Abbreviation block := (gmap string pyval).

(** [s * n] *)
Fixpoint str_mul (s : string) (n : nat) : string :=
  match n with
  | O => EmptyString
  | S n' => s +:+ str_mul s n'
  end.

(** ["0" * 64] *)
Definition ZERO_HASH : string := str_mul "0" 64.

(** The f-string [header] of [calculate_block_header_hash]: the three
    subscripted fields raise [KeyError] when absent, the three read with
    [.get(..., '')] default to the empty string. *)
Definition block_header (block : block) : result string :=
  index ← getitem block "index";
  previous_hash ← getitem block "previous_hash";
  timestamp ← getitem block "timestamp";
  Ok (py_str index +:+ py_str previous_hash +:+ py_str timestamp
      +:+ py_str (get block "operation" (PStr ""))
      +:+ py_str (get block "filename" (PStr ""))
      +:+ py_str (get block "result" (PStr ""))).

Definition calculate_block_header_hash (block : block) : result string :=
  header ← block_header block;
  Ok (SHA256.hexdigest (SHA256.of_bytes (bytes_of_string header))).

Definition create_genesis_block : result block :=
  let genesis_block : block :=
    <["result" := PStr ""]> (<["filename" := PStr ""]>
    (<["operation" := PStr "GENESIS"]>
    (<["timestamp" := PStr "2023-01-01T00:00:00Z"]>
    (<["previous_hash" := PStr ZERO_HASH]>
    (<["index" := PInt 0]> ∅))))) in
  block_hash ← calculate_block_header_hash genesis_block;
  Ok (<["block_hash" := PStr block_hash]> genesis_block).

(** [BLOCKCHAIN_LOG[i]] *)
Definition log_getitem (log : list block) (i : nat) : result block :=
  match log !! i with
  | Some b => Ok b
  | None => Raise IndexError
  end.

(** The predecessor's header hash as the validator resolves it:
    [block_hash] when present and not empty, else the legacy fields. *)
Definition resolve_block_hash (previous_block : block) : pyval :=
  let previous_block_hash := get previous_block "block_hash" PNone in
  if negb (truthy previous_block_hash) then
    get previous_block "hash" (get previous_block "current_hash" PNone)
  else previous_block_hash.

(** [datetime.fromisoformat(b["timestamp"].replace("Z", "+00:00"))
       .replace(tzinfo=None)] *)
Definition block_time (b : block) : result Datetime.datetime :=
  timestamp ← getitem b "timestamp";
  s ← replace timestamp "Z" "+00:00";
  Datetime.replace_tzinfo_none <$> Datetime.fromisoformat s.

(** The body of the validator's loop for one index; [Ok false] stands for
    [return False, i] and [Ok true] for falling through to the next [i]. *)
Definition check_block (current_block previous_block : block) : result bool :=
  let previous_block_hash := resolve_block_hash previous_block in
  previous_hash ← getitem current_block "previous_hash";
  if negb (py_eq previous_hash previous_block_hash) then Ok false else
  hash_ok ←
    (if contains current_block "block_hash" then
       calculated_hash ← calculate_block_header_hash current_block;
       block_hash ← getitem current_block "block_hash";
       Ok (py_eq block_hash (PStr calculated_hash))
     else Ok true);
  if negb hash_ok then Ok false else
  current_time ← block_time current_block;
  previous_time ← block_time previous_block;
  if Datetime.lt current_time previous_time then Ok false else Ok true.

(** [for i in range(i, i + todo)] *)
Fixpoint validate_from (log : list block) (i todo : nat)
    : result (bool * option nat) :=
  match todo with
  | O => Ok (true, None)
  | S todo' =>
      current_block ← log_getitem log i;
      previous_block ← log_getitem log (i - 1);
      ok ← check_block current_block previous_block;
      if (ok : bool) then validate_from log (S i) todo' else Ok (false, Some i)
  end.

Definition validate_blockchain (BLOCKCHAIN_LOG : list block)
    : result (bool * option nat) :=
  match BLOCKCHAIN_LOG with
  | [] => Ok (true, None)
  | first :: _ =>
      index ← getitem first "index";
      if negb (py_eq index (PInt 0)) then Ok (false, Some 0%nat) else
      previous_hash ← getitem first "previous_hash";
      if negb (py_eq previous_hash (PStr ZERO_HASH)) then Ok (false, Some 0%nat)
      else validate_from BLOCKCHAIN_LOG 1 (length BLOCKCHAIN_LOG - 1)
  end.

(** The module-level initialisation: the log starts with the genesis
    block. *)
Definition initial_log : list block :=
  match create_genesis_block with
  | Ok genesis => [genesis]
  | Raise _ => []
  end.

End Chain.

(* ===================================================================== *)
(** ** The endpoints that read and extend [BLOCKCHAIN_LOG]               *)
(* ===================================================================== *)

Module Api.
Import Chain.

(** Endpoint code runs against the global log and may raise; an exception
    leaves the log as it is at the point of the raise. *)
Definition M (A : Type) : Type := list block -> result A * list block.

#[global] Instance M_ret : MRet M := fun A a log => (Ok a, log).
#[global] Instance M_bind : MBind M := fun A B f m log =>
  match m log with
  | (Ok a, log') => f a log'
  | (Raise e, log') => (Raise e, log')
  end.

Definition raise {A : Type} (e : exn) : M A := fun log => (Raise e, log).
Definition lift {A : Type} (r : result A) : M A := fun log => (r, log).
(** Reading the global [BLOCKCHAIN_LOG]. *)
Definition read_log : M (list block) := fun log => (Ok log, log).
(** [BLOCKCHAIN_LOG.append(b)] *)
Definition log_append (b : block) : M unit := fun log => (Ok tt, log ++ [b]).

(** [try: body  except HTTPException: raise
                except Exception as e: raise HTTPException(500, ...)] *)
Definition exn_str (e : exn) : string :=
  match e with
  | KeyError k => "'" +:+ k +:+ "'"
  | IndexError => "list index out of range"
  | AttributeError m | TypeError m | ValueError m | OverflowError m => m
  | HTTPException _ d => d
  end.

Definition reraise_as_http {A : Type} (body : M A) : M A := fun log =>
  match body log with
  | (Ok a, log') => (Ok a, log')
  | (Raise (HTTPException c d), log') => (Raise (HTTPException c d), log')
  | (Raise e, log') =>
      (Raise (HTTPException 500 ("Internal server error: " +:+ exn_str e)), log')
  end.

(** An uploaded file: its name ([None] when the client sent none) and the
    chunks that successive [await file.read(chunk_size)] calls return
    before the end of the file. *)
Record UploadFile : Type := {
  filename : pyval;
  reads : list (list byte)
}.

(** What an appending request takes from its environment: the outcome of
    [int(os.environ.get("MAX_FILE_SIZE", "10"))] and the two readings of
    [datetime.utcnow()], the first for the block's timestamp and the
    second for the future-time check. *)
Record Env : Type := {
  max_file_size : result Z;
  utcnow_timestamp : Datetime.datetime;
  utcnow_check : Datetime.datetime
}.

(** The [while True] loop that reads the upload and enforces the limit. *)
Fixpoint read_upload (file_size_limit : Z) (too_large : exn)
    (reads : list (list byte)) (total_size : Z) (file_content : list byte)
    : result (list byte) :=
  match reads with
  | [] => Ok file_content
  | chunk :: rest =>
      match chunk with
      | [] => Ok file_content
      | _ =>
          let total_size := total_size + Z.of_nat (length chunk) in
          if total_size >? file_size_limit then Raise too_large
          else read_upload file_size_limit too_large rest total_size
                           (file_content ++ chunk)
      end
  end.

(** The loop of [calculate_file_hash] run with its iteration bound. *)
Definition file_hash (file_content : list byte) : result string :=
  match calculate_file_hash file_content with
  | Some h => Ok h
  | None => Raise (ValueError "calculate_file_hash: iteration bound exceeded")
  end.

(** [previous_hash] as both appending endpoints compute it from the tail. *)
Definition tail_hash (log : list block) : pyval :=
  match last log with
  | None => PStr ZERO_HASH
  | Some previous_block =>
      get previous_block "block_hash"
        (get previous_block "hash"
           (get previous_block "current_hash" (PStr ZERO_HASH)))
  end.

(** The timestamp string and the check for future timestamps. *)
Definition make_timestamp (env : Env) : M string :=
  let timestamp := Datetime.isoformat (utcnow_timestamp env) +:+ "Z" in
  let current_time := utcnow_check env in
  timestamp_time ← lift (Datetime.replace_tzinfo_none <$>
                     Datetime.fromisoformat (str_replace "Z" "+00:00" timestamp));
  limit ← lift (Datetime.add_minutes_micros current_time 10);
  if Datetime.to_micros timestamp_time >? limit then
    raise (HTTPException 400 "Invalid timestamp: future time exceeds tolerance")
  else mret timestamp.

(** [POST /hash] *)
Definition hash_file (env : Env) (file : UploadFile) : M (gmap string pyval) :=
  reraise_as_http (
    max_file_size_mb ← lift (max_file_size env);
    let file_size_limit := max_file_size_mb * 1024 * 1024 in
    file_content ← lift (read_upload file_size_limit
      (HTTPException 413 ("File too large. Maximum size is "
                          +:+ pretty max_file_size_mb +:+ "MB."))
      (reads file) 0 []);
    calculated_hash ← lift (file_hash file_content);
    log ← read_log;
    let previous_hash := tail_hash log in
    timestamp ← make_timestamp env;
    log ← read_log;
    let block_index := Z.of_nat (length log) in
    let new_block : block :=
      <["hash" := PStr calculated_hash]>
      (<["result" := PStr calculated_hash]>
      (<["filename" := filename file]>
      (<["operation" := PStr "HASH"]>
      (<["timestamp" := PStr timestamp]>
      (<["previous_hash" := previous_hash]>
      (<["index" := PInt block_index]> ∅)))))) in
    block_hash ← lift (calculate_block_header_hash new_block);
    let new_block := <["block_hash" := PStr block_hash]> new_block in
    _ ← log_append new_block;
    mret (<["timestamp" := PStr timestamp]>
         (<["block_index" := PInt block_index]>
         (<["block_hash" := PStr block_hash]>
         (<["hash" := PStr calculated_hash]>
         (<["filename" := filename file]>
         (<["status" := PStr "success"]> ∅))))))).

(** [POST /verify] *)
Definition verify_file_integrity (env : Env) (file : UploadFile)
    (stored_hash : string) : M (gmap string pyval) :=
  reraise_as_http (
    _ ← (if negb (truthy (PStr stored_hash)) then
           raise (HTTPException 400 "Missing required parameter: stored_hash")
         else mret tt);
    max_file_size_mb ← lift (max_file_size env);
    let file_size_limit := max_file_size_mb * 1024 * 1024 in
    file_content ← lift (read_upload file_size_limit
      (HTTPException 413 "File too large. Maximum size is 10MB.")
      (reads file) 0 []);
    current_hash ← lift (file_hash file_content);
    let is_valid := String.eqb (lower current_hash) (lower stored_hash) in
    let status := if is_valid then "valid" else "invalid" in
    let message := if is_valid then "File integrity verified"
                   else "File tampering detected" in
    log ← read_log;
    let previous_hash := tail_hash log in
    timestamp ← make_timestamp env;
    log ← read_log;
    let block_index := Z.of_nat (length log) in
    let new_block : block :=
      <["result" := PStr status]>
      (<["current_hash" := PStr current_hash]>
      (<["stored_hash" := PStr stored_hash]>
      (<["filename" := filename file]>
      (<["operation" := PStr "VERIFICATION"]>
      (<["timestamp" := PStr timestamp]>
      (<["previous_hash" := previous_hash]>
      (<["index" := PInt block_index]> ∅))))))) in
    block_hash ← lift (calculate_block_header_hash new_block);
    let new_block := <["block_hash" := PStr block_hash]> new_block in
    _ ← log_append new_block;
    mret (<["message" := PStr message]>
         (<["timestamp" := PStr timestamp]>
         (<["block_index" := PInt block_index]>
         (<["block_hash" := PStr block_hash]>
         (<["stored_hash" := PStr stored_hash]>
         (<["current_hash" := PStr current_hash]>
         (<["filename" := filename file]>
         (<["status" := PStr status]> ∅))))))))).

(** [a < b] between two sort keys. *)
Definition py_lt (a b : pyval) : result bool :=
  match a, b with
  | PInt x, PInt y => Ok (x <? y)
  | PStr s, PStr t => Ok (String.ltb s t)
  | _, _ => Raise (TypeError "'<' not supported between instances")
  end.

(** [list.sort(key=..., reverse=True)] on (key, item) pairs: a stable
    sort into descending key order. *)
Fixpoint insert_desc (x : pyval * block) (sorted : list (pyval * block))
    : result (list (pyval * block)) :=
  match sorted with
  | [] => Ok [x]
  | y :: rest =>
      below ← py_lt (fst x) (fst y);
      if (below : bool) then (r ← insert_desc x rest; Ok (y :: r))
      else Ok (x :: y :: rest)
  end.

Fixpoint sort_desc (l : list (pyval * block)) : result (list (pyval * block)) :=
  match l with
  | [] => Ok []
  | x :: rest => sorted ← sort_desc rest; insert_desc x sorted
  end.

Fixpoint with_index_keys (l : list block) : result (list (pyval * block)) :=
  match l with
  | [] => Ok []
  | b :: rest =>
      k ← getitem b "index";
      ks ← with_index_keys rest;
      Ok ((k, b) :: ks)
  end.

(** [blockchain_copy.sort(key=lambda x: x["index"], reverse=True)] *)
Definition sort_by_index_reverse (blockchain_copy : list block)
    : result (list block) :=
  keyed ← with_index_keys blockchain_copy;
  sorted ← sort_desc keyed;
  Ok (map snd sorted).

Record LogResponse : Type := {
  status : string;
  block_count : nat;
  chain_validity_status : string;
  blocks : list block
}.

(** [GET /blockchain-log] *)
Definition get_blockchain_log : M LogResponse :=
  log ← read_log;
  let blockchain_copy := log in   (* copy.deepcopy: a value, not an alias *)
  blockchain_copy ← lift (sort_by_index_reverse blockchain_copy);
  log ← read_log;
  '(is_valid, _) ← lift (validate_blockchain log);
  mret {| status := "success";
          block_count := length blockchain_copy;
          chain_validity_status := if (is_valid : bool) then "valid" else "invalid";
          blocks := blockchain_copy |}.

(** [GET /validate-chain] *)
Definition validate_chain : M (bool * option nat) :=
  log ← read_log;
  lift (validate_blockchain log).

(** *** Sequences of appending requests *)

Inductive request : Type :=
| Hash (env : Env) (file : UploadFile)
| Verification (env : Env) (file : UploadFile) (stored_hash : string).

Definition request_env (r : request) : Env :=
  match r with
  | Hash env _ => env
  | Verification env _ _ => env
  end.

Definition serve (r : request) : M (gmap string pyval) :=
  match r with
  | Hash env file => hash_file env file
  | Verification env file stored_hash => verify_file_integrity env file stored_hash
  end.

(** The log after a sequence of requests that all succeed; [None] when
    one of them is answered with an error. *)
Fixpoint appends (rs : list request) (log : list block) : option (list block) :=
  match rs with
  | [] => Some log
  | r :: rest =>
      match serve r log with
      | (Ok _, log') => appends rest log'
      | (Raise _, _) => None
      end
  end.

End Api.

(* ===================================================================== *)
(** ** Specification-side definitions                                    *)
(* ===================================================================== *)

Module Spec.
Import Chain.

(** The Block Hasher as the specification words it: SHA-256 of the UTF-8
    encoding of the six fields concatenated in order, without separators. *)
Definition block_hasher
    (index previous_hash timestamp operation filename result : string) : string :=
  SHA256.sha256_hex (bytes_of_string
    (index +:+ previous_hash +:+ timestamp +:+ operation +:+ filename +:+ result)).

(** A block holding exactly the six header fields. *)
Definition header_block
    (index previous_hash timestamp operation filename result : pyval) : block :=
  <["result" := result]> (<["filename" := filename]>
  (<["operation" := operation]> (<["timestamp" := timestamp]>
  (<["previous_hash" := previous_hash]> (<["index" := index]> ∅))))).

Definition header_fields : list string :=
  ["index"; "previous_hash"; "timestamp"; "operation"; "filename"; "result"].

(** The keys the validator reads from a block that carries a non-empty
    ["block_hash"]. *)
Definition validator_fields : list string := "block_hash" :: header_fields.

(** The keys that appended blocks carry besides the header fields and
    ["block_hash"]. *)
Definition extra_fields : list string := ["hash"; "stored_hash"; "current_hash"].

(** Two blocks agree on every key of [keys]. *)
Definition agree_on (keys : list string) (b1 b2 : block) : Prop :=
  Forall (fun k => b1 !! k = b2 !! k) keys.

(** The test [validate_blockchain] applies to the first block. *)
Definition genesis_check (first : block) : result bool :=
  index ← getitem first "index";
  if negb (py_eq index (PInt 0)) then Ok false else
  previous_hash ← getitem first "previous_hash";
  Ok (py_eq previous_hash (PStr ZERO_HASH)).

(** The block at index [j] passes the three checks of the loop body. *)
Definition passes (log : list block) (j : nat) : Prop :=
  exists c p, log !! j = Some c /\ log !! (j - 1)%nat = Some p
              /\ check_block c p = Ok true.

(** The first block and the blocks at indices [1 .. i-1] pass. *)
Definition valid_before (log : list block) (i : nat) : Prop :=
  (exists first, log !! 0%nat = Some first /\ genesis_check first = Ok true)
  /\ forall j, (1 <= j < i)%nat -> passes log j.

(** A block the validator can examine without an exception: it carries an
    index, a previous_hash, and a timestamp string that [fromisoformat]
    accepts. *)
Definition well_formed (b : block) : Prop :=
  is_Some (b !! "index") /\ is_Some (b !! "previous_hash")
  /\ exists t, block_time b = Ok t.

(** The stored header hash of [c] is absent or equal to the recomputed
    one. *)
Definition hash_intact (c : block) : Prop :=
  c !! "block_hash" = None
  \/ exists h, calculate_block_header_hash c = Ok h
               /\ c !! "block_hash" = Some (PStr h).

(** [b] with its own header hash stored under ["block_hash"]. *)
Definition sealed (b : block) : block :=
  match calculate_block_header_hash b with
  | Ok h => <["block_hash" := PStr h]> b
  | Raise _ => b
  end.

(** The hash of the genesis block, as a literal. *)
Definition GENESIS_HASH : string :=
  "ca016441893b28a7a333a1d7eb385843108b325c02bdcda625db15b3d49cbbe4".

(** *** Concrete chains used as test inputs *)

(** The genesis block followed by a block whose links and header hash are
    intact but whose timestamp is not a date. *)
Definition chain_bad_timestamp : list block :=
  initial_log ++
  [sealed (header_block (PInt 1) (PStr GENESIS_HASH) (PStr "not-a-timestamp")
                        (PStr "HASH") (PStr "a.txt") (PStr "ab"))].

(** A genesis block whose filename was altered while its stored
    [block_hash] was kept, followed by an intact block. *)
Definition chain_tampered_genesis : list block :=
  (<["filename" := PStr "forged.txt"]> <$> initial_log) ++
  [sealed (header_block (PInt 1) (PStr GENESIS_HASH) (PStr "2024-01-01T00:00:00Z")
                        (PStr "HASH") (PStr "a.txt") (PStr "ab"))].

(** The genesis block followed by a block whose result was altered after
    sealing. *)
Definition chain_tampered_block : list block :=
  initial_log ++
  [<["result" := PStr "cd"]>
     (sealed (header_block (PInt 1) (PStr GENESIS_HASH)
                (PStr "2024-01-01T00:00:00Z") (PStr "HASH") (PStr "a.txt")
                (PStr "ab")))].

Definition block_a : block :=
  sealed (header_block (PInt 1) (PStr GENESIS_HASH) (PStr "2024-01-01T00:00:00Z")
                       (PStr "HASH") (PStr "a.txt") (PStr "ab")).

Definition block_b (timestamp : string) : block :=
  sealed (header_block (PInt 2) (get block_a "block_hash" PNone) (PStr timestamp)
                       (PStr "VERIFICATION") (PStr "a.txt") (PStr "valid")).

(** Three intact blocks with increasing timestamps. *)
Definition chain_three : list block :=
  initial_log ++ [block_a; block_b "2024-01-01T00:00:01Z"].

(** Three intact blocks whose timestamp decreases at index 2 only. *)
Definition chain_one_decrease : list block :=
  initial_log ++ [block_a; block_b "2023-06-01T00:00:00Z"].

(** Three blocks with intact links and hashes whose timestamps decrease at
    index 1 and again at index 2. *)
Definition chain_two_decreases : list block :=
  let b1 := sealed (header_block (PInt 1) (PStr GENESIS_HASH)
                      (PStr "2022-06-01T00:00:00Z") (PStr "HASH") (PStr "a.txt")
                      (PStr "ab")) in
  let b2 := sealed (header_block (PInt 2) (get b1 "block_hash" PNone)
                      (PStr "2021-06-01T00:00:00Z") (PStr "HASH") (PStr "b.txt")
                      (PStr "cd")) in
  initial_log ++ [b1; b2].

(** The predecessor's header hash in the words of the specification: its
    [block_hash] when it has one that is not empty, else its [hash], else
    its [current_hash], else [None]. *)
Definition resolved_header_hash (p : block) : pyval :=
  let legacy :=
    match p !! "hash", p !! "current_hash" with
    | Some v, _ => v
    | None, Some v => v
    | None, None => PNone
    end in
  match p !! "block_hash" with
  | Some v => if truthy v then v else legacy
  | None => legacy
  end.

(** Three blocks with intact stored hashes: block 1 is linked to the
    genesis block but dated before it, and the previous_hash of block 2 is
    forged. *)
Definition chain_decrease_then_forged : list block :=
  let b1 := sealed (header_block (PInt 1) (PStr GENESIS_HASH)
                      (PStr "2022-06-01T00:00:00Z") (PStr "HASH") (PStr "a.txt")
                      (PStr "ab")) in
  let b2 := sealed (header_block (PInt 2) (PStr "forged")
                      (PStr "2024-01-01T00:00:00Z") (PStr "HASH") (PStr "b.txt")
                      (PStr "cd")) in
  initial_log ++ [b1; b2].

End Spec.

(* ===================================================================== *)
(** ** Specification-side definitions for the endpoints                  *)
(* ===================================================================== *)

Module ApiSpec.
Import Chain Spec Api.

(** [b] is a complete block for the tail of [log]: index, link, timestamp
    and operation are set and the stored header hash is the hash of [b]. *)
Record appended (log : list block) (ts : Datetime.datetime)
    (operation : string) (b : block) : Prop := {
  appended_index : b !! "index" = Some (PInt (Z.of_nat (length log)));
  appended_link : b !! "previous_hash" = Some (tail_hash log);
  appended_time : b !! "timestamp" = Some (PStr (Datetime.isoformat ts +:+ "Z"));
  appended_operation : b !! "operation" = Some (PStr operation);
  appended_hash : exists h, calculate_block_header_hash b = Ok h
                            /\ b !! "block_hash" = Some (PStr h)
}.

(** The future-timestamp check did not reject the reading of [env]. *)
Definition within_tolerance (env : Env) : Prop :=
  Datetime.to_micros (utcnow_timestamp env)
  <= Datetime.to_micros (utcnow_check env) + 10 * 60 * 1000000.

Definition request_operation (r : request) : string :=
  match r with
  | Hash _ _ => "HASH"
  | Verification _ _ _ => "VERIFICATION"
  end.

(** The time of the genesis block. *)
Definition GENESIS_TIME : Datetime.datetime := Datetime.Datetime 2023 1 1 0 0 0 0.

(** The clock readings that become timestamps are date-times and never go
    back, starting from [last]. *)
Fixpoint clock_monotone (last : Datetime.datetime) (rs : list request) : Prop :=
  match rs with
  | [] => True
  | r :: rest =>
      let now := utcnow_timestamp (request_env r) in
      Datetime.valid now = true
      /\ Datetime.to_micros last <= Datetime.to_micros now
      /\ clock_monotone now rest
  end.

(** The chain invariants of the specification. *)
Record chain_invariants (log : list block) : Prop := {
  (* (a) indices are dense and start at 0 *)
  inv_index : forall i b, log !! i = Some b ->
      b !! "index" = Some (PInt (Z.of_nat i));
  (* (b) previous_hash is the block_hash of the preceding block *)
  inv_link : forall i c p, log !! S i = Some c -> log !! i = Some p ->
      exists h, p !! "block_hash" = Some (PStr h)
                /\ c !! "previous_hash" = Some (PStr h);
  (* (c) the stored block_hash is the recomputed one *)
  inv_hash : forall i b, log !! i = Some b ->
      exists h, calculate_block_header_hash b = Ok h
                /\ b !! "block_hash" = Some (PStr h);
  (* (d) timestamps are non-decreasing *)
  inv_time : forall i c p, log !! S i = Some c -> log !! i = Some p ->
      exists tc tp, block_time c = Ok tc /\ block_time p = Ok tp
                    /\ Datetime.to_micros tp <= Datetime.to_micros tc;
  (* (e) the log extends the initial one: the genesis block stays first *)
  inv_genesis : exists rest, log = initial_log ++ rest
}.

(** *** The order of the blocks returned by [GET /blockchain-log] *)

(** Every block carries an integer index. *)
Definition int_indexed (log : list block) : Prop :=
  Forall (fun b => exists z, b !! "index" = Some (PInt z)) log.

Definition index_of (b : block) : Z :=
  match b !! "index" with
  | Some (PInt z) => z
  | _ => 0
  end.

(** Indices never increase along the list: newest first. *)
Definition newest_first (l : list block) : Prop :=
  StronglySorted (fun x y => index_of y <= index_of x) l.

(** Stable sort into descending index order, on blocks with integer
    indices. *)
Fixpoint insert_newest (x : block) (l : list block) : list block :=
  match l with
  | [] => [x]
  | y :: rest =>
      if index_of x <? index_of y then y :: insert_newest x rest
      else x :: y :: rest
  end.

Fixpoint sort_newest (l : list block) : list block :=
  match l with
  | [] => []
  | x :: rest => insert_newest x (sort_newest rest)
  end.

(** The answer of [GET /blockchain-log] on [chain_three]. *)
Definition response_three : LogResponse :=
  {| status := "success";
     block_count := 3;
     chain_validity_status := "valid";
     blocks := rev chain_three |}.

(** *** Concrete requests used as test inputs *)

Definition file_hello : UploadFile :=
  {| filename := PStr "a.txt"; reads := [bytes_of_string "Hello World"] |}.

Definition env_at (timestamp check : Datetime.datetime) : Env :=
  {| max_file_size := Ok 10;
     utcnow_timestamp := timestamp;
     utcnow_check := check |}.

(** A request whose timestamp reading is eleven minutes ahead of the
    reading used for the check. *)
Definition request_future : request :=
  Hash (env_at (Datetime.Datetime 2024 1 1 0 11 0 0)
               (Datetime.Datetime 2024 1 1 0 0 0 0)) file_hello.

(** Two requests served one second apart by a steady clock. *)
Definition requests_steady : list request :=
  [Hash (env_at (Datetime.Datetime 2024 1 1 0 0 0 0)
                (Datetime.Datetime 2024 1 1 0 0 0 0)) file_hello;
   Verification (env_at (Datetime.Datetime 2024 1 1 0 0 1 0)
                        (Datetime.Datetime 2024 1 1 0 0 1 0)) file_hello
     "a591a6d40bf420404a011733cfb7b190d62c65bf0bcda32b57b277d9ad9f146e"].

(** Two requests between which the clock is set back by one second. *)
Definition requests_clock_back : list request :=
  [Hash (env_at (Datetime.Datetime 2024 1 1 0 0 1 0)
                (Datetime.Datetime 2024 1 1 0 0 1 0)) file_hello;
   Verification (env_at (Datetime.Datetime 2024 1 1 0 0 0 0)
                        (Datetime.Datetime 2024 1 1 0 0 0 0)) file_hello
     "a591a6d40bf420404a011733cfb7b190d62c65bf0bcda32b57b277d9ad9f146e"].

End ApiSpec.

(* ===================================================================== *)
(** ** The endpoints that do not extend the log                          *)
(* ===================================================================== *)

(** [POST /verify/hash].  [hashlib.sha1], [hashlib.md5] and the [str()] of
    an [HTTPException] are not part of this development: they are taken
    as parameters. *)
Module VerifyHash.

Record Response : Type := {
  is_valid : bool;
  calculated_hash : string;
  provided_hash : string;
  algorithm : string
}.

Section WithLibrary.

Variables sha1_hexdigest md5_hexdigest : list byte -> string.
Variable http_exception_str : Z -> string -> string.

(** [str(e)] *)
Definition str_of_exn (e : exn) : string :=
  match e with
  | HTTPException status_code detail => http_exception_str status_code detail
  | _ => Api.exn_str e
  end.

(** [try: body  except Exception as e:
       raise HTTPException(status_code=500, detail=str(e))] *)
Definition reraise_500 {A : Type} (body : result A) : result A :=
  match body with
  | Ok a => Ok a
  | Raise e => Raise (HTTPException 500 (str_of_exn e))
  end.

Definition verify_hash (data hash_value algorithm : string) : result Response :=
  reraise_500 (
    calculated_hash ←
      (if String.eqb (lower algorithm) "sha256" then
         Ok (SHA256.hexdigest (SHA256.of_bytes (bytes_of_string data)))
       else if String.eqb (lower algorithm) "sha1" then
         Ok (sha1_hexdigest (bytes_of_string data))
       else if String.eqb (lower algorithm) "md5" then
         Ok (md5_hexdigest (bytes_of_string data))
       else
         Raise (HTTPException 400 ("Unsupported algorithm: " +:+ algorithm)));
    let is_valid := String.eqb (lower calculated_hash) (lower hash_value) in
    Ok {| is_valid := is_valid;
          calculated_hash := calculated_hash;
          provided_hash := hash_value;
          algorithm := algorithm |}).

End WithLibrary.

End VerifyHash.

(** [POST /verify/file-hash] *)
Module VerifyFileHash.

Record Response : Type := {
  filename : pyval;
  file_size_bytes : nat;
  calculated_hash : string;
  is_valid : option bool;       (* the key is set only with an expected hash *)
  expected_hash : option string
}.

(** [file_content] is what [await file.read()] returns; [expected] is the
    optional form field ([None] when the client sent none). *)
Definition verify_file_hash (file_name : pyval) (file_content : list byte)
    (expected : option string) : result Response :=
  calculated_hash ← Api.file_hash file_content;
  let response :=
    {| filename := file_name;
       file_size_bytes := length file_content;
       calculated_hash := calculated_hash;
       is_valid := None;
       expected_hash := None |} in
  match expected with
  | Some e =>
      if truthy (PStr e) then
        Ok {| filename := file_name;
              file_size_bytes := length file_content;
              calculated_hash := calculated_hash;
              is_valid := Some (String.eqb (lower calculated_hash) (lower e));
              expected_hash := Some e |}
      else Ok response
  | None => Ok response
  end.

End VerifyFileHash.

(** [POST /verify/merkle-proof] *)
Module MerkleProof.

Record Response : Type := {
  is_valid : bool;
  calculated_root : string;
  provided_root : string
}.

(** A [str] as the list of its code points.  Unlike the byte strings used
    for hashes and block fields, it can hold a surrogate, which
    [json.loads] returns for an escape such as [\ud800] and which cannot be
    encoded. *)
Definition ustr : Type := list N.

(** The code points of an ASCII string, such as a hex digest. *)
Definition ustr_of_string (s : string) : ustr :=
  map N_of_ascii (list_ascii_of_string s).

Definition byte_of_N (n : N) : byte :=
  default Byte.x00 (Byte.of_N (n mod 256)).

(** The UTF-8 encoding of one code point; [None] for a surrogate (and for
    a number that is no code point). *)
Definition encode_char (c : N) : option (list byte) :=
  if (c <? 0x80)%N then Some [byte_of_N c]
  else if (c <? 0x800)%N then
    Some [byte_of_N (N.lor 0xC0 (N.shiftr c 6));
          byte_of_N (N.lor 0x80 (N.land c 0x3F))]
  else if (c <? 0x10000)%N then
    if ((0xD800 <=? c) && (c <=? 0xDFFF))%N then None
    else Some [byte_of_N (N.lor 0xE0 (N.shiftr c 12));
               byte_of_N (N.lor 0x80 (N.land (N.shiftr c 6) 0x3F));
               byte_of_N (N.lor 0x80 (N.land c 0x3F))]
  else if (c <? 0x110000)%N then
    Some [byte_of_N (N.lor 0xF0 (N.shiftr c 18));
          byte_of_N (N.lor 0x80 (N.land (N.shiftr c 12) 0x3F));
          byte_of_N (N.lor 0x80 (N.land (N.shiftr c 6) 0x3F));
          byte_of_N (N.lor 0x80 (N.land c 0x3F))]
  else None.

(** [s.encode()]: the UTF-8 bytes, or [None] where Python raises
    [UnicodeEncodeError]. *)
Fixpoint encode (s : ustr) : option (list byte) :=
  match s with
  | [] => Some []
  | c :: rest =>
      match encode_char c, encode rest with
      | Some bs, Some bytes => Some (bs ++ bytes)
      | _, _ => None
      end
  end.

(** An item met when iterating over the parsed proof: a string, or a value
    of another type, of which only the name of the type matters. *)
Inductive item : Type :=
| Str (s : ustr)
| Other (type_name : string).

(** The outcome of [json.loads(proof)] as the loop sees it: the items that
    iterating over the value yields (the items of an array, the keys of an
    object, the characters of a string), or a value that cannot be
    iterated over, or no value at all. *)
Inductive loads_outcome : Type :=
| Items (proof_hashes : list item)
| NotIterable (type_name : string)
| JSONDecodeError
| OtherError (message : string).

(** The message of the [TypeError] raised by [str + x] for an [x] of type
    [type_name]; the type name is printed between double quotes. *)
Definition not_str_message (type_name : string) : string :=
  let quote := String (ascii_of_nat 34) EmptyString in
  "can only concatenate str (not " +:+ quote +:+ type_name +:+ quote
  +:+ ") to str".

Definition not_iterable_message (type_name : string) : string :=
  "'" +:+ type_name +:+ "' object is not iterable".

Section WithMessages.
(** [str(e)] of the [UnicodeEncodeError] raised by [s.encode()]. *)
Variable encode_error_message : ustr -> string.

(** [hashlib.sha256(s.encode()).hexdigest()] *)
Definition sha256_of (s : ustr) : result string :=
  match encode s with
  | Some bytes => Ok (SHA256.hexdigest (SHA256.of_bytes bytes))
  | None => Raise (ValueError (encode_error_message s))
  end.

(** The loop over [proof_hashes]: each item is appended to the current hash
    and the result is hashed; an item that is not a string makes
    [current_hash + proof_hash] raise [TypeError], and a string with a
    surrogate makes [combined.encode()] raise [UnicodeEncodeError] (a
    [ValueError]). *)
Fixpoint merkle_path (current_hash : string) (proof_hashes : list item)
    : result string :=
  match proof_hashes with
  | [] => Ok current_hash
  | proof_hash :: rest =>
      match proof_hash with
      | Str s =>
          let combined := ustr_of_string current_hash ++ s in
          current_hash ← sha256_of combined;
          merkle_path current_hash rest
      | Other type_name => Raise (TypeError (not_str_message type_name))
      end
  end.

Definition verify_merkle_proof (data : ustr) (merkle_root : string)
    (proof : loads_outcome) : result Response :=
  match proof with
  | JSONDecodeError =>
      Raise (HTTPException 400 "Invalid proof format, expected JSON array")
  | OtherError message => Raise (HTTPException 500 message)
  | NotIterable type_name =>
      match sha256_of data with
      | Ok _ => Raise (HTTPException 500 (not_iterable_message type_name))
      | Raise e => Raise (HTTPException 500 (Api.exn_str e))
      end
  | Items proof_hashes =>
      match current_hash ← sha256_of data;
            merkle_path current_hash proof_hashes with
      | Ok current_hash =>
          Ok {| is_valid := String.eqb (lower current_hash) (lower merkle_root);
                calculated_root := current_hash;
                provided_root := merkle_root |}
      | Raise e =>
          Raise (HTTPException 500 (Api.exn_str e))
      end
  end.

End WithMessages.

End MerkleProof.

(** [GET /health] *)
Module Health.
Import Chain Api.

Record Env : Type := {
  utcnow : Datetime.datetime;
  PORT : option string;
  MAX_FILE_SIZE : option string;
  RATE_LIMIT : option string
}.

Record Response : Type := {
  status : string;
  timestamp : string;
  port : string;
  version : string;
  blockchain_valid : bool;
  blockchain_block_count : nat;
  config_max_file_size : string;
  config_rate_limit : string
}.

Definition health_check (env : Env) : M Response :=
  log ← read_log;
  '(is_valid, _) ← lift (validate_blockchain log);
  log ← read_log;
  mret {| status := if (is_valid : bool) then "healthy" else "degraded";
          timestamp := Datetime.isoformat (utcnow env) +:+ "Z";
          port := default "8000" (PORT env);
          version := "1.0.0";
          blockchain_valid := is_valid;
          blockchain_block_count := length log;
          config_max_file_size := default "10" (MAX_FILE_SIZE env);
          config_rate_limit := default "5" (RATE_LIMIT env) |}.

End Health.

(* ===================================================================== *)
(** ** [POST /verify/transaction]                                        *)
(* ===================================================================== *)

Module Transaction.

(** The values [json.loads] returns: [None], booleans, numbers, strings,
    lists and dicts (the members of a dict in insertion order). *)
#[warnings="-register-all"]
Inductive json : Type :=
| JNull
| JBool (b : bool)
| JInt (z : Z)
| JFloat (literal : string)
| JStr (s : string)
| JArray (items : list json)
| JObject (members : list (string * json)).

(** The outcome of [json.loads(content)]. *)
Inductive loads_outcome : Type :=
| Parsed (transaction : json)
| JSONDecodeError
| OtherError (message : string).

(** The two kinds of answer: the [JSONResponse] returned for missing
    fields and the dict returned otherwise. *)
Inductive Response : Type :=
| JSONResponse (status_code : Z) (is_valid : bool) (error : string)
| Answer (is_valid : bool) (transaction : json) (signature_valid : option bool).

Definition required_fields : list string :=
  ["sender"; "receiver"; "amount"; "timestamp"].

(** [sub in s] on strings. *)
Fixpoint str_contains (sub s : string) : bool :=
  String.prefix sub s
  || match s with
     | EmptyString => false
     | String _ rest => str_contains sub rest
     end.

(** [sep.join(l)] *)
Fixpoint join (sep : string) (l : list string) : string :=
  match l with
  | [] => EmptyString
  | [x] => x
  | x :: rest => x +:+ sep +:+ join sep rest
  end.

(** [field == item] for an item of a list. *)
Definition str_eq_json (field : string) (item : json) : bool :=
  match item with
  | JStr s => String.eqb field s
  | _ => false
  end.

Section WithMessages.
(** [str(e)] of the [TypeError] that [field in transaction] raises on a
    value that is no container. *)
Variable not_iterable_message : json -> string.

(** [field in transaction]: a key of a dict, an item of a list, a
    substring of a string; [TypeError] on anything else. *)
Definition contains (field : string) (transaction : json) : result bool :=
  match transaction with
  | JObject members => Ok (existsb (String.eqb field) (map fst members))
  | JArray items => Ok (existsb (str_eq_json field) items)
  | JStr s => Ok (str_contains field s)
  | _ => Raise (TypeError (not_iterable_message transaction))
  end.

(** [[field for field in fields if field not in transaction]] *)
Fixpoint missing (fields : list string) (transaction : json)
    : result (list string) :=
  match fields with
  | [] => Ok []
  | field :: rest =>
      present ← contains field transaction;
      others ← missing rest transaction;
      Ok (if (present : bool) then others else field :: others)
  end.

(** The placeholder check of the signature, given as its characters:
    absent or empty gives [None], otherwise [len(signature) > 10]. *)
Definition check_signature (signature : option (list N)) : option bool :=
  match signature with
  | None | Some [] => None
  | Some s => Some (10 <? length s)%nat
  end.

Definition verify_transaction (content : loads_outcome)
    (signature : option (list N)) : result Response :=
  match content with
  | JSONDecodeError => Raise (HTTPException 400 "Invalid JSON format")
  | OtherError message => Raise (HTTPException 500 message)
  | Parsed transaction =>
      match missing required_fields transaction with
      | Raise e => Raise (HTTPException 500 (Api.exn_str e))
      | Ok [] => Ok (Answer true transaction (check_signature signature))
      | Ok missing_fields =>
          Ok (JSONResponse 400 false
                ("Missing required fields: " +:+ join ", " missing_fields))
      end
  end.

End WithMessages.

End Transaction.

(* ===================================================================== *)
(** ** Specification-side definitions for the further properties         *)
(* ===================================================================== *)

Module MoreSpec.
Import Chain Spec Api ApiSpec.

(** A lowercase hexadecimal digit. *)
Definition is_lower_hex (c : ascii) : bool :=
  let n := nat_of_ascii c in
  (Nat.leb 48 n && Nat.leb n 57) || (Nat.leb 97 n && Nat.leb n 102).

Fixpoint all_chars (p : ascii -> bool) (s : string) : bool :=
  match s with
  | EmptyString => true
  | String c rest => p c && all_chars p rest
  end.

(** Sixty-four lowercase hexadecimal digits. *)
Definition is_digest (s : string) : Prop :=
  String.length s = 64%nat /\ all_chars is_lower_hex s = true.

(** The bytes an upload delivers: its chunks up to the first empty one,
    which stands for the end of the file. *)
Fixpoint upload_content (reads : list (list byte)) : list byte :=
  match reads with
  | [] => []
  | chunk :: rest =>
      match chunk with
      | [] => []
      | _ => chunk ++ upload_content rest
      end
  end.

(** The upload is empty or not larger than [limit] bytes. *)
Definition fits (reads : list (list byte)) (limit : Z) : Prop :=
  upload_content reads = [] \/ Z.of_nat (length (upload_content reads)) <= limit.


(** The upload has bytes and more of them than [limit]. *)
Definition oversize (reads : list (list byte)) (limit : Z) : Prop :=
  upload_content reads <> [] /\ limit < Z.of_nat (length (upload_content reads)).



(** A one-chunk upload of eleven bytes and two environments, the second
    with a size limit of zero. *)
Definition env_steady : Env :=
  env_at (Datetime.Datetime 2024 1 1 0 0 0 0) (Datetime.Datetime 2024 1 1 0 0 0 0).

Definition env_no_room : Env :=
  {| max_file_size := Ok 0;
     utcnow_timestamp := Datetime.Datetime 2024 1 1 0 0 0 0;
     utcnow_check := Datetime.Datetime 2024 1 1 0 0 0 0 |}.

(** The kind of a sort key: integers compare with integers and strings
    with strings; [None] compares with nothing. *)
Definition key_kind (v : pyval) : option bool :=
  match v with
  | PInt _ => Some true
  | PStr _ => Some false
  | PNone => None
  end.

(** The indices cannot all be compared: the log holds an integer index and
    a string index, or it has two or more blocks one of which has the
    index [None]. *)
Definition mixed_indices (log : list block) : Prop :=
  (exists a b x s, a ∈ log /\ b ∈ log /\ a !! "index" = Some (PInt x)
                   /\ b !! "index" = Some (PStr s))
  \/ ((2 <= length log)%nat
      /\ exists c, c ∈ log /\ c !! "index" = Some PNone).

(** The genesis block followed by a block whose index is a string. *)
Definition log_mixed : list block :=
  initial_log ++ [<["index" := PStr "1"]> block_a].

(** A log holding one block of an older shape: the genesis block without
    its ["block_hash"]. *)
Definition log_legacy : list block := delete "block_hash" <$> initial_log.

(** An environment for [GET /health] with nothing configured. *)
Definition health_env_default : Health.Env :=
  {| Health.utcnow := Datetime.Datetime 2024 1 1 0 0 2 0;
     Health.PORT := None;
     Health.MAX_FILE_SIZE := None;
     Health.RATE_LIMIT := None |}.

(** The log left by the two requests of [requests_steady]. *)
Definition log_steady : list block :=
  default [] (appends requests_steady initial_log).

(** Stand-ins for the library functions [POST /verify/hash] takes as
    parameters, for use in test inputs. *)
Definition no_digest (data : list byte) : string := EmptyString.
Definition status_and_detail (status_code : Z) (detail : string) : string :=
  pretty status_code +:+ ": " +:+ detail.

(** A UTC offset as [fromisoformat] reads it, [+HH:MM] or [-HH:MM], and
    the offset it denotes in microseconds. *)
Definition utc_offset (minus : bool) (oh om : Z) : string :=
  String (if minus then "-" else "+")%char
         (Datetime.zpad 2 oh +:+ ":" +:+ Datetime.zpad 2 om).
Definition offset_micros (minus : bool) (oh om : Z) : Z :=
  (if minus then -1 else 1) * ((oh * 60 + om) * 60 * 1000000).

(** The Merkle root in the words of the endpoint's comments: starting from
    the SHA-256 of the data, each sibling is appended to the hex digest
    reached so far and the result is hashed. *)
Definition merkle_root_of (leaf : list byte) (siblings : list (list byte))
    : string :=
  fold_left (fun current sibling =>
               SHA256.sha256_hex (bytes_of_string current ++ sibling))
            siblings (SHA256.sha256_hex leaf).

(** A stand-in for the message of the [UnicodeEncodeError], and the code
    points of a few strings, for use in test inputs. *)
Definition no_encode_message (s : MerkleProof.ustr) : string :=
  "surrogates not allowed".
Definition ustr_leaf : MerkleProof.ustr := MerkleProof.ustr_of_string "leaf".
Definition ustr_cafe : MerkleProof.ustr := [99; 97; 102; 233]%N.
Definition ustr_surrogate : MerkleProof.ustr := [97; 55296]%N.

(** A stand-in for the message of the [TypeError], for use in test
    inputs, and a transaction with one field missing. *)
Definition no_message (transaction : Transaction.json) : string := "not iterable".
Definition transaction_no_amount : Transaction.json :=
  Transaction.JObject
    [("sender", Transaction.JStr "alice"); ("receiver", Transaction.JNull);
     ("timestamp", Transaction.JInt 0)].
Definition is_scalar (transaction : Transaction.json) : Prop :=
  match transaction with
  | Transaction.JNull | Transaction.JBool _ | Transaction.JInt _
  | Transaction.JFloat _ => True
  | _ => False
  end.

End MoreSpec.

(* ===================================================================== *)
(** * Properties                                                         *)
(* ===================================================================== *)

(** ** Streaming SHA-256 agrees with the single-pass function *)

Section Streaming.
Import SHA256.

Lemma absorb_app (a b : nat) (h : regs) (x y : list byte) :
  length x = (64 * a)%nat ->
  absorb (a + b) h (x ++ y) = absorb b (absorb a h x) y.
Proof.
  revert h x. induction a as [|a IH]; intros h x Hx.
  - destruct x; [reflexivity | simpl in Hx; lia].
  - cbn [Nat.add absorb].
    assert (Hlen : (64 <= length x)%nat) by lia.
    rewrite (take_app_le x y 64) by lia.
    rewrite (drop_app_le x y 64) by lia.
    apply IH. rewrite length_drop. lia.
Qed.

Lemma absorb_prefix (n : nat) (h : regs) (x y : list byte) :
  (64 * n <= length x)%nat -> absorb n h (x ++ y) = absorb n h x.
Proof.
  revert h x. induction n as [|n IH]; intros h x Hx; [reflexivity|].
  cbn [absorb].
  rewrite (take_app_le x y 64) by lia.
  rewrite (drop_app_le x y 64) by lia.
  apply IH. rewrite length_drop. lia.
Qed.

Lemma absorb_take (n : nat) (h : regs) (m : list byte) :
  (64 * n <= length m)%nat -> absorb n h m = absorb n h (take (64 * n) m).
Proof.
  intros Hn. rewrite <- (take_drop (64 * n) m) at 1.
  apply absorb_prefix. rewrite length_take. lia.
Qed.

Lemma tracks_new : tracks new [].
Proof. repeat split. Qed.

Lemma tracks_update (c : ctx) (m d : list byte) :
  tracks c m -> tracks (update c d) (m ++ d).
Proof.
  intros (Hc & Hp & Ht).
  set (q := (length m / 64)%nat) in *.
  assert (Hq : (64 * q <= length m)%nat).
  { subst q. pose proof (Nat.div_mod_eq (length m) 64). lia. }
  assert (Hr : (length m - 64 * q < 64)%nat).
  { subst q. pose proof (Nat.div_mod_eq (length m) 64).
    pose proof (Nat.mod_upper_bound (length m) 64). lia. }
  set (buf := drop (64 * q) m ++ d).
  set (n := (length buf / 64)%nat).
  assert (Hbuf : length buf = (length m - 64 * q + length d)%nat).
  { subst buf. rewrite length_app, length_drop. reflexivity. }
  assert (Hqn : (length (m ++ d) / 64 = q + n)%nat).
  { rewrite length_app. subst n. rewrite Hbuf.
    replace (length m + length d)%nat
      with ((length m - 64 * q + length d) + q * 64)%nat by lia.
    rewrite Nat.div_add by lia. lia. }
  assert (Hsplit : m ++ d = take (64 * q) m ++ buf).
  { subst buf. rewrite app_assoc, take_drop. reflexivity. }
  unfold tracks, update. cbn [chain pending total].
  rewrite Hp, Hc, Ht. fold buf. fold n. rewrite Hqn.
  repeat split.
  - rewrite Hsplit.
    rewrite absorb_app by (rewrite length_take; lia).
    f_equal. apply absorb_take. lia.
  - rewrite Hsplit.
    rewrite drop_app_ge by (rewrite length_take; lia).
    rewrite length_take. f_equal. lia.
  - rewrite length_app. reflexivity.
Qed.

Lemma tracks_digest (c : ctx) (m : list byte) :
  tracks c m -> digest c = sha256 m.
Proof.
  intros (Hc & Hp & Ht).
  set (q := (length m / 64)%nat) in *.
  assert (Hq : (64 * q <= length m)%nat).
  { subst q. pose proof (Nat.div_mod_eq (length m) 64). lia. }
  unfold digest, sha256, pad. rewrite Hc, Hp, Ht.
  set (last := drop (64 * q) m ++ pad_tail (length m)).
  assert (Hsplit : m ++ pad_tail (length m) = take (64 * q) m ++ last).
  { subst last. rewrite app_assoc, take_drop. reflexivity. }
  assert (Hlen : (length (m ++ pad_tail (length m)) / 64
                  = q + length last / 64)%nat).
  { rewrite Hsplit, length_app, length_take.
    replace (Nat.min (64 * q) (length m) + length last)%nat
      with (length last + q * 64)%nat by lia.
    rewrite Nat.div_add by lia. lia. }
  rewrite Hlen, Hsplit.
  rewrite absorb_app by (rewrite length_take; lia).
  f_equal. apply absorb_take. lia.
Qed.

(** Feeding a message in any number of pieces gives the single-pass hash. *)
Lemma update_chunks_hexdigest (c : ctx) (m : list byte) :
  tracks c m -> hexdigest c = sha256_hex m.
Proof. intros H. unfold hexdigest, sha256_hex. now rewrite (tracks_digest c m). Qed.

End Streaming.

Section DigestEngine.
Import SHA256.

Variable chunk_size : nat.
Hypothesis chunk_size_pos : (0 < chunk_size)%nat.

Lemma hash_loop_tracks (fuel : nat) (file_bytes : list byte) (offset : nat)
    (c : SHA256.ctx) :
  (length file_bytes <= offset + fuel)%nat ->
  tracks c (take offset file_bytes) ->
  exists c', hash_loop chunk_size fuel file_bytes offset c = Some c'
             /\ tracks c' file_bytes.
Proof.
  revert offset c. induction fuel as [|fuel IH]; intros offset c Hfuel Htr.
  - cbn [hash_loop].
    destruct (Nat.ltb_spec offset (length file_bytes)) as [Hlt|Hge]; [lia|].
    exists c. split; [reflexivity|]. now rewrite take_ge in Htr by lia.
  - cbn [hash_loop].
    destruct (Nat.ltb_spec offset (length file_bytes)) as [Hlt|Hge].
    + apply IH; [lia|].
      rewrite <- take_take_drop. now apply tracks_update.
    + exists c. split; [reflexivity|]. now rewrite take_ge in Htr by lia.
Qed.

End DigestEngine.

Lemma sha256_hex_empty : SHA256.sha256_hex [] = EMPTY_SHA256.
Proof. vm_compute. reflexivity. Qed.

Lemma calculate_file_hash_total (file_bytes : list byte) :
  calculate_file_hash file_bytes = Some (SHA256.sha256_hex file_bytes).
Proof.
  destruct file_bytes as [|b bs].
  - cbn [calculate_file_hash]. now rewrite sha256_hex_empty.
  - unfold calculate_file_hash.
    destruct (hash_loop_tracks (64 * 1024) ltac:(lia) (length (b :: bs))
                (b :: bs) 0 SHA256.new) as (c' & Hrun & Htr).
    + lia.
    + rewrite take_0. apply tracks_new.
    + rewrite Hrun. cbn [fmap option_fmap option_map].
      f_equal. now apply update_chunks_hexdigest.
Qed.

(** C7. For every byte sequence, [calculate_file_hash] (empty input
    special-cased, otherwise fed to the streaming object in chunks of
    64 KiB) returns the hex digest of single-pass SHA-256 of the whole
    input; the empty input gives e3b0c442...7852b855 and "Hello World"
    gives the standard test vector a591a6d4...ad9f146e. *)
Theorem calculate_file_hash_is_sha256 :
  (forall file_bytes : list byte,
     calculate_file_hash file_bytes = Some (SHA256.sha256_hex file_bytes))
  /\ calculate_file_hash []
     = Some "e3b0c44298fc1c149afbf4c8996fb92427ae41e4649b934ca495991b7852b855"%string
  /\ calculate_file_hash (bytes_of_string "Hello World")
     = Some "a591a6d40bf420404a011733cfb7b190d62c65bf0bcda32b57b277d9ad9f146e"%string.
Proof.
  split; [exact calculate_file_hash_total|]. split.
  - reflexivity.
  - rewrite calculate_file_hash_total. vm_compute. reflexivity.
Qed.

(** The iteration bound of the model is never the reason for an error. *)
Lemma file_hash_total (file_content : list byte) :
  Api.file_hash file_content = Ok (SHA256.sha256_hex file_content).
Proof.
  unfold Api.file_hash. now rewrite calculate_file_hash_total.
Qed.

(** ** The block hasher *)

Section BlockHasher.
Import Chain Spec.

Lemma of_bytes_hexdigest (data : list byte) :
  SHA256.hexdigest (SHA256.of_bytes data) = SHA256.sha256_hex data.
Proof.
  apply update_chunks_hexdigest. unfold SHA256.of_bytes.
  change data with ([] ++ data) at 2. apply tracks_update, tracks_new.
Qed.

Lemma calculate_block_header_hash_header (b : block) :
  calculate_block_header_hash b
  = (fun header => SHA256.sha256_hex (bytes_of_string header)) <$> block_header b.
Proof.
  unfold calculate_block_header_hash.
  destruct (block_header b) as [s|e]; cbn; [|reflexivity].
  now rewrite of_bytes_hexdigest.
Qed.

Lemma block_header_agree (b1 b2 : block) :
  agree_on header_fields b1 b2 -> block_header b1 = block_header b2.
Proof.
  unfold agree_on, header_fields. intros H.
  repeat (apply Forall_cons in H; destruct H as [? H]).
  unfold block_header, getitem, get.
  repeat match goal with E : b1 !! _ = b2 !! _ |- _ => rewrite E; clear E end.
  reflexivity.
Qed.

Lemma hash_agree (b1 b2 : block) :
  agree_on header_fields b1 b2 ->
  calculate_block_header_hash b1 = calculate_block_header_hash b2.
Proof.
  intros H. rewrite !calculate_block_header_hash_header.
  now rewrite (block_header_agree b1 b2 H).
Qed.

Lemma header_block_header (i p t o f r : pyval) :
  block_header (header_block i p t o f r)
  = Ok (py_str i +:+ py_str p +:+ py_str t +:+ py_str o +:+ py_str f +:+ py_str r).
Proof. reflexivity. Qed.

End BlockHasher.

Section BlockHasherClaims.
Import Chain Spec.

(** C6. The block hasher is SHA-256 over the UTF-8 encoding of the six
    fields (index, previous_hash, timestamp, operation, filename, result)
    concatenated in that order without separators (the last three default
    to the empty string when absent); hence two blocks whose concatenations
    are the same string get the same hash, and two distinct field tuples
    (different splits of the same string) collide. *)
Theorem block_hasher_concatenation :
  (forall (b : block) (i p t : pyval),
      b !! "index" = Some i -> b !! "previous_hash" = Some p ->
      b !! "timestamp" = Some t ->
      calculate_block_header_hash b
      = Ok (block_hasher (py_str i) (py_str p) (py_str t)
              (py_str (get b "operation" (PStr "")))
              (py_str (get b "filename" (PStr "")))
              (py_str (get b "result" (PStr "")))))
  /\ (forall (b1 b2 : block) (s : string),
        block_header b1 = Ok s -> block_header b2 = Ok s ->
        calculate_block_header_hash b1 = calculate_block_header_hash b2)
  /\ (exists (i1 p1 i2 p2 t o f r : pyval) (h : string),
        (i1, p1) <> (i2, p2)
        /\ calculate_block_header_hash (header_block i1 p1 t o f r) = Ok h
        /\ calculate_block_header_hash (header_block i2 p2 t o f r) = Ok h).
Proof.
  split; [|split].
  - intros b i p t Hi Hp Ht.
    rewrite calculate_block_header_hash_header.
    unfold block_header, getitem. rewrite Hi, Hp, Ht. reflexivity.
  - intros b1 b2 s H1 H2.
    rewrite !calculate_block_header_hash_header, H1, H2. reflexivity.
  - exists (PInt 1), (PStr "23"), (PInt 12), (PStr "3"),
      (PStr "2024-01-01T00:00:00Z"), (PStr "HASH"), (PStr "a.txt"), (PStr "ab").
    eexists. split; [discriminate|].
    rewrite !calculate_block_header_hash_header, !header_block_header.
    split; reflexivity.
Qed.

(** The genesis block is hashed over "0", sixty-four zeros, its timestamp
    and "GENESIS". *)
Lemma block_hasher_concatenation_witness :
  calculate_block_header_hash
    (header_block (PInt 0) (PStr ZERO_HASH) (PStr "2023-01-01T00:00:00Z")
                  (PStr "GENESIS") (PStr "") (PStr ""))
  = Ok (block_hasher "0" ZERO_HASH "2023-01-01T00:00:00Z" "GENESIS" "" "").
Proof.
  apply (proj1 block_hasher_concatenation
           (header_block (PInt 0) (PStr ZERO_HASH) (PStr "2023-01-01T00:00:00Z")
                         (PStr "GENESIS") (PStr "") (PStr ""))
           (PInt 0) (PStr ZERO_HASH) (PStr "2023-01-01T00:00:00Z"));
    reflexivity.
Defined.

End BlockHasherClaims.

(** ** The chain validator: how the loop runs *)

Ltac rsimpl :=
  cbn [mbind result_bind mret result_ret fmap result_fmap negb].
Tactic Notation "rsimpl" "in" hyp(H) :=
  cbn [mbind result_bind mret result_ret fmap result_fmap negb] in H.

Section Validator.
Import Chain Spec.

Lemma validate_blockchain_cons (first : block) (rest : list block) :
  validate_blockchain (first :: rest)
  = (g ← genesis_check first;
     if (g : bool) then validate_from (first :: rest) 1 (length rest)
     else Ok (false, Some 0%nat)).
Proof.
  unfold validate_blockchain, genesis_check.
  destruct (getitem first "index") as [index|e]; rsimpl; [|reflexivity].
  destruct (py_eq index (PInt 0)); rsimpl; [|reflexivity].
  destruct (getitem first "previous_hash") as [ph|e]; rsimpl; [|reflexivity].
  destruct (py_eq ph (PStr ZERO_HASH)); rsimpl; [|reflexivity].
  replace (length (first :: rest) - 1)%nat with (length rest)
    by (cbn [length]; lia).
  reflexivity.
Qed.

Lemma validate_from_step (log : list block) (i todo : nat) (c p : block) :
  log !! i = Some c -> log !! (i - 1)%nat = Some p ->
  validate_from log i (S todo)
  = (ok ← check_block c p;
     if (ok : bool) then validate_from log (S i) todo else Ok (false, Some i)).
Proof.
  intros Hc Hp. cbn [validate_from]. unfold log_getitem. rewrite Hc, Hp.
  reflexivity.
Qed.

Lemma validate_from_skip (log : list block) (i a b : nat) :
  (forall j, (i <= j < i + a)%nat -> passes log j) ->
  validate_from log i (a + b) = validate_from log (i + a) b.
Proof.
  revert i. induction a as [|a IH]; intros i Hpass.
  - now rewrite Nat.add_0_r.
  - destruct (Hpass i ltac:(lia)) as (c & p & Hc & Hp & Hok).
    cbn [Nat.add]. rewrite (validate_from_step log i (a + b) c p Hc Hp), Hok.
    rsimpl. rewrite IH by (intros j Hj; apply Hpass; lia).
    f_equal. lia.
Qed.

Lemma validate_from_at (log : list block) (i todo k : nat) (c p : block) :
  (forall j, (i <= j < k)%nat -> passes log j) ->
  (i <= k < i + todo)%nat ->
  log !! k = Some c -> log !! (k - 1)%nat = Some p ->
  validate_from log i todo
  = (ok ← check_block c p;
     if (ok : bool) then validate_from log (S k) (i + todo - S k)
     else Ok (false, Some k)).
Proof.
  intros Hpass Hk Hc Hp.
  replace todo with ((k - i) + S (i + todo - S k))%nat by lia.
  rewrite validate_from_skip by (intros j Hj; apply Hpass; lia).
  replace (i + (k - i))%nat with k by lia.
  rewrite (validate_from_step log k _ c p Hc Hp).
  destruct (check_block c p) as [[|]|e]; rsimpl; try reflexivity.
  f_equal. lia.
Qed.

Lemma validate_from_all (log : list block) (i todo : nat) :
  (forall j, (i <= j < i + todo)%nat -> passes log j) ->
  validate_from log i todo = Ok (true, None).
Proof.
  intros H. rewrite <- (Nat.add_0_r todo).
  now rewrite validate_from_skip by exact H.
Qed.

(** A run of the loop that does not raise ends in [(True, None)] or in
    [(False, k)] for an index [k] of the range. *)
Lemma validate_from_verdict (log : list block) (i todo : nat)
    (v : bool * option nat) :
  validate_from log i todo = Ok v ->
  (v = (true, None) /\ forall j, (i <= j < i + todo)%nat -> passes log j)
  \/ (exists k, v = (false, Some k) /\ (i <= k < i + todo)%nat
                /\ (forall j, (i <= j < k)%nat -> passes log j)
                /\ ~ passes log k).
Proof.
  revert i. induction todo as [|todo IH]; intros i Hrun.
  - rsimpl in Hrun. injection Hrun as <-. left. split; [reflexivity|]. lia.
  - cbn [validate_from] in Hrun. unfold log_getitem in Hrun.
    destruct (log !! i) as [c|] eqn:Hc; rsimpl in Hrun; [|discriminate].
    destruct (log !! (i - 1)%nat) as [p|] eqn:Hp; rsimpl in Hrun; [|discriminate].
    destruct (check_block c p) as [[|]|e] eqn:Hck; rsimpl in Hrun; [| |discriminate].
    + destruct (IH (S i) Hrun) as [[-> Hall]|(k & -> & Hk & Hbefore & Hnot)].
      * left. split; [reflexivity|]. intros j Hj.
        destruct (decide (j = i)) as [->|Hne]; [now exists c, p|].
        apply Hall. lia.
      * right. exists k. repeat split; [lia | lia | | exact Hnot].
        intros j Hj.
        destruct (decide (j = i)) as [->|Hne]; [now exists c, p|].
        apply Hbefore. lia.
    + injection Hrun as <-. right. exists i. repeat split; [lia | lia | lia |].
      intros (c' & p' & Hc' & Hp' & Hok). congruence.
Qed.

Lemma passes_take (log : list block) (i j : nat) :
  (j < i)%nat -> passes (take i log) j <-> passes log j.
Proof.
  intros Hj. unfold passes.
  setoid_rewrite lookup_take_lt; [reflexivity | lia | lia].
Qed.

Lemma valid_before_take (log : list block) (i k : nat) :
  (1 <= k <= i)%nat -> valid_before (take i log) k <-> valid_before log k.
Proof.
  intros Hk. unfold valid_before.
  rewrite (lookup_take_lt log i 0) by lia.
  split; intros [Hg Hp]; (split; [exact Hg|]); intros j Hj.
  - apply (passes_take log i j); [lia | now apply Hp].
  - apply (passes_take log i j); [lia | now apply Hp].
Qed.

(** A non-empty chain is reported valid exactly when the first block and
    every later block pass their checks. *)
Lemma validate_blockchain_valid (log : list block) :
  log <> [] ->
  validate_blockchain log = Ok (true, None) <-> valid_before log (length log).
Proof.
  destruct log as [|first rest]; [congruence|]. intros _.
  rewrite validate_blockchain_cons. unfold valid_before. cbn [length].
  split.
  - intros Hrun.
    destruct (genesis_check first) as [[|]|e] eqn:Hg; rsimpl in Hrun;
      [|discriminate|discriminate].
    split; [now exists first|].
    destruct (validate_from_verdict _ _ _ _ Hrun) as [[_ Hall]|(k & Hk & _)];
      [|discriminate].
    intros j Hj. apply Hall. lia.
  - intros [(f & Hf & Hg) Hall]. cbn [lookup list_lookup] in Hf. injection Hf as <-.
    rewrite Hg. rsimpl. apply validate_from_all. intros j Hj. apply Hall. lia.
Qed.

(** The verdict at the first index [k >= 1] whose predecessors all pass. *)
Lemma validate_blockchain_at (log : list block) (k : nat) (c p : block) :
  valid_before log k -> (1 <= k)%nat ->
  log !! k = Some c -> log !! (k - 1)%nat = Some p ->
  validate_blockchain log
  = (ok ← check_block c p;
     if (ok : bool) then validate_from log (S k) (length log - S k)
     else Ok (false, Some k)).
Proof.
  intros [(first & Hf & Hg) Hall] Hk Hc Hp.
  destruct log as [|first' rest]; [discriminate|].
  cbn [lookup list_lookup] in Hf. injection Hf as ->.
  rewrite validate_blockchain_cons, Hg. cbn [mbind result_bind].
  pose proof (lookup_lt_Some _ _ _ Hc) as Hlen. cbn [length] in Hlen.
  rewrite (validate_from_at (first :: rest) 1 (length rest) k c p);
    [| intros j Hj; apply Hall; lia | lia | exact Hc | exact Hp].
  destruct (check_block c p) as [[|]|e]; rsimpl; try reflexivity.
Qed.

End Validator.

(** ** Timestamps: [isoformat] then [fromisoformat] *)

Section Roundtrip.
Import Datetime.

Lemma digit_cases (n : Z) :
  let d := n mod 10 in
  d = 0 \/ d = 1 \/ d = 2 \/ d = 3 \/ d = 4 \/ d = 5 \/ d = 6 \/ d = 7 \/ d = 8 \/ d = 9.
Proof. intros d. pose proof (Z.mod_pos_bound n 10 ltac:(lia)). subst d. lia. Qed.

Ltac by_digit n :=
  pose proof (digit_cases n) as Hd; cbv zeta in Hd;
  repeat (destruct Hd as [Hd|Hd]; [rewrite Hd; reflexivity|]);
  rewrite Hd; reflexivity.

Lemma digit_val_digit_char (n : Z) :
  digit_val (digit_char (n mod 10)) = Some (n mod 10).
Proof. by_digit n. Qed.

Lemma digit_char_eqb (n : Z) (c : ascii) :
  digit_val c = None -> Ascii.eqb (digit_char (n mod 10)) c = false.
Proof.
  intros Hc. destruct (Ascii.eqb_spec (digit_char (n mod 10)) c) as [<-|]; [|reflexivity].
  rewrite digit_val_digit_char in Hc. discriminate.
Qed.

Lemma digit_not_Z n : Ascii.eqb (digit_char (n mod 10)) "Z" = false.
Proof. now apply digit_char_eqb. Qed.
Lemma digit_not_minus n : Ascii.eqb (digit_char (n mod 10)) "-" = false.
Proof. now apply digit_char_eqb. Qed.
Lemma digit_not_plus n : Ascii.eqb (digit_char (n mod 10)) "+" = false.
Proof. now apply digit_char_eqb. Qed.

Lemma str_app_assoc (a b c : string) : (a +:+ b) +:+ c = a +:+ (b +:+ c).
Proof.
  induction a as [|x a IH]; [reflexivity|].
  change ((String x a +:+ b) +:+ c) with (String x ((a +:+ b) +:+ c)).
  change (String x a +:+ b +:+ c) with (String x (a +:+ b +:+ c)).
  now rewrite IH.
Qed.

Lemma str_replace_app (old : ascii) (new a b : string) :
  str_replace old new (a +:+ b) = str_replace old new a +:+ str_replace old new b.
Proof.
  induction a as [|c a IH]; [reflexivity|].
  cbn [str_replace]. change (String c a +:+ b) with (String c (a +:+ b)).
  cbn [str_replace]. rewrite IH.
  destruct (Ascii.eqb c old); [|reflexivity].
  symmetry. apply str_app_assoc.
Qed.

Lemma str_replace_zpad (w : nat) (n : Z) (new : string) :
  str_replace "Z" new (zpad w n) = zpad w n.
Proof.
  revert n. induction w as [|w IH]; intros n; [reflexivity|].
  cbn [zpad]. rewrite str_replace_app, IH. cbn [str_replace].
  now rewrite digit_not_Z.
Qed.

Lemma digits2 (n : Z) : 0 <= n < 100 ->
  (0 * 10 + (n / 10) mod 10) * 10 + n mod 10 = n.
Proof. intros H. Z.div_mod_to_equations. lia. Qed.

Lemma digits4 (n : Z) : 0 <= n < 10000 ->
  (((0 * 10 + (n / 10 / 10 / 10) mod 10) * 10 + (n / 10 / 10) mod 10) * 10
   + (n / 10) mod 10) * 10 + n mod 10 = n.
Proof. intros H. Z.div_mod_to_equations. lia. Qed.

Lemma digits6 (n : Z) : 0 <= n < 1000000 ->
  (((((0 * 10 + (n / 10 / 10 / 10 / 10 / 10) mod 10) * 10
      + (n / 10 / 10 / 10 / 10) mod 10) * 10
     + (n / 10 / 10 / 10) mod 10) * 10 + (n / 10 / 10) mod 10) * 10
   + (n / 10) mod 10) * 10 + n mod 10 = n.
Proof. intros H. Z.div_mod_to_equations. lia. Qed.

Lemma valid_bounds (t : datetime) :
  valid t = true ->
  0 <= year t < 10000 /\ 0 <= month t < 100 /\ 0 <= day t < 100
  /\ 0 <= hour t < 100 /\ 0 <= minute t < 100 /\ 0 <= second t < 100
  /\ 0 <= microsecond t < 1000000.
Proof.
  unfold valid. rewrite !andb_true_iff, !Z.leb_le. intros H.
  assert (days_in_month (year t) (month t) <= 31).
  { unfold days_in_month.
    destruct ((month t =? 2) && is_leap (year t)); [lia|].
    assert (Hm : month t = 1 \/ month t = 2 \/ month t = 3 \/ month t = 4
             \/ month t = 5 \/ month t = 6 \/ month t = 7 \/ month t = 8
             \/ month t = 9 \/ month t = 10 \/ month t = 11 \/ month t = 12) by lia.
    repeat (destruct Hm as [Hm|Hm]; [rewrite Hm; now vm_compute|]).
    rewrite Hm; now vm_compute. }
  lia.
Qed.

Ltac digits_step :=
  rewrite ?digit_val_digit_char, ?digit_not_minus, ?digit_not_plus;
  cbn [mbind option_bind fmap option_fmap option_map
       Ascii.eqb Bool.eqb andb negb orb].

Lemma parse_date_roundtrip (y m d : Z) :
  0 <= y < 10000 -> 0 <= m < 100 -> 0 <= d < 100 ->
  parse_isoformat_date (zpad 4 y +:+ "-" +:+ zpad 2 m +:+ "-" +:+ zpad 2 d)
  = Some (y, m, d).
Proof.
  intros Hy Hm Hd. cbv [zpad String.append]. unfold parse_isoformat_date.
  cbn [substring String.get is_char parse_digits String.length Nat.eqb
       parse_digits_from].
  digits_step.
  now rewrite (digits4 y), (digits2 m), (digits2 d) by assumption.
Qed.

Lemma parse_hms_roundtrip (h mi s : Z) (rest : string) :
  0 <= h < 100 -> 0 <= mi < 100 -> 0 <= s < 100 ->
  parse_hh_mm_ss 2 (zpad 2 h +:+ ":" +:+ zpad 2 mi +:+ ":" +:+ zpad 2 s +:+ rest)
  = Some ([h; mi; s], rest).
Proof.
  intros Hh Hmi Hs. cbv [zpad String.append].
  change ((fix append (s1 s2 : string) {struct s1} : string :=
             match s1 with
             | EmptyString => s2
             | String c s1' => String c (append s1' s2)
             end) EmptyString rest) with rest.
  destruct rest as [|c rest];
    cbn [parse_hh_mm_ss substring str_drop parse_digits String.length Nat.eqb
         parse_digits_from];
    digits_step;
    now rewrite (digits2 h), (digits2 mi), (digits2 s) by assumption.
Qed.

Lemma parse_ff_whole (tstr : string) (h mi s : Z) :
  parse_hh_mm_ss 2 tstr = Some ([h; mi; s], EmptyString) ->
  parse_hh_mm_ss_ff tstr = Some (h, mi, s, 0).
Proof. intros H. unfold parse_hh_mm_ss_ff. now rewrite H. Qed.

Lemma parse_ff_micros (tstr : string) (h mi s us : Z) :
  0 <= us < 1000000 ->
  parse_hh_mm_ss 2 tstr = Some ([h; mi; s], "." +:+ zpad 6 us) ->
  parse_hh_mm_ss_ff tstr = Some (h, mi, s, us).
Proof.
  intros Hus H. unfold parse_hh_mm_ss_ff. rewrite H.
  cbv [zpad String.append].
  cbn [mbind option_bind nth Ascii.eqb Bool.eqb andb String.length parse_digits
       Nat.eqb parse_digits_from].
  digits_step.
  now rewrite (digits6 us) by assumption.
Qed.

Lemma parse_time_roundtrip (h mi s : Z) :
  0 <= h < 100 -> 0 <= mi < 100 -> 0 <= s < 100 ->
  parse_isoformat_time
    (zpad 2 h +:+ ":" +:+ zpad 2 mi +:+ ":" +:+ zpad 2 s +:+ "+00:00")
  = Some (h, mi, s, 0, Some 0).
Proof.
  intros Hh Hmi Hs.
  pose proof (parse_ff_whole _ h mi s (parse_hms_roundtrip h mi s "" Hh Hmi Hs))
    as Hhms.
  revert Hhms. cbv [zpad String.append]. intros Hhms.
  unfold parse_isoformat_time, find_tz. cbn [str_find].
  digits_step.
  cbn [Nat.sub substring str_drop String.length Nat.eqb negb orb].
  rewrite Hhms.
  change (parse_hh_mm_ss_ff "00:00") with (Some (0, 0, 0, 0)).
  cbn [mbind option_bind String.get is_char Ascii.eqb Bool.eqb andb].
  reflexivity.
Qed.

Lemma parse_time_frac_roundtrip (h mi s us : Z) :
  0 <= h < 100 -> 0 <= mi < 100 -> 0 <= s < 100 -> 0 <= us < 1000000 ->
  parse_isoformat_time
    (zpad 2 h +:+ ":" +:+ zpad 2 mi +:+ ":" +:+ zpad 2 s +:+ "."
     +:+ zpad 6 us +:+ "+00:00")
  = Some (h, mi, s, us, Some 0).
Proof.
  intros Hh Hmi Hs Hus.
  pose proof (parse_ff_micros _ h mi s us Hus
                (parse_hms_roundtrip h mi s ("." +:+ zpad 6 us) Hh Hmi Hs))
    as Hhms.
  revert Hhms. cbv [zpad String.append]. intros Hhms.
  unfold parse_isoformat_time, find_tz. cbn [str_find].
  digits_step.
  cbn [Nat.sub substring str_drop String.length Nat.eqb negb orb].
  rewrite Hhms.
  change (parse_hh_mm_ss_ff "00:00") with (Some (0, 0, 0, 0)).
  cbn [mbind option_bind String.get is_char Ascii.eqb Bool.eqb andb].
  reflexivity.
Qed.

(** A timestamp written by [isoformat] with the Z suffix reads back as the
    same date-time, with offset zero. *)
Lemma isoformat_roundtrip (t : datetime) :
  valid t = true ->
  fromisoformat (str_replace "Z" "+00:00" (isoformat t +:+ "Z")) = Ok (t, Some 0).
Proof.
  intros Hv. pose proof (valid_bounds t Hv) as (Hy & Hm & Hd & Hh & Hmi & Hs & Hus).
  assert (Hrep : str_replace "Z" "+00:00" (isoformat t +:+ "Z")
                 = isoformat t +:+ "+00:00").
  { unfold isoformat. rewrite !str_replace_app, !str_replace_zpad.
    destruct (microsecond t =? 0); [reflexivity|].
    rewrite !str_replace_app, !str_replace_zpad. reflexivity. }
  rewrite Hrep. clear Hrep.
  pose proof (parse_date_roundtrip _ _ _ Hy Hm Hd) as Hdate.
  unfold isoformat.
  destruct (microsecond t =? 0) eqn:Hus0.
  - pose proof (parse_time_roundtrip _ _ _ Hh Hmi Hs) as Htime.
    revert Hdate Htime. cbv [zpad String.append]. intros Hdate Htime.
    unfold fromisoformat.
    match goal with |- context [Raise ?e] =>
      generalize (@Raise (datetime * option Z) e) end.
    intros invalid.
    cbn [substring str_drop String.length Nat.ltb Nat.leb].
    rewrite Hdate, Htime.
    apply Z.eqb_eq in Hus0. destruct t as [y m d h mi s us].
    cbn [year month day hour minute second microsecond] in *.
    subst us. now rewrite Hv.
  - pose proof (parse_time_frac_roundtrip _ _ _ _ Hh Hmi Hs Hus) as Htime.
    revert Hdate Htime. cbv [zpad String.append]. intros Hdate Htime.
    unfold fromisoformat.
    match goal with |- context [Raise ?e] =>
      generalize (@Raise (datetime * option Z) e) end.
    intros invalid.
    cbn [substring str_drop String.length Nat.ltb Nat.leb].
    rewrite Hdate, Htime.
    destruct t as [y m d h mi s us].
    cbn [year month day hour minute second microsecond] in *.
    now rewrite Hv.
Qed.
End Roundtrip.

(** ** The chain validator: the checks on one block *)

Section CheckBlock.
Import Chain Spec.

Lemma py_eq_true (v w : pyval) : py_eq v w = true <-> v = w.
Proof. unfold py_eq. apply bool_decide_eq_true. Qed.

Lemma py_eq_false (v w : pyval) : py_eq v w = false <-> v <> w.
Proof. unfold py_eq. apply bool_decide_eq_false. Qed.

Lemma py_eq_refl (v : pyval) : py_eq v v = true.
Proof. now apply py_eq_true. Qed.

Lemma check_block_link_mismatch (c p : block) (v : pyval) :
  c !! "previous_hash" = Some v -> v <> resolve_block_hash p ->
  check_block c p = Ok false.
Proof.
  intros Hv Hne. unfold check_block, getitem. rewrite Hv. rsimpl.
  apply py_eq_false in Hne. now rewrite Hne.
Qed.

Lemma check_block_hash_mismatch (c p : block) (stored : pyval) (h : string) :
  c !! "previous_hash" = Some (resolve_block_hash p) ->
  c !! "block_hash" = Some stored ->
  calculate_block_header_hash c = Ok h -> stored <> PStr h ->
  check_block c p = Ok false.
Proof.
  intros Hv Hs Hh Hne. unfold check_block, getitem, contains.
  rewrite Hv, Hs, Hh. rsimpl. rewrite py_eq_refl. rsimpl.
  apply py_eq_false in Hne. now rewrite Hne.
Qed.

Lemma check_block_times (c p : block) :
  c !! "previous_hash" = Some (resolve_block_hash p) -> hash_intact c ->
  check_block c p
  = (current_time ← block_time c;
     previous_time ← block_time p;
     Ok (negb (Datetime.lt current_time previous_time))).
Proof.
  intros Hv Hh. unfold check_block, getitem, contains. rewrite Hv. rsimpl.
  rewrite py_eq_refl. rsimpl.
  assert (Hok : (if match c !! "block_hash" with Some _ => true | None => false end
                 then calculated_hash ← calculate_block_header_hash c;
                      block_hash ← match c !! "block_hash" with
                                   | Some v => Ok v
                                   | None => Raise (KeyError "block_hash")
                                   end;
                      Ok (py_eq block_hash (PStr calculated_hash))
                 else Ok true) = Ok true).
  { destruct Hh as [Hn|(h & Hc & Hs)].
    - now rewrite Hn.
    - rewrite Hs, Hc. rsimpl. now rewrite py_eq_refl. }
  rewrite Hok. rsimpl.
  destruct (block_time c) as [tc|e]; rsimpl; [|reflexivity].
  destruct (block_time p) as [tp|e]; rsimpl; [|reflexivity].
  now destruct (Datetime.lt tc tp).
Qed.

Lemma check_block_time_decrease (c p : block) (tc tp : Datetime.datetime) :
  c !! "previous_hash" = Some (resolve_block_hash p) -> hash_intact c ->
  block_time c = Ok tc -> block_time p = Ok tp ->
  Datetime.to_micros tc < Datetime.to_micros tp ->
  check_block c p = Ok false.
Proof.
  intros Hv Hh Hc Hp Hlt. rewrite check_block_times by assumption.
  rewrite Hc, Hp. rsimpl. unfold Datetime.lt.
  apply Z.ltb_lt in Hlt. now rewrite Hlt.
Qed.

Lemma check_block_pass (c p : block) (tc tp : Datetime.datetime) :
  c !! "previous_hash" = Some (resolve_block_hash p) -> hash_intact c ->
  block_time c = Ok tc -> block_time p = Ok tp ->
  Datetime.to_micros tp <= Datetime.to_micros tc ->
  check_block c p = Ok true.
Proof.
  intros Hv Hh Hc Hp Hle. rewrite check_block_times by assumption.
  rewrite Hc, Hp. rsimpl. unfold Datetime.lt.
  apply Z.ltb_ge in Hle. now rewrite Hle.
Qed.

Lemma check_block_pass_inv (c p : block) :
  check_block c p = Ok true ->
  c !! "previous_hash" = Some (resolve_block_hash p)
  /\ hash_intact c
  /\ exists tc tp, block_time c = Ok tc /\ block_time p = Ok tp
                   /\ Datetime.to_micros tp <= Datetime.to_micros tc.
Proof.
  unfold check_block, getitem, contains, hash_intact.
  destruct (c !! "previous_hash") as [v|] eqn:Hv; rsimpl; [|discriminate].
  destruct (py_eq v (resolve_block_hash p)) eqn:Heq; rsimpl; [|discriminate].
  apply py_eq_true in Heq. subst v.
  destruct (c !! "block_hash") as [stored|] eqn:Hs.
  - destruct (calculate_block_header_hash c) as [h|e]; rsimpl; [|discriminate].
    destruct (py_eq stored (PStr h)) eqn:Hsh; rsimpl; [|discriminate].
    apply py_eq_true in Hsh. subst stored.
    destruct (block_time c) as [tc|e]; rsimpl; [|discriminate].
    destruct (block_time p) as [tp|e]; rsimpl; [|discriminate].
    unfold Datetime.lt. destruct (Z.ltb_spec (Datetime.to_micros tc)
                                    (Datetime.to_micros tp)); [discriminate|].
    intros _. split; [reflexivity|]. split; [right; now exists h|].
    now exists tc, tp.
  - rsimpl.
    destruct (block_time c) as [tc|e]; rsimpl; [|discriminate].
    destruct (block_time p) as [tp|e]; rsimpl; [|discriminate].
    unfold Datetime.lt. destruct (Z.ltb_spec (Datetime.to_micros tc)
                                    (Datetime.to_micros tp)); [discriminate|].
    intros _. split; [reflexivity|]. split; [now left|].
    now exists tc, tp.
Qed.

Lemma block_time_timestamp (b : block) (t : Datetime.datetime) :
  block_time b = Ok t -> is_Some (b !! "timestamp").
Proof.
  unfold block_time, getitem.
  destruct (b !! "timestamp"); [eauto | discriminate].
Qed.

Lemma calculate_block_header_hash_total (b : block) :
  is_Some (b !! "index") -> is_Some (b !! "previous_hash") ->
  is_Some (b !! "timestamp") ->
  exists h, calculate_block_header_hash b = Ok h.
Proof.
  intros [i Hi] [p Hp] [t Ht].
  unfold calculate_block_header_hash, block_header, getitem.
  rewrite Hi, Hp, Ht. rsimpl. eauto.
Qed.

(** On well-formed blocks the loop body returns a verdict. *)
Lemma check_block_total (c p : block) :
  well_formed c -> well_formed p -> exists ok, check_block c p = Ok ok.
Proof.
  intros (Hi & [v Hv] & tc & Htc) (_ & _ & tp & Htp).
  destruct (calculate_block_header_hash_total c Hi ltac:(eauto)
              (block_time_timestamp c tc Htc)) as [h Hh].
  unfold check_block, getitem, contains. rewrite Hv, Hh, Htc, Htp. rsimpl.
  destruct (py_eq v (resolve_block_hash p)); rsimpl; [|eauto].
  destruct (c !! "block_hash") as [stored|]; rsimpl.
  - destruct (py_eq stored (PStr h)); rsimpl; [|eauto].
    destruct (Datetime.lt tc tp); eauto.
  - destruct (Datetime.lt tc tp); eauto.
Qed.

Lemma genesis_check_total (first : block) :
  well_formed first -> exists g, genesis_check first = Ok g.
Proof.
  intros ([i Hi] & [v Hv] & _). unfold genesis_check, getitem.
  rewrite Hi, Hv. rsimpl. destruct (py_eq i (PInt 0)); rsimpl; eauto.
Qed.

End CheckBlock.

(** ** The chain validator: verdicts *)

Section Verdicts.
Import Chain Spec.

Lemma valid_prefix (log : list block) (i : nat) :
  (1 <= i <= length log)%nat ->
  validate_blockchain (take i log) = Ok (true, None) <-> valid_before log i.
Proof.
  intros Hi.
  assert (Hlen : length (take i log) = i) by (rewrite length_take; lia).
  rewrite validate_blockchain_valid.
  - rewrite Hlen. apply valid_before_take. lia.
  - intros Hnil. rewrite Hnil in Hlen. cbn in Hlen. lia.
Qed.

Lemma valid_before_weaken (log : list block) (i k : nat) :
  (i <= k)%nat -> valid_before log k -> valid_before log i.
Proof. intros Hik [Hg Hp]. split; [exact Hg|]. intros j Hj. apply Hp. lia. Qed.

(** The first index whose link check fails is the reported index. *)
Lemma first_link_mismatch_reported (log : list block) (i : nat) (c p : block)
    (v : pyval) :
  (1 <= i)%nat -> validate_blockchain (take i log) = Ok (true, None) ->
  log !! i = Some c -> log !! (i - 1)%nat = Some p ->
  c !! "previous_hash" = Some v -> v <> resolve_block_hash p ->
  validate_blockchain log = Ok (false, Some i).
Proof.
  intros Hi Hpre Hc Hp Hv Hne.
  pose proof (lookup_lt_Some _ _ _ Hc) as Hlen.
  apply valid_prefix in Hpre; [|lia].
  rewrite (validate_blockchain_at log i c p Hpre Hi Hc Hp).
  now rewrite (check_block_link_mismatch c p v Hv Hne).
Qed.

Lemma validate_from_total (log : list block) (todo i : nat) :
  Forall well_formed log -> (1 <= i)%nat -> (i + todo <= length log)%nat ->
  exists v, validate_from log i todo = Ok v.
Proof.
  intros Hwf. revert i. induction todo as [|todo IH]; intros i Hi Hlen.
  - cbn. eauto.
  - destruct (lookup_lt_is_Some_2 log i ltac:(lia)) as [c Hc].
    destruct (lookup_lt_is_Some_2 log (i - 1) ltac:(lia)) as [p Hp].
    rewrite (validate_from_step log i todo c p Hc Hp).
    rewrite Forall_lookup in Hwf.
    destruct (check_block_total c p (Hwf _ _ Hc) (Hwf _ _ Hp)) as [[|] Hok];
      rewrite Hok; rsimpl; [|eauto].
    apply IH; lia.
Qed.

Lemma resolve_block_hash_spec (p : block) :
  resolve_block_hash p = resolved_header_hash p.
Proof.
  unfold resolve_block_hash, resolved_header_hash, get.
  destruct (p !! "block_hash") as [v|]; cbn [default truthy negb];
    [destruct (truthy v); cbn [negb]|];
    now destruct (p !! "hash"), (p !! "current_hash").
Qed.

Lemma fromisoformat_raises (s : string) (e : exn) :
  Datetime.fromisoformat s = Raise e -> exists m, e = ValueError m.
Proof.
  unfold Datetime.fromisoformat.
  destruct (Datetime.parse_isoformat_date _) as [[[y m] d]|];
    [|intros [= <-]; eauto].
  destruct (if Nat.ltb 10 (String.length s) then _ else _)
    as [[[[[h mi] sec] us] tz]|]; [|intros [= <-]; eauto].
  destruct (Datetime.valid _); [discriminate|].
  intros [= <-]. eauto.
Qed.

(** The exceptions of reading a timestamp: the key is missing, the value
    is no string, or the string is no date-time. *)
Lemma block_time_raises (b : block) (e : exn) :
  block_time b = Raise e ->
  (b !! "timestamp" = None /\ e = KeyError "timestamp")
  \/ (exists v m, b !! "timestamp" = Some v /\ (forall s, v <> PStr s)
                  /\ e = AttributeError m)
  \/ (exists s m, b !! "timestamp" = Some (PStr s) /\ e = ValueError m).
Proof.
  unfold block_time, getitem.
  destruct (b !! "timestamp") as [[| z | s]|]; rsimpl; cbn [replace]; rsimpl.
  - intros [= <-]. right. left. eexists _, _. now repeat split.
  - intros [= <-]. right. left. eexists _, _. now repeat split.
  - destruct (Datetime.fromisoformat _) as [r|e'] eqn:Hf; rsimpl; [discriminate|].
    intros [= <-]. destruct (fromisoformat_raises _ _ Hf) as [m ->].
    right. right. eauto.
  - intros [= <-]. now left.
Qed.

(** C2 (amended). [validate_blockchain] is total on well-formed chains
    only.  For every chain whose blocks all carry an index, a previous_hash
    and a timestamp string that [fromisoformat] accepts, it raises no
    exception: it returns [(True, None)] or [(False, k)] for an index [k]
    of the chain.  It raises when it reaches a timestamp it cannot read: if
    the chain cut before index [i >= 1] is valid, block [i] has the
    previous_hash the validator expects (the predecessor's block_hash when
    not empty, else its hash, else its current_hash, else [None]) and a
    stored block_hash that is absent or correct, and the timestamp of
    block [i], or, that one being readable, of block [i - 1], is missing,
    no string, or no date-time for [fromisoformat], then the [KeyError],
    [AttributeError] or [ValueError] of that timestamp is raised. *)
Theorem validate_blockchain_total_on_well_formed :
  (forall log : list block,
      Forall well_formed log ->
      exists v, validate_blockchain log = Ok v
                /\ (v = (true, None)
                    \/ exists k, v = (false, Some k) /\ (k < length log)%nat))
  /\ (forall (log : list block) (i : nat) (c p : block) (e : exn),
        (1 <= i)%nat -> validate_blockchain (take i log) = Ok (true, None) ->
        log !! i = Some c -> log !! (i - 1)%nat = Some p ->
        c !! "previous_hash" = Some (resolved_header_hash p) ->
        hash_intact c ->
        block_time c = Raise e
        \/ ((exists tc, block_time c = Ok tc) /\ block_time p = Raise e) ->
        validate_blockchain log = Raise e
        /\ (e = KeyError "timestamp"
            \/ (exists m, e = AttributeError m)
            \/ (exists m, e = ValueError m))).
Proof.
  split.
  - intros log Hwf. destruct log as [|first rest].
    + exists (true, None). split; [reflexivity | now left].
    + rewrite validate_blockchain_cons.
      destruct (genesis_check_total first) as [[|] Hg].
      { now apply Forall_cons in Hwf. }
      * rewrite Hg. rsimpl.
        destruct (validate_from_total (first :: rest) (length rest) 1 Hwf)
          as [v Hv]; [lia | cbn [length]; lia |].
        exists v. split; [exact Hv|].
        destruct (validate_from_verdict _ _ _ _ Hv) as [[-> _]|(k & -> & Hk & _)].
        -- now left.
        -- right. exists k. split; [reflexivity | cbn [length]; lia].
      * rewrite Hg. rsimpl. exists (false, Some 0%nat).
        split; [reflexivity|]. right. exists 0%nat.
        split; [reflexivity | cbn [length]; lia].
  - intros log i c p e Hi Hpre Hc Hp Hlink Hhash Htime.
    pose proof (lookup_lt_Some _ _ _ Hc) as Hlen.
    apply valid_prefix in Hpre; [|lia].
    rewrite <- resolve_block_hash_spec in Hlink.
    rewrite (validate_blockchain_at log i c p Hpre Hi Hc Hp).
    rewrite (check_block_times c p Hlink Hhash).
    destruct Htime as [Hraise|[[tc Htc] Hraise]].
    + rewrite Hraise. rsimpl. split; [reflexivity|].
      destruct (block_time_raises c e Hraise)
        as [[_ ->]|[(v & m & _ & _ & ->)|(s & m & _ & ->)]]; eauto.
    + rewrite Htc, Hraise. rsimpl. split; [reflexivity|].
      destruct (block_time_raises p e Hraise)
        as [[_ ->]|[(v & m & _ & _ & ->)|(s & m & _ & ->)]]; eauto.
Qed.

Lemma initial_log_well_formed : Forall well_formed initial_log.
Proof.
  repeat constructor.
  - now exists (PInt 0).
  - now exists (PStr ZERO_HASH).
  - now exists (Datetime.Datetime 2023 1 1 0 0 0 0).
Defined.

Lemma chain_three_well_formed : Forall well_formed chain_three.
Proof.
  apply Forall_app. split; [exact initial_log_well_formed|].
  repeat constructor.
  - eexists. vm_compute. reflexivity.
  - eexists. vm_compute. reflexivity.
  - exists (Datetime.Datetime 2024 1 1 0 0 0 0). vm_compute. reflexivity.
  - eexists. vm_compute. reflexivity.
  - eexists. vm_compute. reflexivity.
  - exists (Datetime.Datetime 2024 1 1 0 0 1 0). vm_compute. reflexivity.
Defined.

Lemma validate_blockchain_total_witness :
  (exists v, validate_blockchain chain_three = Ok v
             /\ (v = (true, None)
                 \/ exists k, v = (false, Some k)
                              /\ (k < length chain_three)%nat))
  /\ validate_blockchain chain_bad_timestamp
     = Raise (ValueError "Invalid isoformat string: 'not-a-timestamp'").
Proof.
  split.
  - apply (proj1 validate_blockchain_total_on_well_formed chain_three).
    exact chain_three_well_formed.
  - refine (proj1 (proj2 validate_blockchain_total_on_well_formed
                     chain_bad_timestamp 1%nat
                     _ _
                     (ValueError "Invalid isoformat string: 'not-a-timestamp'")
                     _ _ _ _ _ _ _)).
    + lia.
    + vm_compute. reflexivity.
    + reflexivity.
    + reflexivity.
    + vm_compute. reflexivity.
    + right. eexists. split; vm_compute; reflexivity.
    + left. vm_compute. reflexivity.
Defined.

(** C2 as stated fails: a block with a timestamp that is not a date makes
    the validator raise [ValueError], and a block without an index makes
    it raise [KeyError]. *)
Lemma validate_blockchain_raises :
  validate_blockchain chain_bad_timestamp
  = Raise (ValueError "Invalid isoformat string: 'not-a-timestamp'")
  /\ validate_blockchain [∅] = Raise (KeyError "index").
Proof. split; vm_compute; reflexivity. Qed.

End Verdicts.

Section TamperDetection.
Import Chain Spec.

Lemma hash_mismatch_not_passes (log : list block) (i : nat) (b : block)
    (stored : pyval) (h : string) :
  log !! i = Some b -> b !! "block_hash" = Some stored ->
  calculate_block_header_hash b = Ok h -> stored <> PStr h ->
  ~ passes log i.
Proof.
  intros Hb Hs Hh Hne (c & p & Hc & _ & Hok).
  assert (c = b) as -> by congruence.
  apply check_block_pass_inv in Hok as (_ & [Hnone|(h' & Hh' & Hs')] & _);
    congruence.
Qed.

Lemma validate_from_reports_failure (log : list block) (i : nat) :
  (forall j, (j <= i)%nat -> exists b, log !! j = Some b /\ well_formed b) ->
  ~ passes log i ->
  forall todo i0, (1 <= i0 <= i)%nat -> (i < i0 + todo)%nat ->
  exists k, (i0 <= k <= i)%nat /\ validate_from log i0 todo = Ok (false, Some k).
Proof.
  intros Hwf Hnot. induction todo as [|todo IH]; intros i0 Hi0 Hlt; [lia|].
  destruct (Hwf i0 ltac:(lia)) as (c & Hc & Hwc).
  destruct (Hwf (i0 - 1)%nat ltac:(lia)) as (p & Hp & Hwp).
  rewrite (validate_from_step log i0 todo c p Hc Hp).
  destruct (check_block_total c p Hwc Hwp) as [[|] Hok]; rewrite Hok; rsimpl.
  - destruct (decide (i0 = i)) as [->|Hne].
    + exfalso. apply Hnot. now exists c, p.
    + destruct (IH (S i0) ltac:(lia) ltac:(lia)) as (k & Hk & Hrun).
      exists k. split; [lia | exact Hrun].
  - exists i0. split; [lia | reflexivity].
Qed.

(** C3 (amended). If a block at an index [i >= 1] stores a block_hash that
    differs from the hash recomputed over its own fields, the validator
    never reports the chain valid; when the blocks up to [i] are
    well-formed it returns [(False, k)] for some [k <= i]. *)
Theorem stored_hash_mismatch_detected (log : list block) (i : nat) (b : block)
    (stored : pyval) (h : string) :
  (1 <= i)%nat -> log !! i = Some b ->
  b !! "block_hash" = Some stored ->
  calculate_block_header_hash b = Ok h -> stored <> PStr h ->
  validate_blockchain log <> Ok (true, None)
  /\ (Forall well_formed (take (S i) log) ->
      exists k, (k <= i)%nat /\ validate_blockchain log = Ok (false, Some k)).
Proof.
  intros Hi Hb Hs Hh Hne.
  pose proof (hash_mismatch_not_passes log i b stored h Hb Hs Hh Hne) as Hnot.
  pose proof (lookup_lt_Some _ _ _ Hb) as Hlen.
  split.
  - intros Hvalid. apply validate_blockchain_valid in Hvalid.
    + destruct Hvalid as [_ Hall]. apply Hnot, Hall. lia.
    + intros ->. discriminate.
  - intros Hwf.
    assert (Hwf' : forall j, (j <= i)%nat ->
                     exists c, log !! j = Some c /\ well_formed c).
    { intros j Hj. destruct (lookup_lt_is_Some_2 log j ltac:(lia)) as [c Hc].
      exists c. split; [exact Hc|].
      rewrite Forall_lookup in Hwf. apply (Hwf j).
      rewrite lookup_take_lt by lia. exact Hc. }
    destruct log as [|first rest]; [discriminate|].
    rewrite validate_blockchain_cons.
    destruct (Hwf' 0%nat ltac:(lia)) as (f & Hf & Hwff).
    cbn in Hf. injection Hf as <-.
    destruct (genesis_check_total first Hwff) as [[|] Hg]; rewrite Hg; rsimpl.
    + destruct (validate_from_reports_failure (first :: rest) i Hwf' Hnot
                  (length rest) 1%nat ltac:(lia))
        as (k & Hk & Hrun); [cbn [length] in Hlen; lia|].
      exists k. split; [lia | exact Hrun].
    + exists 0%nat. split; [lia | reflexivity].
Qed.

Lemma stored_hash_mismatch_witness :
  validate_blockchain chain_tampered_block <> Ok (true, None)
  /\ (Forall well_formed (take 2 chain_tampered_block) ->
      exists k, (k <= 1)%nat
                /\ validate_blockchain chain_tampered_block = Ok (false, Some k)).
Proof.
  apply (stored_hash_mismatch_detected chain_tampered_block 1
           (<["result" := PStr "cd"]> block_a)
           (PStr "1b54ddcb7f5c78828b24cc9a07e550d61ddf4593dada59fd314b0d7a22744a76")
           "353b7f08c63e8e1e7c1cdfed66618380bbb620bd520ee88c0ea54141a184f31c").
  - lia.
  - reflexivity.
  - vm_compute. reflexivity.
  - vm_compute. reflexivity.
  - discriminate.
Defined.

(** C3 as stated fails at index 0: the genesis block's filename is altered,
    its stored block_hash no longer matches the recomputation, and the
    chain is still reported valid. *)
Lemma genesis_tamper_undetected :
  (exists b stored h,
      chain_tampered_genesis !! 0%nat = Some b
      /\ b !! "block_hash" = Some stored
      /\ calculate_block_header_hash b = Ok h
      /\ stored <> PStr h)
  /\ validate_blockchain chain_tampered_genesis = Ok (true, None).
Proof.
  split.
  - eexists _, _, _. split; [reflexivity|].
    split; [vm_compute; reflexivity|].
    split; [vm_compute; reflexivity|]. discriminate.
  - vm_compute. reflexivity.
Qed.

End TamperDetection.

Section StoredHash.
Import Chain Spec.

Lemma str_app_nonempty (a b : string) : a <> EmptyString -> a +:+ b <> EmptyString.
Proof. destruct a; [congruence | discriminate]. Qed.

Lemma hex_word_nonempty (n : nat) (z : Z) : SHA256.hex_word (S n) z <> EmptyString.
Proof.
  cbn [SHA256.hex_word]. destruct (SHA256.hex_word n (z / 16)); discriminate.
Qed.

Lemma sha256_hex_nonempty (m : list byte) : SHA256.sha256_hex m <> EmptyString.
Proof.
  unfold SHA256.sha256_hex, SHA256.hex_of_regs.
  apply str_app_nonempty, hex_word_nonempty.
Qed.

Lemma header_hash_truthy (b : block) (h : string) :
  calculate_block_header_hash b = Ok h -> truthy (PStr h) = true.
Proof.
  rewrite calculate_block_header_hash_header.
  destruct (block_header b) as [s|e]; [|discriminate].
  intros [= <-]. cbn [truthy].
  destruct (String.eqb_spec (SHA256.sha256_hex (bytes_of_string s)) "")
    as [Heq|]; [|reflexivity].
  now apply sha256_hex_nonempty in Heq.
Qed.

Lemma resolve_block_hash_stored (p : block) (h : string) :
  calculate_block_header_hash p = Ok h -> p !! "block_hash" = Some (PStr h) ->
  resolve_block_hash p = PStr h.
Proof.
  intros Hh Hs. unfold resolve_block_hash, get. rewrite Hs.
  now rewrite (header_hash_truthy p h Hh).
Qed.

End StoredHash.

Section LinkAndTime.
Import Chain Spec.

(** C4 (amended).  In a chain the validator reports valid, replacing the
    previous_hash of the block at index 2 (or at any index [i >= 2]) whose
    predecessor stores its block_hash by a value different from the
    predecessor's header hash makes the validator return [(False, i)].  In
    any chain, the first index [i >= 1] at which previous_hash does not
    equal the predecessor's resolved header hash (its block_hash when not
    empty, else its hash, else its current_hash, else [None]) is returned,
    provided the chain cut before [i] is valid, that is, the blocks before
    [i] pass the stored-hash and timestamp checks as well. *)
Theorem previous_hash_tamper_reported :
  (forall (log : list block) (i : nat) (b p : block) (h : string) (v : pyval),
      validate_blockchain log = Ok (true, None) ->
      (2 <= i)%nat -> log !! i = Some b -> log !! (i - 1)%nat = Some p ->
      is_Some (p !! "block_hash") ->
      calculate_block_header_hash p = Ok h ->
      v <> PStr h ->
      validate_blockchain (<[i := <["previous_hash" := v]> b]> log)
      = Ok (false, Some i))
  /\ (forall (log : list block) (i : nat) (c p : block) (v : pyval),
        (1 <= i)%nat -> validate_blockchain (take i log) = Ok (true, None) ->
        log !! i = Some c -> log !! (i - 1)%nat = Some p ->
        c !! "previous_hash" = Some v -> v <> resolved_header_hash p ->
        validate_blockchain log = Ok (false, Some i)).
Proof.
  split.
  - intros log i b p h v Hvalid Hi Hb Hp Hstored Hh Hne.
    pose proof (lookup_lt_Some _ _ _ Hb) as Hlen.
    assert (Hall : valid_before log (length log)).
    { apply validate_blockchain_valid; [|exact Hvalid]. intros ->. discriminate. }
    assert (Hres : resolve_block_hash p = PStr h).
    { destruct Hall as [_ Hall].
      destruct (Hall (i - 1)%nat ltac:(lia)) as (c' & q' & Hc' & _ & Hok).
      assert (c' = p) as -> by congruence.
      apply check_block_pass_inv in Hok as (_ & [Hnone|(h' & Hh' & Hs')] & _).
      - rewrite Hnone in Hstored. now destruct Hstored.
      - assert (h' = h) as -> by congruence.
        now apply resolve_block_hash_stored. }
    apply (first_link_mismatch_reported _ i (<["previous_hash" := v]> b) p v);
      [lia | | | | |].
    + rewrite take_insert_ge by lia.
      apply valid_prefix; [lia|].
      now apply (valid_before_weaken log i (length log)); [lia|].
    + now apply list_lookup_insert_eq.
    + rewrite list_lookup_insert_ne by lia. exact Hp.
    + apply lookup_insert_eq.
    + now rewrite Hres.
  - intros log i c p v Hi Hpre Hc Hp Hv Hne.
    apply (first_link_mismatch_reported log i c p v); try assumption.
    now rewrite resolve_block_hash_spec.
Qed.

Lemma previous_hash_tamper_witness :
  validate_blockchain
    (<[2%nat := <["previous_hash" := PStr "forged"]>
                  (block_b "2024-01-01T00:00:01Z")]> chain_three)
  = Ok (false, Some 2%nat)
  /\ validate_blockchain
       (<[1%nat := <["previous_hash" := PStr "forged"]> block_a]> chain_three)
     = Ok (false, Some 1%nat).
Proof.
  split.
  - refine (proj1 previous_hash_tamper_reported chain_three 2%nat
              (block_b "2024-01-01T00:00:01Z") block_a _ (PStr "forged")
              _ _ _ _ _ _ _).
    + vm_compute. reflexivity.
    + lia.
    + reflexivity.
    + reflexivity.
    + eexists. vm_compute. reflexivity.
    + vm_compute. reflexivity.
    + vm_compute. discriminate.
  - refine (proj2 previous_hash_tamper_reported
              (<[1%nat := <["previous_hash" := PStr "forged"]> block_a]>
                 chain_three)
              1%nat _ _ (PStr "forged") _ _ _ _ _ _).
    + lia.
    + vm_compute. reflexivity.
    + reflexivity.
    + reflexivity.
    + vm_compute. reflexivity.
    + vm_compute. discriminate.
Defined.

(** C4 as stated fails: in [chain_decrease_then_forged] the previous_hash
    of block 1 is the resolved header hash of the genesis block and that
    of block 2 is not the one of block 1, so the first index whose link is
    broken is 2; yet the validator returns [(False, 1)], because block 1
    is dated before the genesis block. *)
Lemma first_broken_link_not_reported :
  exists b0 b1 b2,
    chain_decrease_then_forged = [b0; b1; b2]
    /\ b1 !! "previous_hash" = Some (resolved_header_hash b0)
    /\ b2 !! "previous_hash" <> Some (resolved_header_hash b1)
    /\ validate_blockchain chain_decrease_then_forged = Ok (false, Some 1%nat).
Proof.
  eexists _, _, _.
  split; [reflexivity|].
  split; [vm_compute; reflexivity|].
  split; [vm_compute; discriminate|].
  vm_compute. reflexivity.
Qed.

(** C5 (amended). If the blocks before index [i >= 1] pass all the checks of
    the validator (the chain cut before [i] is reported valid), and block
    [i] has an intact link and an intact or absent stored header hash but a
    timestamp strictly earlier than that of block [i - 1], the validator
    returns [(False, i)]. *)
Theorem timestamp_decrease_reported (log : list block) (i : nat)
    (c p : block) (tc tp : Datetime.datetime) :
  (1 <= i)%nat -> validate_blockchain (take i log) = Ok (true, None) ->
  log !! i = Some c -> log !! (i - 1)%nat = Some p ->
  c !! "previous_hash" = Some (resolve_block_hash p) -> hash_intact c ->
  block_time c = Ok tc -> block_time p = Ok tp ->
  Datetime.to_micros tc < Datetime.to_micros tp ->
  validate_blockchain log = Ok (false, Some i).
Proof.
  intros Hi Hpre Hc Hp Hlink Hhash Htc Htp Hlt.
  pose proof (lookup_lt_Some _ _ _ Hc) as Hlen.
  apply valid_prefix in Hpre; [|lia].
  rewrite (validate_blockchain_at log i c p Hpre Hi Hc Hp).
  now rewrite (check_block_time_decrease c p tc tp).
Qed.

Lemma timestamp_decrease_witness :
  validate_blockchain chain_one_decrease = Ok (false, Some 2%nat).
Proof.
  apply (timestamp_decrease_reported chain_one_decrease 2
           (block_b "2023-06-01T00:00:00Z") block_a
           (Datetime.Datetime 2023 6 1 0 0 0 0)
           (Datetime.Datetime 2024 1 1 0 0 0 0)).
  - lia.
  - vm_compute. reflexivity.
  - reflexivity.
  - reflexivity.
  - vm_compute. reflexivity.
  - right. eexists. split; vm_compute; reflexivity.
  - vm_compute. reflexivity.
  - vm_compute. reflexivity.
  - vm_compute. reflexivity.
Defined.

(** C5 as stated fails: in [chain_two_decreases] every link and every
    stored header hash is intact and the timestamp of block 2 is earlier
    than that of block 1, yet the validator returns [(False, 1)], because
    the timestamp of block 1 is already earlier than that of block 0. *)
Lemma timestamp_decrease_not_at_2 :
  exists b0 b1 b2 t1 t2,
    chain_two_decreases = [b0; b1; b2]
    /\ b1 !! "previous_hash" = Some (resolve_block_hash b0)
    /\ b2 !! "previous_hash" = Some (resolve_block_hash b1)
    /\ hash_intact b0 /\ hash_intact b1 /\ hash_intact b2
    /\ block_time b1 = Ok t1 /\ block_time b2 = Ok t2
    /\ Datetime.to_micros t2 < Datetime.to_micros t1
    /\ validate_blockchain chain_two_decreases = Ok (false, Some 1%nat).
Proof.
  eexists _, _, _, _, _.
  split; [reflexivity|].
  split; [vm_compute; reflexivity|].
  split; [vm_compute; reflexivity|].
  split; [right; eexists; split; vm_compute; reflexivity|].
  split; [right; eexists; split; vm_compute; reflexivity|].
  split; [right; eexists; split; vm_compute; reflexivity|].
  split; [vm_compute; reflexivity|].
  split; [vm_compute; reflexivity|].
  split; vm_compute; reflexivity.
Qed.

End LinkAndTime.

(** ** Fields outside the header do not influence hashing or validation *)

Section ExtraFields.
Import Chain Spec.

Lemma agree_on_lookup (keys : list string) (b1 b2 : block) (k : string) :
  agree_on keys b1 b2 -> k ∈ keys -> b1 !! k = b2 !! k.
Proof. unfold agree_on. rewrite Forall_forall. auto. Qed.

Lemma agree_on_header (b1 b2 : block) :
  agree_on validator_fields b1 b2 -> agree_on header_fields b1 b2.
Proof. unfold agree_on, validator_fields. now intros H%Forall_cons. Qed.

Lemma block_time_agree (b1 b2 : block) :
  agree_on validator_fields b1 b2 -> block_time b1 = block_time b2.
Proof.
  intros H. unfold block_time, getitem.
  rewrite (agree_on_lookup _ _ _ "timestamp" H); [reflexivity|].
  unfold validator_fields, header_fields. set_solver.
Qed.

Lemma resolve_block_hash_agree (p1 p2 : block) :
  agree_on validator_fields p1 p2 ->
  truthy (get p1 "block_hash" PNone) = true ->
  resolve_block_hash p1 = resolve_block_hash p2.
Proof.
  intros H Ht. unfold resolve_block_hash.
  assert (Hg : get p2 "block_hash" PNone = get p1 "block_hash" PNone).
  { unfold get. rewrite (agree_on_lookup _ _ _ "block_hash" H); [reflexivity|].
    unfold validator_fields. set_solver. }
  rewrite Hg, Ht. reflexivity.
Qed.

Lemma check_block_agree (c1 c2 p1 p2 : block) :
  agree_on validator_fields c1 c2 -> agree_on validator_fields p1 p2 ->
  truthy (get p1 "block_hash" PNone) = true ->
  check_block c1 p1 = check_block c2 p2.
Proof.
  intros Hc Hp Ht. unfold check_block, getitem, contains.
  rewrite (resolve_block_hash_agree p1 p2 Hp Ht).
  rewrite (hash_agree c1 c2 (agree_on_header _ _ Hc)).
  rewrite (block_time_agree c1 c2 Hc), (block_time_agree p1 p2 Hp).
  rewrite (agree_on_lookup _ _ _ "previous_hash" Hc)
    by (unfold validator_fields, header_fields; set_solver).
  rewrite (agree_on_lookup _ _ _ "block_hash" Hc)
    by (unfold validator_fields; set_solver).
  reflexivity.
Qed.

Lemma validate_from_agree (log1 log2 : list block) (todo i : nat) :
  Forall2 (agree_on validator_fields) log1 log2 ->
  Forall (fun b => truthy (get b "block_hash" PNone) = true) log1 ->
  validate_from log1 i todo = validate_from log2 i todo.
Proof.
  intros Hag Ht. revert i. induction todo as [|todo IH]; intros i; [reflexivity|].
  cbn [validate_from]. unfold log_getitem.
  destruct (log1 !! i) as [c1|] eqn:Hc1.
  - destruct (Forall2_lookup_l _ _ _ _ _ Hag Hc1) as (c2 & Hc2 & Hc).
    rewrite Hc2. rsimpl.
    destruct (log1 !! (i - 1)%nat) as [p1|] eqn:Hp1.
    + destruct (Forall2_lookup_l _ _ _ _ _ Hag Hp1) as (p2 & Hp2 & Hp).
      rewrite Hp2. rsimpl.
      rewrite Forall_lookup in Ht.
      rewrite (check_block_agree c1 c2 p1 p2 Hc Hp (Ht _ _ Hp1)).
      destruct (check_block c2 p2) as [[|]|e]; rsimpl; auto.
    + assert (log2 !! (i - 1)%nat = None) as ->; [|reflexivity].
      apply lookup_ge_None. apply lookup_ge_None in Hp1.
      now rewrite <- (Forall2_length _ _ _ Hag).
  - assert (log2 !! i = None) as ->; [|reflexivity].
    apply lookup_ge_None. apply lookup_ge_None in Hc1.
    now rewrite <- (Forall2_length _ _ _ Hag).
Qed.

(** C10. The header hash depends only on the six header fields: two blocks
    that agree on them get the same result from
    [calculate_block_header_hash], whatever else they carry.  The keys
    hash, stored_hash and current_hash of appended blocks are not among
    the fields read, and on chains whose blocks carry a non-empty
    block_hash the verdict of the validator depends only on the header
    fields and block_hash. *)
Theorem extra_fields_do_not_influence :
  (forall b1 b2 : block,
      agree_on header_fields b1 b2 ->
      calculate_block_header_hash b1 = calculate_block_header_hash b2)
  /\ (forall (b : block) (k : string) (v : pyval),
        k ∈ extra_fields ->
        agree_on validator_fields (<[k := v]> b) b
        /\ calculate_block_header_hash (<[k := v]> b)
           = calculate_block_header_hash b)
  /\ (forall log1 log2 : list block,
        Forall2 (agree_on validator_fields) log1 log2 ->
        Forall (fun b => truthy (get b "block_hash" PNone) = true) log1 ->
        validate_blockchain log1 = validate_blockchain log2).
Proof.
  split; [exact hash_agree|]. split.
  - intros b k v Hk.
    assert (Hag : agree_on validator_fields (<[k := v]> b) b).
    { unfold extra_fields in Hk.
      rewrite !elem_of_cons, elem_of_nil in Hk.
      unfold agree_on, validator_fields, header_fields.
      destruct Hk as [->|[->|[->|[]]]].
      all: repeat (apply Forall_cons; split;
                   [apply lookup_insert_ne; discriminate|]).
      all: now apply Forall_nil. }
    split; [exact Hag|]. apply hash_agree, agree_on_header, Hag.
  - intros log1 log2 Hag Ht.
    destruct Hag as [|first1 first2 rest1 rest2 Hfirst Hrest]; [reflexivity|].
    rewrite !validate_blockchain_cons.
    assert (Hg : genesis_check first1 = genesis_check first2).
    { unfold genesis_check, getitem.
      rewrite (agree_on_lookup _ _ _ "index" Hfirst)
        by (unfold validator_fields, header_fields; set_solver).
      rewrite (agree_on_lookup _ _ _ "previous_hash" Hfirst)
        by (unfold validator_fields, header_fields; set_solver).
      reflexivity. }
    rewrite Hg, (Forall2_length _ _ _ Hrest).
    destruct (genesis_check first2) as [[|]|e]; rsimpl; try reflexivity.
    apply validate_from_agree; [now constructor | exact Ht].
Qed.

Lemma extra_fields_witness :
  calculate_block_header_hash (<["hash" := PStr "anything"]> block_a)
  = calculate_block_header_hash block_a.
Proof.
  apply (proj1 extra_fields_do_not_influence
           (<["hash" := PStr "anything"]> block_a) block_a).
  repeat (apply Forall_cons; split; [reflexivity|]). now apply Forall_nil.
Defined.

End ExtraFields.

(** ** The appending endpoints *)

Section Endpoints.
Import Chain Spec Api ApiSpec.

Lemma reraise_as_http_outcome {A : Type} (body : M A) (log log' : list block)
    (r : result A) :
  body log = (r, log') ->
  match r with
  | Ok a => reraise_as_http body log = (Ok a, log')
  | Raise _ => exists c d, reraise_as_http body log = (Raise (HTTPException c d), log')
  end.
Proof.
  intros H. unfold reraise_as_http. rewrite H.
  destruct r as [a|e]; [reflexivity|]. destruct e; eauto.
Qed.

Lemma make_timestamp_outcome (env : Env) (log : list block) :
  exists r, make_timestamp env log = (r, log)
    /\ forall ts, r = Ok ts ->
         ts = Datetime.isoformat (utcnow_timestamp env) +:+ "Z"
         /\ (Datetime.valid (utcnow_timestamp env) = true -> within_tolerance env).
Proof.
  unfold make_timestamp, mbind, M_bind, lift, raise, mret, M_ret.
  destruct (Datetime.valid (utcnow_timestamp env)) eqn:Hv.
  - rewrite (isoformat_roundtrip _ Hv). rsimpl.
    unfold Datetime.add_minutes_micros.
    destruct (_ >? Datetime.to_micros Datetime.MAX); [eexists; split; [reflexivity|discriminate]|].
    cbn [Datetime.replace_tzinfo_none fst].
    destruct (Z.gtb_spec (Datetime.to_micros (utcnow_timestamp env))
                (Datetime.to_micros (utcnow_check env) + 10 * 60 * 1000000)).
    + eexists; split; [reflexivity|discriminate].
    + eexists; split; [reflexivity|]. intros ts [= <-]. split; [reflexivity|].
      intros _. unfold within_tolerance. lia.
  - destruct (Datetime.fromisoformat _) as [p|e]; rsimpl;
      [|eexists; split; [reflexivity|discriminate]].
    destruct (Datetime.add_minutes_micros (utcnow_check env) 10) as [limit|e];
      [|eexists; split; [reflexivity|discriminate]].
    destruct (_ >? limit).
    + eexists; split; [reflexivity|discriminate].
    + eexists; split; [reflexivity|]. intros ts [= <-]. split; [reflexivity|].
      discriminate.
Qed.

Lemma sealed_block_hash (b : block) (h : string) :
  calculate_block_header_hash b = Ok h ->
  calculate_block_header_hash (<["block_hash" := PStr h]> b) = Ok h.
Proof.
  intros <-. apply hash_agree. unfold agree_on, header_fields.
  repeat (apply Forall_cons; split; [apply lookup_insert_ne; discriminate|]).
  now apply Forall_nil.
Qed.

Ltac step_result :=
  match goal with
  | |- context [match ?x with Ok _ => _ | Raise _ => _ end] =>
      destruct x eqn:?; [|left; eauto]
  end.

Lemma hash_file_outcome (env : Env) (file : UploadFile) (log : list block) :
  (exists c d, hash_file env file log = (Raise (HTTPException c d), log))
  \/ (exists resp b, hash_file env file log = (Ok resp, log ++ [b])
                     /\ appended log (utcnow_timestamp env) "HASH" b
                     /\ (Datetime.valid (utcnow_timestamp env) = true ->
                         within_tolerance env)).
Proof.
  unfold hash_file.
  match goal with |- context [reraise_as_http ?body] => set (body0 := body) end.
  assert (Hbody : (exists e, body0 log = (Raise e, log))
    \/ (exists resp b, body0 log = (Ok resp, log ++ [b])
                     /\ appended log (utcnow_timestamp env) "HASH" b
                     /\ (Datetime.valid (utcnow_timestamp env) = true ->
                         within_tolerance env))).
  { subst body0. unfold mbind, M_bind, lift, read_log, log_append, mret, M_ret.
    step_result. step_result. step_result.
    destruct (make_timestamp_outcome env log) as (r & -> & Hts).
    destruct r as [ts|e]; [|left; eauto].
    destruct (Hts ts eq_refl) as [-> Htol].
    match goal with
    | |- context [calculate_block_header_hash ?nb] =>
        destruct (calculate_block_header_hash nb) as [h|e] eqn:Hcalc;
          [|left; eauto]
    end.
    right. eexists _, _. split; [reflexivity|]. split; [|exact Htol].
    split; try reflexivity.
    exists h. split; [now apply sealed_block_hash | reflexivity]. }
  destruct Hbody as [(e & He)|(resp & b & Hrun & Happ)].
  - left. exact (reraise_as_http_outcome body0 log log (Raise e) He).
  - right. exists resp, b. split; [|exact Happ].
    exact (reraise_as_http_outcome body0 log _ (Ok resp) Hrun).
Qed.

Lemma verify_file_integrity_outcome (env : Env) (file : UploadFile)
    (stored_hash : string) (log : list block) :
  (exists c d, verify_file_integrity env file stored_hash log
               = (Raise (HTTPException c d), log))
  \/ (exists resp b, verify_file_integrity env file stored_hash log
                     = (Ok resp, log ++ [b])
                     /\ appended log (utcnow_timestamp env) "VERIFICATION" b
                     /\ (Datetime.valid (utcnow_timestamp env) = true ->
                         within_tolerance env)).
Proof.
  unfold verify_file_integrity.
  match goal with |- context [reraise_as_http ?body] => set (body0 := body) end.
  assert (Hbody : (exists e, body0 log = (Raise e, log))
    \/ (exists resp b, body0 log = (Ok resp, log ++ [b])
                     /\ appended log (utcnow_timestamp env) "VERIFICATION" b
                     /\ (Datetime.valid (utcnow_timestamp env) = true ->
                         within_tolerance env))).
  { subst body0.
    unfold mbind, M_bind, lift, read_log, log_append, raise, mret, M_ret.
    destruct (negb (truthy (PStr stored_hash))); [left; eauto|].
    step_result. step_result. step_result.
    destruct (make_timestamp_outcome env log) as (r & -> & Hts).
    destruct r as [ts|e]; [|left; eauto].
    destruct (Hts ts eq_refl) as [-> Htol].
    match goal with
    | |- context [calculate_block_header_hash ?nb] =>
        destruct (calculate_block_header_hash nb) as [h|e] eqn:Hcalc;
          [|left; eauto]
    end.
    right. eexists _, _. split; [reflexivity|]. split; [|exact Htol].
    split; try reflexivity.
    exists h. split; [now apply sealed_block_hash | reflexivity]. }
  destruct Hbody as [(e & He)|(resp & b & Hrun & Happ)].
  - left. exact (reraise_as_http_outcome body0 log log (Raise e) He).
  - right. exists resp, b. split; [|exact Happ].
    exact (reraise_as_http_outcome body0 log _ (Ok resp) Hrun).
Qed.

Lemma serve_outcome (r : request) (log : list block) :
  (exists c d, serve r log = (Raise (HTTPException c d), log))
  \/ (exists resp b, serve r log = (Ok resp, log ++ [b])
         /\ appended log (utcnow_timestamp (request_env r))
                      (request_operation r) b
         /\ (Datetime.valid (utcnow_timestamp (request_env r)) = true ->
             within_tolerance (request_env r))).
Proof.
  destruct r as [env file|env file stored_hash].
  - apply hash_file_outcome.
  - apply verify_file_integrity_outcome.
Qed.

(** C8. Appending is atomic with respect to the log: a request that is
    answered with an error leaves the log as it was, and a request that
    succeeds extends the log by exactly one block whose stored block_hash
    is the hash of the finished block; a request whose generated timestamp
    is ahead of the wall clock by more than ten minutes is answered with an
    error and appends nothing. *)
Theorem append_is_atomic (r : request) (log : list block) :
  (forall e log', serve r log = (Raise e, log') -> log' = log)
  /\ (forall resp log', serve r log = (Ok resp, log') ->
        exists b h, log' = log ++ [b]
                    /\ calculate_block_header_hash b = Ok h
                    /\ b !! "block_hash" = Some (PStr h))
  /\ (Datetime.valid (utcnow_timestamp (request_env r)) = true ->
      ~ within_tolerance (request_env r) ->
      exists c d, serve r log = (Raise (HTTPException c d), log)).
Proof.
  destruct (serve_outcome r log)
    as [(c & d & Hrun)|(resp & b & Hrun & Happ & Htol)].
  - split; [|split].
    + intros e log' H. congruence.
    + intros resp log' H. congruence.
    + intros _ _. now exists c, d.
  - split; [|split].
    + intros e log' H. congruence.
    + intros resp' log' H. rewrite Hrun in H. injection H as _ <-.
      destruct (appended_hash _ _ _ _ Happ) as (h & Hh & Hs).
      now exists b, h.
    + intros Hv Hnot. destruct (Hnot (Htol Hv)).
Qed.

Lemma append_is_atomic_witness :
  exists c d, serve request_future initial_log
              = (Raise (HTTPException c d), initial_log).
Proof.
  apply (proj2 (proj2 (append_is_atomic request_future initial_log))).
  - reflexivity.
  - unfold within_tolerance. vm_compute. intros H. apply H. reflexivity.
Defined.

End Endpoints.

(** ** The order of the blocks returned by [get_blockchain_log] *)

Section LogOrder.
Import Chain Spec Api ApiSpec.

Lemma with_index_keys_int (log : list block) :
  int_indexed log ->
  with_index_keys log = Ok (map (fun b => (PInt (index_of b), b)) log).
Proof.
  unfold int_indexed. induction 1 as [|b rest [z Hz] Hrest IH]; [reflexivity|].
  cbn [with_index_keys map]. unfold getitem, index_of. rewrite Hz, IH.
  reflexivity.
Qed.

Lemma insert_desc_int (x : block) (l : list block) :
  insert_desc (PInt (index_of x), x) (map (fun b => (PInt (index_of b), b)) l)
  = Ok (map (fun b => (PInt (index_of b), b)) (insert_newest x l)).
Proof.
  induction l as [|y rest IH]; [reflexivity|].
  cbn [insert_desc insert_newest map py_lt fst]. rsimpl.
  destruct (index_of x <? index_of y); [|reflexivity].
  now rewrite IH.
Qed.

Lemma sort_desc_int (l : list block) :
  sort_desc (map (fun b => (PInt (index_of b), b)) l)
  = Ok (map (fun b => (PInt (index_of b), b)) (sort_newest l)).
Proof.
  induction l as [|x rest IH]; [reflexivity|].
  cbn [sort_desc sort_newest map]. rewrite IH. rsimpl.
  apply insert_desc_int.
Qed.

(** On integer indices the sort of the endpoint is [sort_newest]. *)
Lemma sort_by_index_reverse_int (log : list block) :
  int_indexed log -> sort_by_index_reverse log = Ok (sort_newest log).
Proof.
  intros Hint. unfold sort_by_index_reverse.
  rewrite (with_index_keys_int log Hint). rsimpl.
  rewrite sort_desc_int. rsimpl.
  rewrite map_map. cbn [snd]. now rewrite map_id.
Qed.

Lemma insert_newest_perm (x : block) (l : list block) :
  Permutation (insert_newest x l) (x :: l).
Proof.
  induction l as [|y rest IH]; [reflexivity|].
  cbn [insert_newest]. destruct (index_of x <? index_of y); [|reflexivity].
  rewrite IH. apply perm_swap.
Qed.

Lemma sort_newest_perm (l : list block) : Permutation (sort_newest l) l.
Proof.
  induction l as [|x rest IH]; [reflexivity|].
  cbn [sort_newest]. rewrite insert_newest_perm. now constructor.
Qed.

Lemma insert_newest_sorted (x : block) (l : list block) :
  newest_first l -> newest_first (insert_newest x l).
Proof.
  unfold newest_first. induction 1 as [|y rest Hrest IH Hy].
  - repeat constructor.
  - cbn [insert_newest].
    destruct (Z.ltb_spec (index_of x) (index_of y)) as [Hlt|Hge].
    + constructor; [exact IH|].
      rewrite Forall_forall. intros z Hz.
      rewrite (insert_newest_perm x rest) in Hz.
      apply elem_of_cons in Hz as [->|Hz]; [lia|].
      rewrite Forall_forall in Hy. now apply Hy.
    + constructor; [now constructor|].
      constructor; [exact Hge|].
      eapply Forall_impl; [exact Hy|]. cbn. intros z Hz. lia.
Qed.

Lemma sort_newest_sorted (l : list block) : newest_first (sort_newest l).
Proof.
  induction l as [|x rest IH]; [constructor|].
  cbn [sort_newest]. now apply insert_newest_sorted.
Qed.

Lemma insert_newest_below_all (x : block) (l : list block) :
  Forall (fun y => index_of x < index_of y) l -> insert_newest x l = l ++ [x].
Proof.
  induction 1 as [|y rest Hy Hrest IH]; [reflexivity|].
  cbn [insert_newest]. apply Z.ltb_lt in Hy. now rewrite Hy, IH.
Qed.

(** Blocks stored in strictly ascending index order come back reversed. *)
Lemma sort_newest_ascending (l : list block) :
  StronglySorted (fun x y => index_of x < index_of y) l ->
  sort_newest l = rev l.
Proof.
  induction 1 as [|x rest Hrest IH Hx]; [reflexivity|].
  cbn [sort_newest rev]. rewrite IH. apply insert_newest_below_all.
  rewrite Forall_forall in Hx. rewrite Forall_forall. intros y Hy.
  apply Hx. apply list_elem_of_In, in_rev. now apply list_elem_of_In.
Qed.

Lemma dense_ascending (log : list block) (start : nat) :
  (forall i b, log !! i = Some b ->
               b !! "index" = Some (PInt (Z.of_nat (start + i)))) ->
  StronglySorted (fun x y => index_of x < index_of y) log.
Proof.
  revert start. induction log as [|x rest IH]; intros start Hdense;
    [constructor|].
  constructor.
  - apply (IH (S start)). intros i b Hb.
    replace (S start + i)%nat with (start + S i)%nat by lia.
    now apply Hdense.
  - rewrite Forall_forall. intros y Hy.
    apply list_elem_of_lookup in Hy as [j Hj].
    pose proof (Hdense 0%nat x eq_refl) as Hx0.
    pose proof (Hdense (S j) y Hj) as Hyj.
    unfold index_of. rewrite Hx0, Hyj. lia.
Qed.

(** C9 (amended). When [get_blockchain_log] answers for a chain whose
    blocks carry integer indices, the log is unchanged and the blocks
    returned are the stored blocks, each once, sorted by index in
    descending order (newest first); for a chain with indices
    0, 1, ..., n-1 in stored order they are the stored blocks in reverse
    order, the genesis block last. *)
Theorem get_blockchain_log_newest_first (log log' : list block)
    (resp : LogResponse) :
  int_indexed log ->
  get_blockchain_log log = (Ok resp, log') ->
  log' = log
  /\ Permutation (blocks resp) log
  /\ newest_first (blocks resp)
  /\ ((forall i b, log !! i = Some b ->
                   b !! "index" = Some (PInt (Z.of_nat i))) ->
      blocks resp = rev log).
Proof.
  intros Hint. unfold get_blockchain_log.
  unfold mbind, M_bind, lift, read_log, mret, M_ret.
  rewrite (sort_by_index_reverse_int log Hint).
  destruct (validate_blockchain log) as [[is_valid k]|e]; [|discriminate].
  intros [= <- <-]. cbn [blocks].
  split; [reflexivity|]. split; [apply sort_newest_perm|].
  split; [apply sort_newest_sorted|].
  intros Hdense. apply sort_newest_ascending, (dense_ascending log 0), Hdense.
Qed.

Lemma chain_three_int_indexed : int_indexed chain_three.
Proof.
  repeat (apply Forall_cons; split; [eexists; reflexivity|]).
  now apply Forall_nil.
Defined.

Lemma get_blockchain_log_witness :
  chain_three = chain_three
  /\ Permutation (blocks response_three) chain_three
  /\ newest_first (blocks response_three)
  /\ ((forall i b, chain_three !! i = Some b ->
                   b !! "index" = Some (PInt (Z.of_nat i))) ->
      blocks response_three = rev chain_three).
Proof.
  apply (get_blockchain_log_newest_first chain_three chain_three
           response_three chain_three_int_indexed).
  vm_cast_no_check (eq_refl (get_blockchain_log chain_three)).
Defined.

(** C9 as stated fails: for a chain stored with indices 0, 1, 2 the
    endpoint returns the blocks with indices 2, 1, 0, the genesis block
    last. *)
Lemma get_blockchain_log_not_stored_order :
  map index_of chain_three = [0; 1; 2]
  /\ (fun r => map index_of (blocks r)) <$> fst (get_blockchain_log chain_three)
     = Ok [2; 1; 0].
Proof. split; vm_compute; reflexivity. Qed.

End LogOrder.

(** ** Chains built by the appending endpoints *)

Section Reachable.
Import Chain Spec Api ApiSpec.

Lemma initial_log_genesis :
  exists g, initial_log = [g]
            /\ genesis_check g = Ok true
            /\ g !! "index" = Some (PInt 0)
            /\ block_time g = Ok GENESIS_TIME
            /\ calculate_block_header_hash g = Ok GENESIS_HASH
            /\ g !! "block_hash" = Some (PStr GENESIS_HASH).
Proof.
  eexists. split; [reflexivity|].
  repeat split; vm_compute; reflexivity.
Qed.

(** A chain that satisfies the invariants is reported valid. *)
Lemma invariants_valid (log : list block) :
  chain_invariants log -> validate_blockchain log = Ok (true, None).
Proof.
  intros [Hidx Hlink Hhash Htime [rest Hgen]].
  destruct initial_log_genesis as (g & Hinit & Hg & _).
  rewrite Hinit in Hgen. cbn [app] in Hgen.
  apply validate_blockchain_valid; [rewrite Hgen; discriminate|].
  split.
  - exists g. split; [now rewrite Hgen | exact Hg].
  - intros j Hj.
    destruct (lookup_lt_is_Some_2 log j ltac:(lia)) as [c Hc].
    destruct (lookup_lt_is_Some_2 log (j - 1) ltac:(lia)) as [p Hp].
    exists c, p. split; [exact Hc|]. split; [exact Hp|].
    replace j with (S (j - 1)) in Hc by lia.
    destruct (Hlink _ _ _ Hc Hp) as (h & Hph & Hcp).
    destruct (Hhash _ _ Hp) as (h' & Hcalc & Hph').
    assert (h' = h) as -> by congruence.
    destruct (Htime _ _ _ Hc Hp) as (tc & tp & Htc & Htp & Hle).
    apply (check_block_pass c p tc tp); try assumption.
    + now rewrite (resolve_block_hash_stored p h Hcalc Hph).
    + right. destruct (Hhash _ _ Hc) as (hc & Hcc & Hcs). now exists hc.
Qed.

Lemma appended_block_time (log : list block) (ts : Datetime.datetime)
    (operation : string) (b : block) :
  appended log ts operation b -> Datetime.valid ts = true ->
  block_time b = Ok ts.
Proof.
  intros Happ Hv. unfold block_time, getitem.
  rewrite (appended_time _ _ _ _ Happ). rsimpl. cbn [replace]. rsimpl.
  now rewrite (isoformat_roundtrip ts Hv).
Qed.

Lemma tail_hash_stored (log : list block) (p : block) (h : string) :
  last log = Some p -> p !! "block_hash" = Some (PStr h) ->
  tail_hash log = PStr h.
Proof. intros Hl Hs. unfold tail_hash, get. now rewrite Hl, Hs. Qed.

(** Appending a complete block stamped by a clock that did not go back
    keeps the invariants. *)
Lemma invariants_append (log : list block) (tlast ts : Datetime.datetime)
    (operation : string) (p b : block) :
  chain_invariants log ->
  last log = Some p -> block_time p = Ok tlast ->
  appended log ts operation b -> Datetime.valid ts = true ->
  Datetime.to_micros tlast <= Datetime.to_micros ts ->
  chain_invariants (log ++ [b]).
Proof.
  intros [Hidx Hlink Hhash Htime [rest Hgen]] Hlast Htl Happ Hv Hle.
  pose proof (appended_block_time _ _ _ _ Happ Hv) as Htb.
  rewrite last_lookup in Hlast.
  assert (Hlen : (0 < length log)%nat).
  { destruct log; [discriminate | cbn; lia]. }
  split.
  - intros i x Hx. apply lookup_app_Some in Hx as [Hx|[Hge Hx]].
    + now apply Hidx.
    + apply list_lookup_singleton_Some in Hx as [Hi <-].
      rewrite (appended_index _ _ _ _ Happ). do 3 f_equal. lia.
  - intros i c q Hc Hq. apply lookup_app_Some in Hc as [Hc|[Hge Hc]].
    + rewrite lookup_app_l in Hq by (apply lookup_lt_Some in Hc; lia).
      now apply (Hlink i).
    + apply list_lookup_singleton_Some in Hc as [Hi <-].
      rewrite lookup_app_l in Hq by lia.
      replace i with (pred (length log)) in Hq by lia.
      assert (q = p) as -> by congruence.
      destruct (Hhash _ _ Hlast) as (h & Hcalc & Hs).
      exists h. split; [exact Hs|].
      rewrite (appended_link _ _ _ _ Happ). f_equal.
      apply (tail_hash_stored log p h); [now rewrite last_lookup | exact Hs].
  - intros i x Hx. apply lookup_app_Some in Hx as [Hx|[Hge Hx]].
    + now apply (Hhash i).
    + apply list_lookup_singleton_Some in Hx as [Hi <-].
      destruct (appended_hash _ _ _ _ Happ) as (h & Hh & Hs). now exists h.
  - intros i c q Hc Hq. apply lookup_app_Some in Hc as [Hc|[Hge Hc]].
    + rewrite lookup_app_l in Hq by (apply lookup_lt_Some in Hc; lia).
      now apply (Htime i).
    + apply list_lookup_singleton_Some in Hc as [Hi <-].
      rewrite lookup_app_l in Hq by lia.
      replace i with (pred (length log)) in Hq by lia.
      assert (q = p) as -> by congruence.
      now exists ts, tlast.
  - exists (rest ++ [b]). now rewrite Hgen, app_assoc.
Qed.

Lemma appends_invariants (rs : list request) :
  forall (log log' : list block) (tlast : Datetime.datetime) (p : block),
    chain_invariants log ->
    last log = Some p -> block_time p = Ok tlast ->
    clock_monotone tlast rs ->
    appends rs log = Some log' ->
    chain_invariants log'.
Proof.
  induction rs as [|r rest IH]; intros log log' tlast p Hinv Hlast Htl Hclock Hrun.
  - cbn in Hrun. now injection Hrun as <-.
  - cbn [appends] in Hrun. destruct Hclock as (Hv & Hle & Hclock).
    destruct (serve_outcome r log)
      as [(c & d & Hserve)|(resp & b & Hserve & Happ & _)];
      rewrite Hserve in Hrun; [discriminate|].
    apply (IH (log ++ [b]) log' (utcnow_timestamp (request_env r)) b).
    + exact (invariants_append log tlast _ _ p b Hinv Hlast Htl Happ Hv Hle).
    + apply last_snoc.
    + exact (appended_block_time _ _ _ _ Happ Hv).
    + exact Hclock.
    + exact Hrun.
Qed.

(** The log only grows: every earlier state is a prefix of a later one. *)
Lemma appends_prefix (rs : list request) :
  forall log log', appends rs log = Some log' -> log `prefix_of` log'.
Proof.
  induction rs as [|r rest IH]; intros log log' Hrun.
  - cbn in Hrun. now injection Hrun as <-.
  - cbn [appends] in Hrun.
    destruct (serve_outcome r log)
      as [(c & d & Hserve)|(resp & b & Hserve & _)];
      rewrite Hserve in Hrun; [discriminate|].
    transitivity (log ++ [b]); [now apply prefix_app_r | now apply IH].
Qed.

Lemma initial_log_invariants : chain_invariants initial_log.
Proof.
  destruct initial_log_genesis as (g & Hinit & _ & Hidx & Htime & Hcalc & Hs).
  rewrite Hinit. split.
  - intros [|i] b Hb; [|discriminate]. now injection Hb as <-.
  - intros i c p Hc. destruct i; discriminate.
  - intros [|i] b Hb; [|discriminate]. injection Hb as <-.
    now exists GENESIS_HASH.
  - intros i c p Hc. destruct i; discriminate.
  - exists []. now rewrite <- Hinit, app_nil_r.
Qed.

(** C1 (amended). Every chain reached from the initial log (the genesis
    block alone) by a sequence of successful HASH or VERIFICATION appends
    whose clock readings are date-times that never go back, the first one
    not earlier than the genesis timestamp, satisfies the chain invariants
    (dense indices from 0, previous_hash equal to the predecessor's
    block_hash, stored block_hash equal to the recomputation,
    non-decreasing timestamps, genesis block still first) and is reported
    valid by the validator. *)
Theorem appended_chains_are_valid (rs : list request) (log : list block) :
  appends rs initial_log = Some log ->
  clock_monotone GENESIS_TIME rs ->
  chain_invariants log /\ validate_blockchain log = Ok (true, None).
Proof.
  intros Hrun Hclock.
  destruct initial_log_genesis as (g & Hinit & _ & _ & Htime & _).
  assert (Hinv : chain_invariants log).
  { apply (appends_invariants rs initial_log log GENESIS_TIME g).
    - exact initial_log_invariants.
    - now rewrite Hinit.
    - exact Htime.
    - exact Hclock.
    - exact Hrun. }
  split; [exact Hinv | now apply invariants_valid].
Qed.

Lemma appended_chains_witness :
  chain_invariants (default [] (appends requests_steady initial_log))
  /\ validate_blockchain (default [] (appends requests_steady initial_log))
     = Ok (true, None).
Proof.
  apply (appended_chains_are_valid requests_steady).
  - vm_cast_no_check (eq_refl (appends requests_steady initial_log)).
  - repeat split; vm_compute; congruence.
Defined.

(** C1 as stated fails: the two requests of [requests_clock_back] both
    succeed, their clock readings are date-times, and the chain they leave
    is reported invalid at index 2, the second timestamp being one second
    earlier than the first. *)
Lemma clock_set_back_breaks_chain :
  Forall (fun r => Datetime.valid (utcnow_timestamp (request_env r)) = true)
         requests_clock_back
  /\ validate_blockchain <$> appends requests_clock_back initial_log
     = Some (Ok (false, Some 2%nat)).
Proof.
  split.
  - repeat (apply Forall_cons; split; [reflexivity|]). now apply Forall_nil.
  - vm_cast_no_check (eq_refl (validate_blockchain <$>
                                 appends requests_clock_back initial_log)).
Qed.

End Reachable.


(* ===================================================================== *)
(** * Further properties of the code                                     *)
(* ===================================================================== *)

(** ** The digest engine *)

Section DigestShape.
Import MoreSpec.

(** X1. The size of the chunks does not matter: for every positive chunk
    size, the loop of [calculate_file_hash], run for at most as many
    iterations as the input has bytes, ends and leaves a hash object whose
    hex digest is the single-pass SHA-256 of the whole input. *)
Theorem chunk_size_is_irrelevant (chunk_size fuel : nat)
    (file_bytes : list byte) :
  (0 < chunk_size)%nat -> (length file_bytes <= fuel)%nat ->
  SHA256.hexdigest <$> hash_loop chunk_size fuel file_bytes 0 SHA256.new
  = Some (SHA256.sha256_hex file_bytes).
Proof.
  intros Hpos Hfuel.
  destruct (hash_loop_tracks chunk_size Hpos fuel file_bytes 0 SHA256.new)
    as (c & Hrun & Htr).
  - lia.
  - rewrite take_0. apply tracks_new.
  - rewrite Hrun. cbn [fmap option_fmap option_map].
    f_equal. now apply update_chunks_hexdigest.
Qed.

Lemma chunk_size_is_irrelevant_witness :
  SHA256.hexdigest <$>
    hash_loop 3 11 (bytes_of_string "Hello World") 0 SHA256.new
  = Some (SHA256.sha256_hex (bytes_of_string "Hello World")).
Proof.
  apply (chunk_size_is_irrelevant 3 11 (bytes_of_string "Hello World")).
  - lia.
  - vm_compute. lia.
Defined.

Lemma str_length_app (a b : string) :
  String.length (a +:+ b) = (String.length a + String.length b)%nat.
Proof.
  induction a as [|c a IH]; [reflexivity|].
  change (String c a +:+ b) with (String c (a +:+ b)).
  cbn [String.length]. now rewrite IH.
Qed.

Lemma all_chars_app (p : ascii -> bool) (a b : string) :
  all_chars p (a +:+ b) = all_chars p a && all_chars p b.
Proof.
  induction a as [|c a IH]; [reflexivity|].
  change (String c a +:+ b) with (String c (a +:+ b)).
  cbn [all_chars]. rewrite IH. now rewrite andb_assoc.
Qed.

Lemma lower_app (a b : string) : lower (a +:+ b) = lower a +:+ lower b.
Proof.
  induction a as [|c a IH]; [reflexivity|].
  change (String c a +:+ b) with (String c (a +:+ b)).
  cbn [lower]. now rewrite IH.
Qed.

Lemma lower_hex_fixed (s : string) : all_chars is_lower_hex s = true -> lower s = s.
Proof.
  induction s as [|c s IH]; [reflexivity|].
  cbn [all_chars lower]. intros [Hc Hs]%andb_true_iff.
  rewrite (IH Hs). f_equal.
  unfold is_lower_hex in Hc. unfold lower_ascii.
  destruct (Nat.leb 65 (nat_of_ascii c) && Nat.leb (nat_of_ascii c) 90) eqn:Hup;
    [|reflexivity].
  apply andb_true_iff in Hup as [H1 H2].
  apply Nat.leb_le in H1, H2.
  apply orb_true_iff in Hc as [Hc|Hc]; apply andb_true_iff in Hc as [H3 H4];
    apply Nat.leb_le in H3, H4; lia.
Qed.

Lemma hex_digit_lower_hex (z : Z) :
  is_lower_hex (SHA256.hex_digit (z mod 16)) = true.
Proof.
  pose proof (Z.mod_pos_bound z 16 ltac:(lia)) as Hb.
  assert (Hc : z mod 16 = 0 \/ z mod 16 = 1 \/ z mod 16 = 2 \/ z mod 16 = 3
            \/ z mod 16 = 4 \/ z mod 16 = 5 \/ z mod 16 = 6 \/ z mod 16 = 7
            \/ z mod 16 = 8 \/ z mod 16 = 9 \/ z mod 16 = 10 \/ z mod 16 = 11
            \/ z mod 16 = 12 \/ z mod 16 = 13 \/ z mod 16 = 14 \/ z mod 16 = 15)
    by lia.
  repeat (destruct Hc as [Hc|Hc]; [rewrite Hc; reflexivity|]).
  rewrite Hc; reflexivity.
Qed.

Lemma hex_word_shape (n : nat) (z : Z) :
  String.length (SHA256.hex_word n z) = n
  /\ all_chars is_lower_hex (SHA256.hex_word n z) = true.
Proof.
  revert z. induction n as [|n IH]; intros z; [now split|].
  cbn [SHA256.hex_word]. destruct (IH (z / 16)) as [Hl Ha].
  rewrite str_length_app, all_chars_app, Hl, Ha. cbn [String.length all_chars].
  rewrite hex_digit_lower_hex. split; [lia | reflexivity].
Qed.

Lemma sha256_hex_is_digest (m : list byte) : is_digest (SHA256.sha256_hex m).
Proof.
  unfold is_digest, SHA256.sha256_hex, SHA256.hex_of_regs.
  rewrite !str_length_app, !all_chars_app.
  repeat match goal with
         | |- context [SHA256.hex_word 8 ?z] =>
             let H := fresh in
             destruct (hex_word_shape 8 z) as [H ?];
             rewrite H; clear H;
             generalize dependent (SHA256.hex_word 8 z); intros
         end.
  split; [reflexivity|].
  repeat match goal with H : all_chars _ _ = true |- _ => rewrite H; clear H end.
  reflexivity.
Qed.

(** X2. Every hash the service computes, of a file or of a block header,
    is a string of sixty-four lowercase hexadecimal digits, which
    [str.lower()] leaves as it is. *)
Theorem hashes_are_lowercase_digests :
  (forall (file_bytes : list byte) (h : string),
      calculate_file_hash file_bytes = Some h -> is_digest h /\ lower h = h)
  /\ (forall (b : Chain.block) (h : string),
        Chain.calculate_block_header_hash b = Ok h ->
        is_digest h /\ lower h = h).
Proof.
  split.
  - intros file_bytes h. rewrite calculate_file_hash_total. intros [= <-].
    pose proof (sha256_hex_is_digest file_bytes) as Hd.
    split; [exact Hd | apply lower_hex_fixed, Hd].
  - intros b h. rewrite calculate_block_header_hash_header.
    destruct (Chain.block_header b) as [s|e]; [|discriminate].
    intros [= <-].
    pose proof (sha256_hex_is_digest (bytes_of_string s)) as Hd.
    split; [exact Hd | apply lower_hex_fixed, Hd].
Qed.

Lemma hashes_are_lowercase_digests_witness :
  is_digest "a591a6d40bf420404a011733cfb7b190d62c65bf0bcda32b57b277d9ad9f146e"
  /\ lower "a591a6d40bf420404a011733cfb7b190d62c65bf0bcda32b57b277d9ad9f146e"
     = "a591a6d40bf420404a011733cfb7b190d62c65bf0bcda32b57b277d9ad9f146e".
Proof.
  apply (proj1 hashes_are_lowercase_digests (bytes_of_string "Hello World")).
  vm_compute. reflexivity.
Defined.

End DigestShape.

(** ** Reading the upload *)

Section Upload.
Import Chain Spec Api ApiSpec MoreSpec.

Lemma upload_content_cons (b : byte) (chunk : list byte)
    (rest : list (list byte)) :
  upload_content ((b :: chunk) :: rest) = (b :: chunk) ++ upload_content rest.
Proof. reflexivity. Qed.

Lemma read_upload_from (limit : Z) (too_large : exn) (reads : list (list byte)) :
  forall acc : list byte,
    read_upload limit too_large reads (Z.of_nat (length acc)) acc
    = if bool_decide (upload_content reads <> []
                      /\ limit < Z.of_nat (length (acc ++ upload_content reads)))
      then Raise too_large
      else Ok (acc ++ upload_content reads).
Proof.
  induction reads as [|chunk rest IH]; intros acc.
  - cbn [read_upload upload_content]. rewrite bool_decide_eq_false_2 by tauto.
    now rewrite app_nil_r.
  - destruct chunk as [|b chunk].
    + cbn [read_upload upload_content]. rewrite bool_decide_eq_false_2 by tauto.
      now rewrite app_nil_r.
    + cbn [read_upload]. rewrite upload_content_cons.
      set (c := b :: chunk) in *.
      assert (Hc : (0 < length c)%nat) by (subst c; cbn; lia).
      assert (Hlen : Z.of_nat (length acc) + Z.of_nat (length c)
                     = Z.of_nat (length (acc ++ c)))
        by (rewrite length_app; lia).
      rewrite Hlen.
      destruct (Z.gtb_spec (Z.of_nat (length (acc ++ c))) limit) as [Hgt|Hle].
      * rewrite bool_decide_eq_true_2; [reflexivity|].
        split; [subst c; discriminate|].
        rewrite !length_app in *. lia.
      * rewrite (IH (acc ++ c)). rewrite <- !app_assoc.
        destruct (decide (upload_content rest = [])) as [Hnil|Hne].
        -- rewrite Hnil, !app_nil_r.
           rewrite !bool_decide_eq_false_2; [reflexivity | | tauto].
           intros [_ Hlt]. rewrite length_app in *. lia.
        -- rewrite (bool_decide_ext
                      (upload_content rest <> []
                       /\ limit < Z.of_nat (length (acc ++ c ++ upload_content rest)))
                      (c ++ upload_content rest <> []
                       /\ limit < Z.of_nat (length (acc ++ c ++ upload_content rest))));
             [reflexivity|].
           split; intros [_ Hlt]; (split; [|exact Hlt]).
           ++ subst c. discriminate.
           ++ exact Hne.
Qed.

Lemma read_upload_whole (limit : Z) (too_large : exn)
    (reads : list (list byte)) :
  read_upload limit too_large reads 0 []
  = if bool_decide (upload_content reads <> []
                    /\ limit < Z.of_nat (length (upload_content reads)))
    then Raise too_large
    else Ok (upload_content reads).
Proof. exact (read_upload_from limit too_large reads []). Qed.

Lemma read_upload_oversize (limit : Z) (too_large : exn)
    (reads : list (list byte)) :
  oversize reads limit ->
  read_upload limit too_large reads 0 [] = Raise too_large.
Proof. intros Hbig. now rewrite read_upload_whole, bool_decide_eq_true_2. Qed.

Lemma read_upload_fits (limit : Z) (too_large : exn)
    (reads : list (list byte)) :
  fits reads limit ->
  read_upload limit too_large reads 0 [] = Ok (upload_content reads).
Proof.
  intros Hfit. rewrite read_upload_whole, bool_decide_eq_false_2; [reflexivity|].
  intros [Hne Hlt]. destruct Hfit; [contradiction | lia].
Qed.

(** X3. Reading an upload under a size limit: the chunks are joined up to
    the end of the file, and the error is raised exactly when the file is
    not empty and has more bytes than the limit; a file of exactly the
    limit is accepted, and an empty file is accepted under any limit. *)
Theorem read_upload_limit (limit : Z) (too_large : exn)
    (reads : list (list byte)) :
  let content := upload_content reads in
  (content <> [] /\ limit < Z.of_nat (length content) ->
   read_upload limit too_large reads 0 [] = Raise too_large)
  /\ (content = [] \/ Z.of_nat (length content) <= limit ->
      read_upload limit too_large reads 0 [] = Ok content).
Proof.
  intros content. subst content. split.
  - apply read_upload_oversize.
  - apply read_upload_fits.
Qed.

Lemma read_upload_limit_witness :
  read_upload 11 (HTTPException 413 "too large")
    [bytes_of_string "Hello "; bytes_of_string "World"] 0 []
  = Ok (bytes_of_string "Hello World")
  /\ read_upload 10 (HTTPException 413 "too large")
       [bytes_of_string "Hello "; bytes_of_string "World"] 0 []
     = Raise (HTTPException 413 "too large").
Proof.
  split.
  - apply (proj2 (read_upload_limit 11 (HTTPException 413 "too large")
                    [bytes_of_string "Hello "; bytes_of_string "World"])).
    right. vm_compute. discriminate.
  - apply (proj1 (read_upload_limit 10 (HTTPException 413 "too large")
                    [bytes_of_string "Hello "; bytes_of_string "World"])).
    split; [discriminate | vm_compute; reflexivity].
Defined.

End Upload.

(** ** The appending endpoints: answers and rejections *)

Section Answers.
Import Chain Spec Api ApiSpec MoreSpec.








(** X6. A file with more bytes than the limit is answered with status 413
    and nothing is appended.  [POST /hash] names the configured limit in
    the message; [POST /verify] always says 10MB, whatever limit is
    configured. *)
Theorem oversize_upload_rejected (env : Env) (file : UploadFile)
    (log : list block) (m : Z) :
  max_file_size env = Ok m ->
  oversize (reads file) (m * 1024 * 1024) ->
  hash_file env file log
  = (Raise (HTTPException 413 ("File too large. Maximum size is "
                               +:+ pretty m +:+ "MB.")), log)
  /\ forall stored_hash,
       stored_hash <> EmptyString ->
       verify_file_integrity env file stored_hash log
       = (Raise (HTTPException 413 "File too large. Maximum size is 10MB."),
          log).
Proof.
  intros Hmax Hbig. split.
  - unfold hash_file, reraise_as_http.
    unfold mbind, M_bind, lift, read_log, log_append, mret, M_ret.
    rewrite Hmax.
    now rewrite (read_upload_oversize (m * 1024 * 1024) _ (reads file) Hbig).
  - intros stored_hash Hne.
    unfold verify_file_integrity, reraise_as_http.
    unfold mbind, M_bind, lift, read_log, log_append, raise, mret, M_ret.
    assert (Ht : truthy (PStr stored_hash) = true).
    { cbn [truthy]. now destruct (String.eqb_spec stored_hash ""). }
    rewrite Ht. cbn [negb]. rewrite Hmax.
    now rewrite (read_upload_oversize (m * 1024 * 1024) _ (reads file) Hbig).
Qed.

Lemma oversize_upload_witness :
  hash_file env_no_room file_hello initial_log
  = (Raise (HTTPException 413 ("File too large. Maximum size is "
                               +:+ pretty 0 +:+ "MB.")), initial_log)
  /\ forall stored_hash,
       stored_hash <> EmptyString ->
       verify_file_integrity env_no_room file_hello stored_hash initial_log
       = (Raise (HTTPException 413 "File too large. Maximum size is 10MB."),
          initial_log).
Proof.
  apply (oversize_upload_rejected env_no_room file_hello initial_log 0).
  - reflexivity.
  - split; [discriminate | vm_compute; reflexivity].
Defined.



End Answers.

(** ** The validator: what it accepts and how verdicts evolve *)

Section Acceptance.
Import Chain Spec Api ApiSpec MoreSpec.

Lemma genesis_check_true (first : block) :
  genesis_check first = Ok true
  <-> first !! "index" = Some (PInt 0)
      /\ first !! "previous_hash" = Some (PStr ZERO_HASH).
Proof.
  unfold genesis_check, getitem. split.
  - destruct (first !! "index") as [i|]; rsimpl; [|discriminate].
    destruct (py_eq i (PInt 0)) eqn:Hi; rsimpl; [|discriminate].
    apply py_eq_true in Hi. subst i.
    destruct (first !! "previous_hash") as [p|]; rsimpl; [|discriminate].
    intros [= Hp]. apply py_eq_true in Hp. now subst p.
  - intros [-> ->]. rsimpl. rewrite !py_eq_refl. reflexivity.
Qed.

Lemma passes_iff (log : list block) (j : nat) :
  passes log j
  <-> exists c p, log !! j = Some c /\ log !! (j - 1)%nat = Some p
        /\ c !! "previous_hash" = Some (resolve_block_hash p)
        /\ hash_intact c
        /\ exists tc tp, block_time c = Ok tc /\ block_time p = Ok tp
             /\ Datetime.to_micros tp <= Datetime.to_micros tc.
Proof.
  unfold passes. split.
  - intros (c & p & Hc & Hp & Hok). exists c, p.
    split; [exact Hc|]. split; [exact Hp|]. now apply check_block_pass_inv.
  - intros (c & p & Hc & Hp & Hlink & Hhash & tc & tp & Htc & Htp & Hle).
    exists c, p. split; [exact Hc|]. split; [exact Hp|].
    now apply (check_block_pass c p tc tp).
Qed.

(** X8. What the validator accepts.  A chain is reported valid exactly
    when it is empty, or its first block has index 0 and a previous_hash of
    sixty-four zeros and every later block has a previous_hash equal to the
    resolved header hash of its predecessor, a stored block_hash that is
    absent or equal to the recomputed one, and a parsable timestamp not
    earlier than its predecessor's.  Nothing else is looked at: not the
    index of a later block, nor the stored block_hash of the first. *)
Theorem validator_accepts_exactly (log : list block) :
  validate_blockchain log = Ok (true, None)
  <-> log = []
      \/ ((exists first, log !! 0%nat = Some first
             /\ first !! "index" = Some (PInt 0)
             /\ first !! "previous_hash" = Some (PStr ZERO_HASH))
          /\ forall j, (1 <= j < length log)%nat ->
               exists c p, log !! j = Some c /\ log !! (j - 1)%nat = Some p
                 /\ c !! "previous_hash" = Some (resolve_block_hash p)
                 /\ hash_intact c
                 /\ exists tc tp, block_time c = Ok tc /\ block_time p = Ok tp
                      /\ Datetime.to_micros tp <= Datetime.to_micros tc).
Proof.
  destruct log as [|first rest].
  - split; [now left | reflexivity].
  - rewrite validate_blockchain_valid by discriminate.
    unfold valid_before. split.
    + intros [(f & Hf & Hg) Hall]. right. split.
      * exists f. split; [exact Hf|]. now apply genesis_check_true.
      * intros j Hj. now apply passes_iff, Hall.
    + intros [Hnil|[(f & Hf & Hg) Hall]]; [discriminate|]. split.
      * exists f. split; [exact Hf|]. now apply genesis_check_true.
      * intros j Hj. now apply passes_iff, Hall.
Qed.

Lemma validator_accepts_witness :
  log_steady = []
  \/ ((exists first, log_steady !! 0%nat = Some first
         /\ first !! "index" = Some (PInt 0)
         /\ first !! "previous_hash" = Some (PStr ZERO_HASH))
      /\ forall j, (1 <= j < length log_steady)%nat ->
           exists c p, log_steady !! j = Some c
             /\ log_steady !! (j - 1)%nat = Some p
             /\ c !! "previous_hash" = Some (resolve_block_hash p)
             /\ hash_intact c
             /\ exists tc tp, block_time c = Ok tc /\ block_time p = Ok tp
                  /\ Datetime.to_micros tp <= Datetime.to_micros tc).
Proof.
  apply (proj1 (validator_accepts_exactly log_steady)).
  vm_cast_no_check (eq_refl (validate_blockchain log_steady)).
Defined.


Lemma validate_from_app (log more : list block) (todo i : nat) :
  (1 <= i)%nat -> (i + todo <= length log)%nat ->
  validate_from (log ++ more) i todo = validate_from log i todo.
Proof.
  revert i. induction todo as [|todo IH]; intros i Hi Hlen; [reflexivity|].
  cbn [validate_from]. unfold log_getitem.
  rewrite !lookup_app_l by lia.
  destruct (log !! i) as [c|]; rsimpl; [|reflexivity].
  destruct (log !! (i - 1)%nat) as [p|]; rsimpl; [|reflexivity].
  destruct (check_block c p) as [[|]|e]; rsimpl; try reflexivity.
  apply IH; lia.
Qed.

Lemma validate_from_add (log : list block) (a b i : nat) :
  validate_from log i (a + b)
  = match validate_from log i a with
    | Ok (true, _) => validate_from log (i + a) b
    | other => other
    end.
Proof.
  revert i. induction a as [|a IH]; intros i.
  - cbn [validate_from Nat.add]. now rewrite Nat.add_0_r.
  - cbn [validate_from Nat.add].
    destruct (log_getitem log i) as [c|e]; rsimpl; [|reflexivity].
    destruct (log_getitem log (i - 1)) as [p|e]; rsimpl; [|reflexivity].
    destruct (check_block c p) as [[|]|e]; rsimpl; try reflexivity.
    rewrite IH. now replace (S i + a)%nat with (i + S a)%nat by lia.
Qed.

(** X9. An adverse verdict is final.  Once the validator reports a chain
    invalid at an index, or raises, it gives the same answer for every
    chain obtained by appending blocks; and a reported index is an index
    of the chain. *)
Theorem adverse_verdict_is_final (log more : list block)
    (r : result (bool * option nat)) :
  validate_blockchain log = r -> r <> Ok (true, None) ->
  validate_blockchain (log ++ more) = r
  /\ forall k, r = Ok (false, Some k) -> (k < length log)%nat.
Proof.
  intros Hrun Hbad.
  destruct log as [|first rest]; [now cbn in Hrun; subst r|].
  revert Hrun. change ((first :: rest) ++ more) with (first :: (rest ++ more)).
  rewrite !validate_blockchain_cons.
  change (first :: (rest ++ more)) with ((first :: rest) ++ more).
  destruct (genesis_check first) as [[|]|e]; rsimpl.
  - rewrite length_app, validate_from_add.
    rewrite validate_from_app by (cbn [length]; lia).
    intros Hrun. rewrite Hrun.
    destruct r as [[[|] o]|e].
    + destruct (validate_from_verdict _ _ _ _ Hrun)
        as [[[= ->] _]|(k & [=] & _)]. congruence.
    + split; [reflexivity|]. intros k [= ->].
      destruct (validate_from_verdict _ _ _ _ Hrun)
        as [[[=] _]|(k' & [= <-] & Hk & _)]. cbn [length]. lia.
    + split; [reflexivity | discriminate].
  - intros <-. split; [reflexivity|]. intros k [= <-]. cbn [length]. lia.
  - intros <-. split; [reflexivity | discriminate].
Qed.

Lemma adverse_verdict_witness :
  validate_blockchain (chain_tampered_block ++ [block_b "2024-01-01T00:00:01Z"])
  = Ok (false, Some 1%nat)
  /\ forall k, Ok (false, Some 1%nat) = Ok (false, Some k) ->
               (k < length chain_tampered_block)%nat.
Proof.
  apply (adverse_verdict_is_final chain_tampered_block
           [block_b "2024-01-01T00:00:01Z"] (Ok (false, Some 1%nat))).
  - vm_compute. reflexivity.
  - discriminate.
Defined.

End Acceptance.

(** ** Appending to a valid chain *)

Section AppendToValid.
Import Chain Spec Api ApiSpec MoreSpec.

Lemma valid_before_app (log more : list block) :
  log <> [] -> validate_blockchain log = Ok (true, None) ->
  valid_before (log ++ more) (length log).
Proof.
  intros Hne Hvalid. apply validate_blockchain_valid in Hvalid; [|exact Hne].
  destruct Hvalid as [(f & Hf & Hg) Hall]. split.
  - exists f. split; [|exact Hg].
    rewrite lookup_app_l; [exact Hf|]. now apply lookup_lt_Some in Hf.
  - intros j Hj. destruct (Hall j Hj) as (c & p & Hc & Hp & Hok).
    exists c, p. rewrite !lookup_app_l by lia. auto.
Qed.

Lemma validate_after_append (log : list block) (p b : block) :
  validate_blockchain log = Ok (true, None) -> last log = Some p ->
  validate_blockchain (log ++ [b])
  = (ok ← check_block b p;
     if (ok : bool) then Ok (true, None) else Ok (false, Some (length log))).
Proof.
  intros Hvalid Hlast.
  assert (Hne : log <> []) by (intros ->; discriminate).
  assert (Hlen : (0 < length log)%nat) by (destruct log; [congruence | cbn; lia]).
  rewrite last_lookup in Hlast.
  rewrite (validate_blockchain_at (log ++ [b]) (length log) b p).
  - rewrite length_app. cbn [length].
    replace (length log + 1 - S (length log))%nat with 0%nat by lia.
    reflexivity.
  - now apply valid_before_app.
  - lia.
  - rewrite lookup_app_r by lia. now rewrite Nat.sub_diag.
  - rewrite lookup_app_l by lia.
    now replace (length log - 1)%nat with (pred (length log)) by lia.
Qed.

Lemma tail_hash_resolved (log : list block) (p : block) :
  last log = Some p -> truthy (get p "block_hash" PNone) = true ->
  tail_hash log = resolve_block_hash p.
Proof.
  intros Hlast Ht. unfold tail_hash, resolve_block_hash. rewrite Hlast, Ht.
  cbn [negb]. unfold get in *.
  destruct (p !! "block_hash"); [reflexivity | discriminate].
Qed.

(** X10. Appending to any chain the validator accepts, whose last block
    carries a non-empty block_hash and a timestamp that parses: after a
    successful request the chain is accepted again when the clock reading
    used as timestamp is not earlier than the last block's time, and is
    reported invalid at the index of the new block when it is earlier. *)
Theorem append_keeps_validity (r : request) (log log' : list block)
    (resp : gmap string pyval) (p : block) (tp : Datetime.datetime) :
  validate_blockchain log = Ok (true, None) ->
  last log = Some p -> truthy (get p "block_hash" PNone) = true ->
  block_time p = Ok tp ->
  Datetime.valid (utcnow_timestamp (request_env r)) = true ->
  serve r log = (Ok resp, log') ->
  validate_blockchain log'
  = if Datetime.to_micros (utcnow_timestamp (request_env r))
       <? Datetime.to_micros tp
    then Ok (false, Some (length log)) else Ok (true, None).
Proof.
  intros Hvalid Hlast Ht Htp Hv Hrun.
  destruct (serve_outcome r log)
    as [(c & d & Hserve)|(resp' & b & Hserve & Happ & _)]; [congruence|].
  rewrite Hserve in Hrun. injection Hrun as _ <-.
  rewrite (validate_after_append log p b Hvalid Hlast).
  rewrite check_block_times.
  - rewrite (appended_block_time _ _ _ _ Happ Hv), Htp. rsimpl.
    unfold Datetime.lt. now destruct (_ <? _).
  - rewrite (appended_link _ _ _ _ Happ). f_equal.
    now apply tail_hash_resolved.
  - right. exact (appended_hash _ _ _ _ Happ).
Qed.

Lemma append_keeps_validity_witness :
  validate_blockchain
    (snd (serve (Hash env_steady file_hello) initial_log))
  = if Datetime.to_micros (utcnow_timestamp env_steady)
       <? Datetime.to_micros GENESIS_TIME
    then Ok (false, Some (length initial_log)) else Ok (true, None).
Proof.
  destruct initial_log_genesis as (g & Hinit & _ & _ & Htime & _ & Hs).
  apply (append_keeps_validity (Hash env_steady file_hello) initial_log
           (snd (serve (Hash env_steady file_hello) initial_log))
           (default ∅ (match fst (serve (Hash env_steady file_hello) initial_log)
                       with Ok x => Some x | Raise _ => None end))
           g GENESIS_TIME).
  - vm_compute. reflexivity.
  - now rewrite Hinit.
  - unfold get. now rewrite Hs.
  - exact Htime.
  - reflexivity.
  - vm_cast_no_check (eq_refl (serve (Hash env_steady file_hello) initial_log)).
Defined.

(** X11. The append path and the validator resolve the hash of the last
    block differently when that block has none of block_hash, hash and
    current_hash: the new block links to sixty-four zeros, the validator
    expects [None].  In general, whenever the two resolutions differ, a
    successful append to a chain the validator accepts leaves a chain it
    reports invalid at the index of the new block. *)
Theorem append_after_unresolved_tail (r : request) (log log' : list block)
    (resp : gmap string pyval) (p : block) :
  validate_blockchain log = Ok (true, None) ->
  last log = Some p ->
  tail_hash log <> resolve_block_hash p ->
  serve r log = (Ok resp, log') ->
  validate_blockchain log' = Ok (false, Some (length log)).
Proof.
  intros Hvalid Hlast Hdiff Hrun.
  destruct (serve_outcome r log)
    as [(c & d & Hserve)|(resp' & b & Hserve & Happ & _)]; [congruence|].
  rewrite Hserve in Hrun. injection Hrun as _ <-.
  rewrite (validate_after_append log p b Hvalid Hlast).
  now rewrite (check_block_link_mismatch b p (tail_hash log)
                 (appended_link _ _ _ _ Happ) Hdiff).
Qed.

Lemma tail_without_hash_keys (log : list block) (p : block) :
  last log = Some p ->
  p !! "block_hash" = None -> p !! "hash" = None -> p !! "current_hash" = None ->
  tail_hash log = PStr ZERO_HASH /\ resolve_block_hash p = PNone.
Proof.
  intros Hlast H1 H2 H3. unfold tail_hash, resolve_block_hash, get.
  now rewrite Hlast, H1, H2, H3.
Qed.

Lemma append_after_unresolved_tail_witness :
  validate_blockchain (snd (serve (Hash env_steady file_hello) log_legacy))
  = Ok (false, Some (length log_legacy)).
Proof.
  destruct initial_log_genesis as (g & Hinit & _).
  assert (Hlast : last log_legacy = Some (delete "block_hash" g))
    by (unfold log_legacy; now rewrite Hinit).
  apply (append_after_unresolved_tail (Hash env_steady file_hello) log_legacy
           (snd (serve (Hash env_steady file_hello) log_legacy))
           (default ∅ (match fst (serve (Hash env_steady file_hello) log_legacy)
                       with Ok x => Some x | Raise _ => None end))
           (delete "block_hash" g)).
  - vm_compute. reflexivity.
  - exact Hlast.
  - destruct (tail_without_hash_keys log_legacy (delete "block_hash" g) Hlast)
      as [-> ->]; [apply lookup_delete_eq | | | discriminate].
    + rewrite lookup_delete_ne by discriminate.
      injection Hinit as <-. reflexivity.
    + rewrite lookup_delete_ne by discriminate.
      injection Hinit as <-. reflexivity.
  - vm_cast_no_check (eq_refl (serve (Hash env_steady file_hello) log_legacy)).
Defined.

End AppendToValid.

(** ** [GET /blockchain-log]: failures and stability *)

Section LogEndpoint.
Import Chain Spec Api ApiSpec MoreSpec.

Lemma with_index_keys_missing (log : list block) :
  Exists (fun b => b !! "index" = None) log ->
  with_index_keys log = Raise (KeyError "index").
Proof.
  induction log as [|b rest IH]; intros Hex; [now apply Exists_nil in Hex|].
  cbn [with_index_keys]. unfold getitem.
  destruct (b !! "index") as [k|] eqn:Hb; rsimpl; [|reflexivity].
  apply Exists_cons in Hex as [Hex|Hex]; [congruence|].
  now rewrite (IH Hex).
Qed.

(** X12. [GET /blockchain-log] needs an index on every block: if any block
    of the log lacks the key, the request fails with [KeyError] and the log
    is unchanged, even for a chain the validator accepts (it only reads the
    index of the first block). *)
Theorem log_endpoint_needs_indices (log : list block) :
  Exists (fun b => b !! "index" = None) log ->
  get_blockchain_log log = (Raise (KeyError "index"), log).
Proof.
  intros Hex. unfold get_blockchain_log, sort_by_index_reverse.
  unfold mbind at 1. unfold M_bind, read_log, lift.
  now rewrite (with_index_keys_missing log Hex).
Qed.

Lemma log_endpoint_needs_indices_witness :
  validate_blockchain (initial_log ++ [delete "index" (delete "block_hash" block_a)])
  = Ok (true, None)
  /\ get_blockchain_log (initial_log ++ [delete "index" (delete "block_hash" block_a)])
     = (Raise (KeyError "index"),
        initial_log ++ [delete "index" (delete "block_hash" block_a)]).
Proof.
  split; [vm_compute; reflexivity|].
  apply (log_endpoint_needs_indices
           (initial_log ++ [delete "index" (delete "block_hash" block_a)])).
  apply Exists_app. right. apply Exists_cons. left. apply lookup_delete_eq.
Defined.

Lemma with_index_keys_ok (log : list block) (keyed : list (pyval * block)) :
  with_index_keys log = Ok keyed ->
  keyed = map (fun b => (get b "index" PNone, b)) log
  /\ Forall (fun b => is_Some (b !! "index")) log.
Proof.
  revert keyed. induction log as [|b rest IH]; intros keyed.
  - intros [= <-]. split; [reflexivity | constructor].
  - cbn [with_index_keys]. unfold getitem, get.
    destruct (b !! "index") as [k|] eqn:Hb; rsimpl; [|discriminate].
    destruct (with_index_keys rest) as [ks|e]; rsimpl; [|discriminate].
    intros [= <-]. destruct (IH ks eq_refl) as [-> Hall].
    split; [cbn [map]; unfold get; now rewrite Hb|].
    constructor; [eauto | exact Hall].
Qed.

Lemma py_lt_kind (a b : pyval) (r : bool) :
  py_lt a b = Ok r -> exists k, key_kind a = Some k /\ key_kind b = Some k.
Proof. destruct a, b; try discriminate; intros _; eauto. Qed.

Lemma insert_desc_perm (x : pyval * block) (l l' : list (pyval * block)) :
  insert_desc x l = Ok l' -> Permutation l' (x :: l).
Proof.
  revert l'. induction l as [|y rest IH]; intros l'.
  - intros [= <-]. reflexivity.
  - cbn [insert_desc].
    destruct (py_lt (fst x) (fst y)) as [[|]|e]; rsimpl; [| |discriminate].
    + destruct (insert_desc x rest) as [r|e]; rsimpl; [|discriminate].
      intros [= <-]. rewrite (IH r eq_refl). apply perm_swap.
    + intros [= <-]. reflexivity.
Qed.

Lemma insert_desc_head_kind (x y : pyval * block) (rest l' : list (pyval * block)) :
  insert_desc x (y :: rest) = Ok l' ->
  exists k, key_kind (fst x) = Some k /\ key_kind (fst y) = Some k.
Proof.
  cbn [insert_desc].
  destruct (py_lt (fst x) (fst y)) as [r|e] eqn:Hlt; [|discriminate].
  intros _. exact (py_lt_kind _ _ r Hlt).
Qed.

Lemma sort_desc_ok (l s : list (pyval * block)) :
  sort_desc l = Ok s ->
  Permutation s l
  /\ ((length l <= 1)%nat
      \/ exists k, Forall (fun kb => key_kind (fst kb) = Some k) l).
Proof.
  revert s. induction l as [|x rest IH]; intros s.
  - intros [= <-]. split; [reflexivity | left; cbn; lia].
  - cbn [sort_desc].
    destruct (sort_desc rest) as [s0|e]; rsimpl; [|discriminate].
    intros Hins. destruct (IH s0 eq_refl) as [Hperm Hkinds].
    split; [rewrite (insert_desc_perm x s0 s Hins); now constructor|].
    destruct s0 as [|y s1].
    + apply Permutation_nil_l in Hperm. subst rest. left. cbn. lia.
    + right. destruct (insert_desc_head_kind x y s1 s Hins) as (k & Hx & Hy).
      exists k. constructor; [exact Hx|].
      assert (Hyin : y ∈ rest) by (rewrite <- Hperm; left).
      destruct Hkinds as [Hlen|(k' & Hall)].
      * destruct rest as [|z [|z' rest']]; [inversion Hyin| |cbn in Hlen; lia].
        apply list_elem_of_singleton in Hyin. subst z.
        constructor; [exact Hy | constructor].
      * rewrite Forall_forall in Hall. pose proof (Hall y Hyin) as Hy'.
        assert (k' = k) as -> by congruence.
        now apply Forall_forall.
Qed.

Lemma with_index_keys_raises (log : list block) (e : exn) :
  with_index_keys log = Raise e ->
  e = KeyError "index" /\ Exists (fun b => b !! "index" = None) log.
Proof.
  induction log as [|b rest IH]; [discriminate|].
  cbn [with_index_keys]. unfold getitem.
  destruct (b !! "index") as [k|] eqn:Hb; rsimpl.
  - destruct (with_index_keys rest) as [ks|e'] eqn:Hrest; rsimpl; [discriminate|].
    intros [= <-]. destruct (IH eq_refl) as [-> Hex].
    split; [reflexivity | now apply Exists_cons_tl].
  - intros [= <-]. split; [reflexivity | now apply Exists_cons_hd].
Qed.

Lemma py_lt_raises (a b : pyval) (e : exn) :
  py_lt a b = Raise e -> exists m, e = TypeError m.
Proof. destruct a, b; try discriminate; intros [= <-]; eauto. Qed.

Lemma insert_desc_raises (x : pyval * block) (l : list (pyval * block))
    (e : exn) :
  insert_desc x l = Raise e -> exists m, e = TypeError m.
Proof.
  induction l as [|y rest IH]; [discriminate|].
  cbn [insert_desc].
  destruct (py_lt (fst x) (fst y)) as [[|]|e'] eqn:Hlt; rsimpl.
  - destruct (insert_desc x rest) as [r|e'']; rsimpl; [discriminate|].
    intros [= <-]. now apply IH.
  - discriminate.
  - intros [= <-]. exact (py_lt_raises _ _ _ Hlt).
Qed.

Lemma sort_desc_raises (l : list (pyval * block)) (e : exn) :
  sort_desc l = Raise e -> exists m, e = TypeError m.
Proof.
  induction l as [|x rest IH]; [discriminate|].
  cbn [sort_desc].
  destruct (sort_desc rest) as [s|e'] eqn:Hs; rsimpl.
  - apply insert_desc_raises.
  - intros [= <-]. now apply IH.
Qed.

Lemma mixed_not_uniform (log : list block) :
  mixed_indices log ->
  ~ ((length log <= 1)%nat
     \/ exists k, Forall (fun b => key_kind (get b "index" PNone) = Some k) log).
Proof.
  intros Hmixed [Hshort|(k & Hall)].
  - destruct Hmixed as [(a & b & x & s & Ha & Hb & Hia & Hib)|[Hlen _]]; [|lia].
    destruct log as [|c [|c' rest]]; [inversion Ha| |cbn in Hshort; lia].
    apply list_elem_of_singleton in Ha, Hb. subst a b. congruence.
  - rewrite Forall_forall in Hall.
    destruct Hmixed as [(a & b & x & s & Ha & Hb & Hia & Hib)|[_ (c & Hc & Hic)]].
    + pose proof (Hall a Ha) as Hka. pose proof (Hall b Hb) as Hkb.
      unfold get in Hka, Hkb. rewrite Hia in Hka. rewrite Hib in Hkb.
      cbn in Hka, Hkb. congruence.
    + pose proof (Hall c Hc) as Hkc. unfold get in Hkc. rewrite Hic in Hkc.
      discriminate.
Qed.

(** X13. [GET /blockchain-log] fails when the indices cannot all be
    compared: if the log holds a block with an integer index and a block
    with a string index, or has two or more blocks one of which has the
    index [None], the request raises and the log is unchanged.  The
    exception is the [TypeError] of the comparison when every block
    carries an index, and else the [KeyError] of the missing index. *)
Theorem log_endpoint_rejects_mixed_indices (log : list block) :
  mixed_indices log ->
  exists e,
    get_blockchain_log log = (Raise e, log)
    /\ (e = KeyError "index" \/ exists m, e = TypeError m)
    /\ (Forall (fun b => is_Some (b !! "index")) log ->
        exists m, e = TypeError m).
Proof.
  intros Hmixed. unfold get_blockchain_log, sort_by_index_reverse.
  unfold mbind at 1. unfold M_bind, read_log, lift.
  destruct (with_index_keys log) as [keyed|e] eqn:Hkeys; rsimpl.
  - destruct (with_index_keys_ok log keyed Hkeys) as [-> _].
    destruct (sort_desc _) as [s|e] eqn:Hsort; rsimpl.
    + exfalso. apply (mixed_not_uniform log Hmixed).
      destruct (sort_desc_ok _ _ Hsort) as [_ [Hshort|(k & Hall)]].
      * left. now rewrite length_map in Hshort.
      * right. exists k. now apply Forall_map in Hall.
    + destruct (sort_desc_raises _ _ Hsort) as [m ->].
      exists (TypeError m). split; [reflexivity|]. split; eauto.
  - destruct (with_index_keys_raises log e Hkeys) as [-> Hex].
    exists (KeyError "index"). split; [reflexivity|]. split; [now left|].
    intros Hall. exfalso. apply Exists_exists in Hex as (b & Hb & Hnone).
    rewrite Forall_forall in Hall. destruct (Hall b Hb) as [v Hv]. congruence.
Qed.

Lemma log_endpoint_mixed_witness :
  exists e,
    get_blockchain_log log_mixed = (Raise e, log_mixed)
    /\ (e = KeyError "index" \/ exists m, e = TypeError m)
    /\ (Forall (fun b => is_Some (b !! "index")) log_mixed ->
        exists m, e = TypeError m).
Proof.
  apply (log_endpoint_rejects_mixed_indices log_mixed).
  left. eexists _, _, 0, "1"%string.
  split; [apply elem_of_cons; left; reflexivity|].
  split; [apply elem_of_cons; right; apply elem_of_cons; left; reflexivity|].
  split; vm_compute; reflexivity.
Defined.


Lemma insert_newest_filter (z : Z) (x : block) (l : list block) :
  filter (fun b => index_of b = z) (insert_newest x l)
  = filter (fun b => index_of b = z) (x :: l).
Proof.
  induction l as [|y rest IH]; [reflexivity|].
  cbn [insert_newest].
  destruct (Z.ltb_spec (index_of x) (index_of y)) as [Hlt|Hge]; [|reflexivity].
  rewrite filter_cons, IH, !filter_cons.
  destruct (decide (index_of y = z)) as [Hy|Hy];
    destruct (decide (index_of x = z)) as [Hx|Hx]; try reflexivity.
  lia.
Qed.

Lemma sort_newest_filter (z : Z) (l : list block) :
  filter (fun b => index_of b = z) (sort_newest l)
  = filter (fun b => index_of b = z) l.
Proof.
  induction l as [|x rest IH]; [reflexivity|].
  cbn [sort_newest]. rewrite insert_newest_filter, !filter_cons, IH.
  reflexivity.
Qed.

(** X14. The sort of [GET /blockchain-log] is stable: among the blocks
    that carry the same integer index, the stored order is kept.  In
    particular blocks that share an index (as two racing appends would
    leave them) come back in the order they were appended. *)
Theorem log_endpoint_sort_is_stable (log log' : list block)
    (resp : LogResponse) (z : Z) :
  int_indexed log ->
  get_blockchain_log log = (Ok resp, log') ->
  filter (fun b => index_of b = z) (blocks resp)
  = filter (fun b => index_of b = z) log.
Proof.
  intros Hint. unfold get_blockchain_log.
  unfold mbind, M_bind, lift, read_log, mret, M_ret.
  rewrite (sort_by_index_reverse_int log Hint).
  destruct (validate_blockchain log) as [[is_valid k]|e]; [|discriminate].
  intros [= <- <-]. cbn [blocks]. apply sort_newest_filter.
Qed.

Lemma log_endpoint_sort_witness :
  filter (fun b => index_of b = 1) (blocks response_three)
  = filter (fun b => index_of b = 1) chain_three.
Proof.
  apply (log_endpoint_sort_is_stable chain_three chain_three response_three 1
           chain_three_int_indexed).
  vm_cast_no_check (eq_refl (get_blockchain_log chain_three)).
Defined.

End LogEndpoint.

(** ** The reading endpoints after a run of appends *)

Section AfterAppends.
Import Chain Spec Api ApiSpec MoreSpec.

Lemma appends_length (rs : list request) :
  forall log log', appends rs log = Some log' ->
                   length log' = (length log + length rs)%nat.
Proof.
  induction rs as [|r rest IH]; intros log log' Hrun.
  - cbn in Hrun. injection Hrun as <-. cbn. lia.
  - cbn [appends] in Hrun.
    destruct (serve_outcome r log)
      as [(c & d & Hserve)|(resp & b & Hserve & _)];
      rewrite Hserve in Hrun; [discriminate|].
    rewrite (IH _ _ Hrun), length_app. cbn [length]. lia.
Qed.

Lemma invariants_int_indexed (log : list block) :
  chain_invariants log -> int_indexed log.
Proof.
  intros Hinv. apply Forall_lookup. intros i b Hb.
  exists (Z.of_nat i). exact (inv_index log Hinv i b Hb).
Qed.

(** X15. After any run of successful appends from the initial log with a
    clock that never goes back, the three reading endpoints agree and
    change nothing: [GET /validate-chain] answers (true, None),
    [GET /health] answers healthy with one block more than requests
    served, and [GET /blockchain-log] answers valid with the same count
    and the stored blocks in reverse order. *)
Theorem reading_endpoints_after_appends (rs : list request)
    (log : list block) (env : Health.Env) :
  appends rs initial_log = Some log ->
  clock_monotone GENESIS_TIME rs ->
  validate_chain log = (Ok (true, None), log)
  /\ (exists h, Health.health_check env log = (Ok h, log)
                /\ Health.status h = "healthy"
                /\ Health.blockchain_valid h = true
                /\ Health.blockchain_block_count h = S (length rs))
  /\ (exists l, get_blockchain_log log = (Ok l, log)
                /\ chain_validity_status l = "valid"
                /\ block_count l = S (length rs)
                /\ blocks l = rev log).
Proof.
  intros Hrun Hclock.
  destruct initial_log_genesis as (g & Hinit & _ & _ & Htime & _).
  assert (Hinv : chain_invariants log).
  { apply (appends_invariants rs initial_log log GENESIS_TIME g);
      [exact initial_log_invariants | now rewrite Hinit | exact Htime
      | exact Hclock | exact Hrun]. }
  pose proof (invariants_valid log Hinv) as Hvalid.
  pose proof (appends_length rs _ _ Hrun) as Hlen.
  replace (length initial_log) with 1%nat in Hlen by reflexivity.
  split; [|split].
  - unfold validate_chain, mbind, M_bind, read_log, lift. now rewrite Hvalid.
  - unfold Health.health_check, mbind, M_bind, read_log, lift, mret, M_ret.
    rewrite Hvalid. eexists. split; [reflexivity|].
    cbn [Health.status Health.blockchain_valid Health.blockchain_block_count].
    repeat split. lia.
  - unfold get_blockchain_log.
    unfold mbind, M_bind, lift, read_log, mret, M_ret.
    rewrite (sort_by_index_reverse_int log (invariants_int_indexed log Hinv)).
    rewrite Hvalid. eexists. split; [reflexivity|].
    cbn [chain_validity_status block_count blocks].
    rewrite (sort_newest_ascending log)
      by apply (dense_ascending log 0), (inv_index log Hinv).
    rewrite length_rev. repeat split. lia.
Qed.

Lemma reading_endpoints_witness :
  validate_chain log_steady = (Ok (true, None), log_steady)
  /\ (exists h, Health.health_check health_env_default log_steady
                = (Ok h, log_steady)
                /\ Health.status h = "healthy"
                /\ Health.blockchain_valid h = true
                /\ Health.blockchain_block_count h = 3%nat)
  /\ (exists l, get_blockchain_log log_steady = (Ok l, log_steady)
                /\ chain_validity_status l = "valid"
                /\ block_count l = 3%nat
                /\ blocks l = rev log_steady).
Proof.
  apply (reading_endpoints_after_appends requests_steady log_steady
           health_env_default).
  - vm_cast_no_check (eq_refl (appends requests_steady initial_log)).
  - repeat split; vm_compute; congruence.
Defined.

End AfterAppends.

(** ** The hash-comparison endpoints *)

Section HashComparison.
Import MoreSpec.

Variables sha1_hexdigest md5_hexdigest : list byte -> string.
Variable http_exception_str : Z -> string -> string.

Abbreviation verify_hash :=
  (VerifyHash.verify_hash sha1_hexdigest md5_hexdigest http_exception_str).




(** X17. An algorithm other than sha256, sha1 and md5 is meant to be
    answered with status 400, but the exception is raised inside the
    [try] whose only handler turns every exception into status 500: the
    answer is 500, its detail being the text of the 400 exception. *)
Theorem verify_hash_unsupported_algorithm (data hash_value algorithm : string) :
  lower algorithm <> "sha256"%string -> lower algorithm <> "sha1"%string ->
  lower algorithm <> "md5"%string ->
  verify_hash data hash_value algorithm
  = Raise (HTTPException 500
             (http_exception_str 400 ("Unsupported algorithm: " +:+ algorithm))).
Proof.
  intros H256 H1 H5. unfold VerifyHash.verify_hash.
  destruct (String.eqb_spec (lower algorithm) "sha256"); [contradiction|].
  destruct (String.eqb_spec (lower algorithm) "sha1"); [contradiction|].
  destruct (String.eqb_spec (lower algorithm) "md5"); [contradiction|].
  reflexivity.
Qed.

End HashComparison.

Section HashComparisonWitnesses.
Import MoreSpec.


Lemma verify_hash_unsupported_witness :
  VerifyHash.verify_hash no_digest no_digest status_and_detail
    "Hello World" "00" "sha512"
  = Raise (HTTPException 500
             (status_and_detail 400 ("Unsupported algorithm: " +:+ "sha512"))).
Proof.
  apply (verify_hash_unsupported_algorithm no_digest no_digest status_and_detail);
    discriminate.
Defined.

End HashComparisonWitnesses.

Section FileHash.
Import MoreSpec.

(** X18. [POST /verify/file-hash] always reports the size and the SHA-256
    of the file.  The verdict is part of the answer only when an expected
    hash that is not empty was sent (an empty one is treated as absent),
    and then it is positive exactly when the expected hash equals the
    SHA-256 up to letter case. *)
Theorem verify_file_hash_answer (file_name : pyval) (file_content : list byte)
    (expected : option string) :
  exists resp,
    VerifyFileHash.verify_file_hash file_name file_content expected = Ok resp
    /\ VerifyFileHash.file_size_bytes resp = length file_content
    /\ VerifyFileHash.calculated_hash resp = SHA256.sha256_hex file_content
    /\ (VerifyFileHash.is_valid resp = None
        <-> expected = None \/ expected = Some EmptyString)
    /\ (VerifyFileHash.is_valid resp = Some true
        <-> exists e, expected = Some e /\ e <> EmptyString
                      /\ lower e = SHA256.sha256_hex file_content).
Proof.
  unfold VerifyFileHash.verify_file_hash. rewrite file_hash_total. rsimpl.
  rewrite (lower_hex_fixed (SHA256.sha256_hex file_content))
    by apply sha256_hex_is_digest.
  generalize (SHA256.sha256_hex file_content). intros h.
  destruct expected as [e|].
  - cbn [truthy]. destruct (String.eqb_spec e "") as [->|Hne]; cbn [negb].
    + eexists. split; [reflexivity|].
      cbn [VerifyFileHash.file_size_bytes VerifyFileHash.calculated_hash
           VerifyFileHash.is_valid].
      repeat split; auto; try discriminate.
      intros (e & [= <-] & He & _). congruence.
    + eexists. split; [reflexivity|].
      cbn [VerifyFileHash.file_size_bytes VerifyFileHash.calculated_hash
           VerifyFileHash.is_valid].
      repeat split; try discriminate.
      * intros [H|[= H]]; [discriminate | congruence].
      * intros [= H]. apply String.eqb_eq in H. exists e. auto.
      * intros (e' & [= <-] & _ & H). f_equal. apply String.eqb_eq. auto.
  - eexists. split; [reflexivity|].
    cbn [VerifyFileHash.file_size_bytes VerifyFileHash.calculated_hash
         VerifyFileHash.is_valid].
    repeat split; auto; try discriminate.
    intros (e & [=] & _).
Qed.

End FileHash.

(** ** [POST /verify/merkle-proof] *)

Section MerkleEncoding.
Import MoreSpec MerkleProof.

Lemma encode_app (a b : ustr) :
  encode (a ++ b)
  = match encode a, encode b with
    | Some x, Some y => Some (x ++ y)
    | _, _ => None
    end.
Proof.
  induction a as [|c a IH]; cbn [app encode].
  - now destruct (encode b).
  - rewrite IH. destruct (encode_char c) as [bs|]; [|reflexivity].
    destruct (encode a) as [x|]; [|reflexivity].
    destruct (encode b) as [y|]; [|reflexivity].
    now rewrite app_assoc.
Qed.

Lemma encode_char_ascii (c : ascii) :
  is_lower_hex c = true -> encode_char (N_of_ascii c) = Some [byte_of_ascii c].
Proof.
  intros Hc. unfold is_lower_hex in Hc.
  assert (Hlt : (N_of_ascii c < 128)%N).
  { unfold nat_of_ascii in Hc.
    rewrite orb_true_iff, !andb_true_iff, !Nat.leb_le in Hc. lia. }
  unfold encode_char. apply N.ltb_lt in Hlt as Hb. rewrite Hb.
  unfold byte_of_N. rewrite N.mod_small by lia.
  now rewrite <- byte_of_ascii_via_N.
Qed.

Lemma encode_hex (s : string) :
  all_chars is_lower_hex s = true ->
  encode (ustr_of_string s) = Some (bytes_of_string s).
Proof.
  unfold ustr_of_string, bytes_of_string, list_byte_of_string.
  induction s as [|c s IH]; [reflexivity|].
  cbn [all_chars list_ascii_of_string map encode].
  intros [Hc Hs]%andb_true_iff.
  now rewrite (encode_char_ascii c Hc), (IH Hs).
Qed.

End MerkleEncoding.

Section MerkleProofs.
Import MoreSpec MerkleProof.

Variable encode_error_message : ustr -> string.

Abbreviation sha256_of := (MerkleProof.sha256_of encode_error_message).
Abbreviation merkle_path := (MerkleProof.merkle_path encode_error_message).
Abbreviation verify_merkle_proof :=
  (MerkleProof.verify_merkle_proof encode_error_message).

Lemma sha256_of_encoded (s : ustr) (bytes : list byte) :
  encode s = Some bytes -> sha256_of s = Ok (SHA256.sha256_hex bytes).
Proof.
  intros H. unfold MerkleProof.sha256_of. now rewrite H, of_bytes_hexdigest.
Qed.

Lemma merkle_root_of_digest (leaf : list byte) (siblings : list (list byte)) :
  is_digest (merkle_root_of leaf siblings).
Proof.
  unfold merkle_root_of. generalize (sha256_hex_is_digest leaf).
  generalize (SHA256.sha256_hex leaf).
  induction siblings as [|b rest IH]; intros current Hd; [exact Hd|].
  cbn [fold_left]. apply IH, sha256_hex_is_digest.
Qed.

Lemma merkle_root_of_snoc (leaf : list byte) (siblings : list (list byte))
    (b : list byte) :
  merkle_root_of leaf (siblings ++ [b])
  = SHA256.sha256_hex (bytes_of_string (merkle_root_of leaf siblings) ++ b).
Proof. unfold merkle_root_of. now rewrite fold_left_app. Qed.

(** The loop on strings that can be encoded, followed by any items. *)
Lemma merkle_path_encoded (proof : list ustr) (siblings : list (list byte))
    (more : list item) :
  Forall2 (fun s bytes => encode s = Some bytes) proof siblings ->
  forall current : string,
    is_digest current ->
    merkle_path current (map Str proof ++ more)
    = merkle_path
        (fold_left (fun current sibling =>
                      SHA256.sha256_hex (bytes_of_string current ++ sibling))
                   siblings current)
        more.
Proof.
  induction 1 as [|s bytes proof siblings Hs _ IH]; intros current Hd;
    [reflexivity|].
  cbn [map app MerkleProof.merkle_path fold_left].
  rewrite (sha256_of_encoded _ (bytes_of_string current ++ bytes)).
  - rsimpl. apply IH, sha256_hex_is_digest.
  - rewrite encode_app, (encode_hex current) by apply Hd. now rewrite Hs.
Qed.

(** X19. [POST /verify/merkle-proof] on data and a proof whose strings can
    all be encoded (they hold no surrogate): the answer reports the root
    obtained by starting from the SHA-256 of the UTF-8 bytes of the data
    and, for each sibling from left to right, hashing the hex digest
    reached so far followed by the UTF-8 bytes of the sibling; it is valid
    exactly when the provided root equals that root up to letter case. *)
Theorem merkle_proof_acceptance (data : ustr) (merkle_root : string)
    (proof : list ustr) (leaf : list byte) (siblings : list (list byte)) :
  encode data = Some leaf ->
  Forall2 (fun s bytes => encode s = Some bytes) proof siblings ->
  exists resp,
    verify_merkle_proof data merkle_root (Items (map Str proof)) = Ok resp
    /\ calculated_root resp = merkle_root_of leaf siblings
    /\ provided_root resp = merkle_root
    /\ (is_valid resp = true
        <-> lower merkle_root = merkle_root_of leaf siblings).
Proof.
  intros Hdata Hproof. unfold MerkleProof.verify_merkle_proof.
  rewrite (sha256_of_encoded data leaf Hdata). rsimpl.
  pose proof (merkle_path_encoded proof siblings [] Hproof
                (SHA256.sha256_hex leaf) (sha256_hex_is_digest leaf)) as Hpath.
  rewrite app_nil_r in Hpath. rewrite Hpath. cbn [MerkleProof.merkle_path].
  fold (merkle_root_of leaf siblings).
  eexists. split; [reflexivity|].
  cbn [calculated_root provided_root is_valid].
  split; [reflexivity|]. split; [reflexivity|].
  rewrite (lower_hex_fixed (merkle_root_of leaf siblings))
    by apply merkle_root_of_digest.
  rewrite String.eqb_eq. split; congruence.
Qed.

(** X20. What [POST /verify/merkle-proof] rejects.  A proof that is not
    JSON is answered with status 400.  Data that cannot be encoded is
    answered with status 500.  After siblings that can be encoded, the
    first item that is no string is answered with status 500 and the
    message of the [TypeError] of the concatenation, and the first string
    that cannot be encoded with status 500 and the message of the
    [UnicodeEncodeError] for the current hash followed by that string;
    the items behind it are not looked at.  A parsed proof that cannot be
    iterated over is answered with status 500. *)
Theorem merkle_proof_rejections (data : ustr) (merkle_root : string) :
  verify_merkle_proof data merkle_root JSONDecodeError
  = Raise (HTTPException 400 "Invalid proof format, expected JSON array")
  /\ (encode data = None ->
      forall items,
        verify_merkle_proof data merkle_root (Items items)
        = Raise (HTTPException 500 (encode_error_message data)))
  /\ (forall (leaf : list byte) (pre : list ustr) (siblings : list (list byte)),
        encode data = Some leaf ->
        Forall2 (fun s bytes => encode s = Some bytes) pre siblings ->
        (forall type_name rest,
            verify_merkle_proof data merkle_root
              (Items (map Str pre ++ Other type_name :: rest))
            = Raise (HTTPException 500 (not_str_message type_name)))
        /\ (forall s rest,
              encode s = None ->
              verify_merkle_proof data merkle_root
                (Items (map Str pre ++ Str s :: rest))
              = Raise (HTTPException 500
                         (encode_error_message
                            (ustr_of_string (merkle_root_of leaf siblings)
                             ++ s))))
        /\ (forall type_name,
              verify_merkle_proof data merkle_root (NotIterable type_name)
              = Raise (HTTPException 500 (not_iterable_message type_name)))).
Proof.
  split; [reflexivity|]. split.
  - intros Hdata items. unfold MerkleProof.verify_merkle_proof,
      MerkleProof.sha256_of. now rewrite Hdata.
  - intros leaf pre siblings Hdata Hpre.
    pose proof (fun more =>
                  merkle_path_encoded pre siblings more Hpre
                    (SHA256.sha256_hex leaf) (sha256_hex_is_digest leaf))
      as Hpath.
    fold (merkle_root_of leaf siblings) in Hpath.
    split; [|split].
    + intros type_name rest. unfold MerkleProof.verify_merkle_proof.
      rewrite (sha256_of_encoded data leaf Hdata). rsimpl.
      now rewrite Hpath.
    + intros s rest Hs. unfold MerkleProof.verify_merkle_proof.
      rewrite (sha256_of_encoded data leaf Hdata). rsimpl.
      rewrite Hpath. cbn [MerkleProof.merkle_path].
      unfold MerkleProof.sha256_of at 1.
      rewrite encode_app, Hs.
      now destruct (encode (ustr_of_string (merkle_root_of leaf siblings))).
    + intros type_name. unfold MerkleProof.verify_merkle_proof.
      now rewrite (sha256_of_encoded data leaf Hdata).
Qed.

End MerkleProofs.

Section MerkleWitnesses.
Import MoreSpec MerkleProof.

Lemma merkle_proof_acceptance_witness :
  exists resp,
    MerkleProof.verify_merkle_proof no_encode_message ustr_leaf "00"
      (Items (map Str [ustr_cafe])) = Ok resp
    /\ calculated_root resp
       = merkle_root_of (bytes_of_string "leaf")
           [["c"; "a"; "f"; Byte.xc3; Byte.xa9]%byte]
    /\ provided_root resp = "00"%string
    /\ (is_valid resp = true
        <-> lower "00"
            = merkle_root_of (bytes_of_string "leaf")
                [["c"; "a"; "f"; Byte.xc3; Byte.xa9]%byte]).
Proof.
  apply (merkle_proof_acceptance no_encode_message ustr_leaf "00" [ustr_cafe]).
  - vm_compute. reflexivity.
  - repeat constructor.
Defined.

Lemma merkle_proof_rejections_witness :
  MerkleProof.verify_merkle_proof no_encode_message ustr_leaf "00"
    (Items (map Str [ustr_cafe] ++ Other "int" :: [Str ustr_surrogate]))
  = Raise (HTTPException 500 (not_str_message "int"))
  /\ MerkleProof.verify_merkle_proof no_encode_message ustr_leaf "00"
       (Items (map Str [ustr_cafe] ++ Str ustr_surrogate :: [Other "int"]))
     = Raise (HTTPException 500
                (no_encode_message
                   (ustr_of_string
                      (merkle_root_of (bytes_of_string "leaf")
                         [["c"; "a"; "f"; Byte.xc3; Byte.xa9]%byte])
                    ++ ustr_surrogate))).
Proof.
  destruct (proj2 (proj2 (merkle_proof_rejections no_encode_message
                            ustr_leaf "00"))
              (bytes_of_string "leaf") [ustr_cafe]
              [["c"; "a"; "f"; Byte.xc3; Byte.xa9]%byte])
    as (Hother & Hstr & _).
  - vm_compute. reflexivity.
  - repeat constructor.
  - split.
    + apply Hother.
    + apply Hstr. vm_compute. reflexivity.
Defined.

End MerkleWitnesses.

(** ** Timestamps with a suffix or an offset *)

Section Offsets.
Import Chain Spec Datetime.

Ltac digits_step' :=
  rewrite ?digit_val_digit_char, ?digit_not_minus, ?digit_not_plus;
  cbn [mbind option_bind fmap option_fmap option_map
       Ascii.eqb Bool.eqb andb negb orb].

Lemma zpad_length (w : nat) (n : Z) : String.length (zpad w n) = w.
Proof.
  revert n. induction w as [|w IH]; intros n; [reflexivity|].
  cbn [zpad]. rewrite str_length_app, IH. cbn. lia.
Qed.

Lemma isoformat_length (t : datetime) :
  String.length (isoformat t)
  = if microsecond t =? 0 then 19%nat else 26%nat.
Proof.
  unfold isoformat. rewrite !str_length_app, !zpad_length.
  destruct (microsecond t =? 0); [reflexivity|].
  rewrite !str_length_app, !zpad_length. reflexivity.
Qed.

(** X21. The timestamp of a block round-trips: for every date-time the
    clock can return, the string the append path writes (nineteen
    characters, or twenty-six when the microsecond is not zero, and the
    letter Z) is read back by the validator as that same date-time. *)
Theorem written_timestamp_reads_back (t : datetime) (b : block) :
  valid t = true ->
  block_time (<["timestamp" := PStr (isoformat t +:+ "Z")]> b) = Ok t
  /\ String.length (isoformat t +:+ "Z")
     = if microsecond t =? 0 then 20%nat else 27%nat.
Proof.
  intros Hv. split.
  - unfold block_time, getitem. rewrite lookup_insert_eq. rsimpl.
    cbn [replace]. rsimpl. now rewrite (isoformat_roundtrip t Hv).
  - rewrite str_length_app, isoformat_length.
    now destruct (microsecond t =? 0).
Qed.

Lemma written_timestamp_witness :
  block_time (<["timestamp" :=
                  PStr (isoformat (Datetime 2024 2 29 23 59 59 250) +:+ "Z")]> ∅)
  = Ok (Datetime 2024 2 29 23 59 59 250)
  /\ String.length (isoformat (Datetime 2024 2 29 23 59 59 250) +:+ "Z")
     = if microsecond (Datetime 2024 2 29 23 59 59 250) =? 0
       then 20%nat else 27%nat.
Proof.
  apply (written_timestamp_reads_back (Datetime 2024 2 29 23 59 59 250) ∅).
  reflexivity.
Defined.

Lemma parse_hm_roundtrip (h mi : Z) :
  0 <= h < 100 -> 0 <= mi < 100 ->
  parse_hh_mm_ss_ff (zpad 2 h +:+ ":" +:+ zpad 2 mi) = Some (h, mi, 0, 0).
Proof.
  intros Hh Hmi. cbv [zpad String.append]. unfold parse_hh_mm_ss_ff.
  cbn [parse_hh_mm_ss substring str_drop parse_digits String.length Nat.eqb
       parse_digits_from].
  digits_step'.
  now rewrite (digits2 h), (digits2 mi) by assumption.
Qed.

Lemma str_find_app (c : ascii) (a b : string) :
  str_find c a = None ->
  str_find c (a +:+ b) = (fun p => (String.length a + p)%nat) <$> str_find c b.
Proof.
  induction a as [|x a IH]; intros H.
  - change (EmptyString +:+ b) with b. now destruct (str_find c b).
  - change (String x a +:+ b) with (String x (a +:+ b)).
    cbn [str_find] in *. destruct (Ascii.eqb x c); [discriminate|].
    destruct (str_find c a); [discriminate|].
    rewrite IH by reflexivity. now destruct (str_find c b).
Qed.

Lemma str_find_app_none (c : ascii) (a b : string) :
  str_find c a = None -> str_find c b = None -> str_find c (a +:+ b) = None.
Proof. intros Ha Hb. now rewrite str_find_app, Hb. Qed.

Lemma str_find_zpad (c : ascii) (w : nat) (n : Z) :
  digit_val c = None -> str_find c (zpad w n) = None.
Proof.
  intros Hc. revert n. induction w as [|w IH]; intros n; [reflexivity|].
  cbn [zpad]. apply str_find_app_none; [apply IH|].
  cbn [str_find]. now rewrite digit_char_eqb.
Qed.

Lemma substring_app (a b : string) :
  substring 0 (String.length a) (a +:+ b) = a.
Proof.
  induction a as [|x a IH]; [now destruct b|].
  change (String x a +:+ b) with (String x (a +:+ b)).
  cbn [String.length substring]. now rewrite IH.
Qed.

Lemma str_drop_app (a b : string) : str_drop (String.length a) (a +:+ b) = b.
Proof.
  induction a as [|x a IH]; [reflexivity|].
  change (String x a +:+ b) with (String x (a +:+ b)). apply IH.
Qed.

Lemma str_get_app (a b : string) (c : ascii) :
  String.get (String.length a) (a +:+ String c b) = Some c.
Proof.
  induction a as [|x a IH]; [reflexivity|].
  change (String x a +:+ String c b) with (String x (a +:+ String c b)).
  apply IH.
Qed.

Lemma find_tz_offset (minus : bool) (oh om : Z) (p : string) :
  str_find "-" p = None -> str_find "+" p = None ->
  find_tz (p +:+ MoreSpec.utc_offset minus oh om) = Some (S (String.length p)).
Proof.
  intros Hm Hp. unfold find_tz, MoreSpec.utc_offset.
  rewrite !str_find_app by assumption.
  destruct minus; cbn [str_find Ascii.eqb Bool.eqb andb fmap option_fmap option_map].
  - now rewrite Nat.add_0_r.
  - assert (Htz : str_find "-" (zpad 2 oh +:+ ":" +:+ zpad 2 om) = None).
    { apply str_find_app_none; [now apply str_find_zpad|].
      change (":" +:+ zpad 2 om) with (String ":" (zpad 2 om)).
      cbn [str_find Ascii.eqb Bool.eqb andb].
      now rewrite str_find_zpad. }
    rewrite Htz. cbn [fmap option_fmap option_map]. now rewrite Nat.add_0_r.
Qed.

Lemma str_drop_past (a b : string) (c : ascii) :
  str_drop (S (String.length a)) (a +:+ String c b) = b.
Proof.
  induction a as [|x a IH]; [reflexivity|].
  change (String x a +:+ String c b) with (String x (a +:+ String c b)).
  apply IH.
Qed.

Lemma parse_offset_time (minus : bool) (oh om : Z) (p : string)
    (h mi s us : Z) :
  0 <= oh <= 23 -> 0 <= om <= 59 ->
  str_find "-" p = None -> str_find "+" p = None ->
  parse_hh_mm_ss_ff p = Some (h, mi, s, us) ->
  parse_isoformat_time (p +:+ MoreSpec.utc_offset minus oh om)
  = Some (h, mi, s, us, Some (MoreSpec.offset_micros minus oh om)).
Proof.
  intros Hoh Hom Hm Hp Hparse. unfold parse_isoformat_time.
  rewrite find_tz_offset by assumption.
  replace (S (String.length p) - 1)%nat with (String.length p) by lia.
  rewrite substring_app, Hparse. cbn [mbind option_bind].
  unfold MoreSpec.utc_offset.
  rewrite str_drop_past, str_get_app.
  rewrite str_length_app, zpad_length.
  change (String.length (":" +:+ zpad 2 om))
    with (S (String.length (zpad 2 om))).
  rewrite zpad_length.
  cbn [Nat.add Nat.eqb orb negb].
  rewrite parse_hm_roundtrip by lia. cbn [mbind option_bind].
  unfold MoreSpec.offset_micros.
  assert (Hsign : (if is_char "-" (Some (if minus then "-" else "+")%char)
                   then -1 else 1) = (if minus then -1 else 1))
    by now destruct minus.
  rewrite Hsign.
  replace (Z.abs _ <? 24 * 3600 * 1000000) with true
    by (symmetry; apply Z.ltb_lt; destruct minus; lia).
  cbn [negb]. do 3 f_equal. lia.
Qed.
Lemma substring_app_len (a b : string) (n : nat) :
  String.length a = n -> substring 0 n (a +:+ b) = a.
Proof. intros <-. apply substring_app. Qed.

Lemma str_drop_past_len (a b : string) (c : ascii) (n : nat) :
  String.length a = n -> str_drop (S n) (a +:+ String c b) = b.
Proof. intros <-. apply str_drop_past. Qed.

Lemma isoformat_parts (t : datetime) :
  isoformat t
  = (zpad 4 (year t) +:+ "-" +:+ zpad 2 (month t) +:+ "-" +:+ zpad 2 (day t))
    +:+ String "T"
          (zpad 2 (hour t) +:+ ":" +:+ zpad 2 (minute t) +:+ ":"
           +:+ zpad 2 (second t)
           +:+ (if microsecond t =? 0 then EmptyString
                else "." +:+ zpad 6 (microsecond t))).
Proof. unfold isoformat. now rewrite !str_app_assoc. Qed.

Ltac no_sign :=
  repeat first
    [ apply str_find_zpad; reflexivity
    | apply str_find_app_none
    | reflexivity ].

Lemma time_part_parses (t : datetime) :
  valid t = true ->
  let p := zpad 2 (hour t) +:+ ":" +:+ zpad 2 (minute t) +:+ ":"
           +:+ zpad 2 (second t)
           +:+ (if microsecond t =? 0 then EmptyString
                else "." +:+ zpad 6 (microsecond t)) in
  str_find "-" p = None /\ str_find "+" p = None
  /\ parse_hh_mm_ss_ff p
     = Some (hour t, minute t, second t, microsecond t).
Proof.
  intros Hv p. subst p.
  pose proof (valid_bounds t Hv) as (Hy & Hm & Hd & Hh & Hmi & Hs & Hus).
  destruct (microsecond t =? 0) eqn:Hus0.
  - apply Z.eqb_eq in Hus0. rewrite Hus0.
    split; [no_sign|]. split; [no_sign|].
    apply parse_ff_whole. now apply parse_hms_roundtrip.
  - split; [no_sign|]. split; [no_sign|].
    apply parse_ff_micros; [assumption|]. now apply parse_hms_roundtrip.
Qed.

Lemma fromisoformat_offset (t : datetime) (minus : bool) (oh om : Z) :
  valid t = true -> 0 <= oh <= 23 -> 0 <= om <= 59 ->
  fromisoformat (isoformat t +:+ MoreSpec.utc_offset minus oh om)
  = Ok (t, Some (MoreSpec.offset_micros minus oh om)).
Proof.
  intros Hv Hoh Hom.
  pose proof (valid_bounds t Hv) as (Hy & Hm & Hd & Hh & Hmi & Hs & Hus).
  destruct (time_part_parses t Hv) as (Hminus & Hplus & Hparse).
  pose proof (parse_offset_time minus oh om _ _ _ _ _ Hoh Hom Hminus Hplus Hparse)
    as Htime.
  rewrite isoformat_parts, str_app_assoc.
  unfold fromisoformat.
  match goal with |- context [Nat.ltb 10 (String.length ?d)] =>
    replace (Nat.ltb 10 (String.length d)) with true
      by (symmetry; apply Nat.ltb_lt;
          rewrite !str_length_app, !zpad_length; cbn [String.length]; lia)
  end.
  match goal with |- context [Raise ?e] =>
    generalize (@Raise (datetime * option Z) e) end.
  intros invalid.
  match goal with |- context [String "T" ?a +:+ ?b] =>
    change (String "T" a +:+ b) with (String "T" (a +:+ b)) end.
  rewrite (substring_app_len _ _ 10)
    by (now rewrite !str_length_app, !zpad_length).
  rewrite (str_drop_past_len _ _ _ 10)
    by (now rewrite !str_length_app, !zpad_length).
  rewrite parse_date_roundtrip by assumption.
  rewrite Htime.
  destruct t as [y m d h mi s us].
  cbn [year month day hour minute second microsecond] in *.
  now rewrite Hv.
Qed.

Lemma str_replace_isoformat (t : datetime) (new : string) :
  str_replace "Z" new (isoformat t) = isoformat t.
Proof.
  unfold isoformat. rewrite !str_replace_app, !str_replace_zpad.
  destruct (microsecond t =? 0); [reflexivity|].
  rewrite !str_replace_app, !str_replace_zpad. reflexivity.
Qed.

Lemma str_replace_offset (minus : bool) (oh om : Z) (new : string) :
  str_replace "Z" new (MoreSpec.utc_offset minus oh om)
  = MoreSpec.utc_offset minus oh om.
Proof.
  unfold MoreSpec.utc_offset. cbn [str_replace].
  rewrite !str_replace_app, !str_replace_zpad.
  now destruct minus.
Qed.

(** X22. A UTC offset in a stored timestamp is read and then dropped, not
    applied: the validator takes a timestamp written with any offset
    [+HH:MM] or [-HH:MM] for the date-time of its fields as written, so
    two timestamps of one instant in different zones compare by their
    wall-clock fields. *)
Theorem utc_offset_is_discarded (t : datetime) (minus : bool) (oh om : Z)
    (b : block) :
  valid t = true -> 0 <= oh <= 23 -> 0 <= om <= 59 ->
  let stamp := isoformat t +:+ MoreSpec.utc_offset minus oh om in
  fromisoformat stamp = Ok (t, Some (MoreSpec.offset_micros minus oh om))
  /\ block_time (<["timestamp" := PStr stamp]> b) = Ok t.
Proof.
  intros Hv Hoh Hom stamp. subst stamp.
  split; [now apply fromisoformat_offset|].
  unfold block_time, getitem. rewrite lookup_insert_eq. rsimpl.
  cbn [replace]. rsimpl.
  rewrite str_replace_app, str_replace_isoformat, str_replace_offset.
  now rewrite fromisoformat_offset.
Qed.

Lemma utc_offset_witness :
  fromisoformat (isoformat (Datetime 2024 1 1 12 0 0 0)
                 +:+ MoreSpec.utc_offset true 5 30)
  = Ok (Datetime 2024 1 1 12 0 0 0, Some (MoreSpec.offset_micros true 5 30))
  /\ block_time (<["timestamp" :=
                     PStr (isoformat (Datetime 2024 1 1 12 0 0 0)
                           +:+ MoreSpec.utc_offset true 5 30)]> ∅)
     = Ok (Datetime 2024 1 1 12 0 0 0).
Proof.
  apply (utc_offset_is_discarded (Datetime 2024 1 1 12 0 0 0) true 5 30 ∅);
    [reflexivity | lia | lia].
Defined.

End Offsets.

(** ** The reading endpoints on any log *)

Section ReadingEndpoints.
Import Chain Spec Api ApiSpec MoreSpec.

(** X23. The three reading endpoints agree on any log, reachable or not:
    with the verdict of the validator at hand, [GET /validate-chain]
    returns it with the index, [GET /health] answers healthy for a valid
    chain and degraded for an invalid one, with the number of blocks, and
    [GET /blockchain-log], when the blocks can be sorted, answers valid or
    invalid accordingly; none of them changes the log. *)
Theorem reading_endpoints_agree (env : Health.Env) (log : list block)
    (v : bool) (i : option nat) :
  validate_blockchain log = Ok (v, i) ->
  validate_chain log = (Ok (v, i), log)
  /\ (exists h, Health.health_check env log = (Ok h, log)
                /\ Health.status h = (if v then "healthy" else "degraded")
                /\ Health.blockchain_valid h = v
                /\ Health.blockchain_block_count h = length log)
  /\ snd (get_blockchain_log log) = log
  /\ forall resp, fst (get_blockchain_log log) = Ok resp ->
       chain_validity_status resp = (if v then "valid" else "invalid")
       /\ block_count resp = length (blocks resp).
Proof.
  intros Hv. split; [|split; [|split]].
  - unfold validate_chain, mbind, M_bind, read_log, lift. now rewrite Hv.
  - unfold Health.health_check, mbind, M_bind, read_log, lift, mret, M_ret.
    rewrite Hv. eexists. split; [reflexivity|]. now repeat split.
  - unfold get_blockchain_log, mbind, M_bind, read_log, lift, mret, M_ret.
    destruct (sort_by_index_reverse log); [|reflexivity].
    now rewrite Hv.
  - intros resp. unfold get_blockchain_log, mbind, M_bind, read_log, lift, mret, M_ret.
    destruct (sort_by_index_reverse log); [|discriminate].
    rewrite Hv. cbn [fst]. intros [= <-]. now split.
Qed.

Lemma reading_endpoints_agree_witness :
  validate_chain chain_tampered_block = (Ok (false, Some 1%nat), chain_tampered_block)
  /\ (exists h, Health.health_check health_env_default chain_tampered_block
                = (Ok h, chain_tampered_block)
                /\ Health.status h = "degraded"
                /\ Health.blockchain_valid h = false
                /\ Health.blockchain_block_count h = length chain_tampered_block)
  /\ snd (get_blockchain_log chain_tampered_block) = chain_tampered_block
  /\ forall resp, fst (get_blockchain_log chain_tampered_block) = Ok resp ->
       chain_validity_status resp = "invalid"
       /\ block_count resp = length (blocks resp).
Proof.
  apply (reading_endpoints_agree health_env_default chain_tampered_block
           false (Some 1%nat)).
  vm_compute. reflexivity.
Defined.

(** X24. An exception of the validator is not caught by any reading
    endpoint: on a log where the validator raises, [GET /validate-chain] and
    [GET /health] fail with that exception instead of reporting an invalid
    or degraded chain, and [GET /blockchain-log] fails too, with that
    exception or with the one of its sort; the log stays as it is. *)
Theorem reading_endpoints_fail_together (env : Health.Env) (log : list block)
    (e : exn) :
  validate_blockchain log = Raise e ->
  validate_chain log = (Raise e, log)
  /\ Health.health_check env log = (Raise e, log)
  /\ (get_blockchain_log log = (Raise e, log)
      \/ exists e', sort_by_index_reverse log = Raise e'
                    /\ get_blockchain_log log = (Raise e', log)).
Proof.
  intros Hv. split; [|split].
  - unfold validate_chain, mbind, M_bind, read_log, lift. now rewrite Hv.
  - unfold Health.health_check, mbind, M_bind, read_log, lift, mret, M_ret.
    now rewrite Hv.
  - unfold get_blockchain_log, mbind, M_bind, read_log, lift, mret, M_ret.
    destruct (sort_by_index_reverse log) as [sorted|e'].
    + left. now rewrite Hv.
    + right. now exists e'.
Qed.

Lemma reading_endpoints_fail_witness :
  validate_chain chain_bad_timestamp
  = (Raise (ValueError "Invalid isoformat string: 'not-a-timestamp'"),
     chain_bad_timestamp)
  /\ Health.health_check health_env_default chain_bad_timestamp
     = (Raise (ValueError "Invalid isoformat string: 'not-a-timestamp'"),
        chain_bad_timestamp)
  /\ (get_blockchain_log chain_bad_timestamp
      = (Raise (ValueError "Invalid isoformat string: 'not-a-timestamp'"),
         chain_bad_timestamp)
      \/ exists e', sort_by_index_reverse chain_bad_timestamp = Raise e'
                    /\ get_blockchain_log chain_bad_timestamp
                       = (Raise e', chain_bad_timestamp)).
Proof.
  apply (reading_endpoints_fail_together health_env_default chain_bad_timestamp).
  vm_compute. reflexivity.
Defined.

End ReadingEndpoints.

(** ** [POST /verify/transaction] *)

Section Transactions.
Import MoreSpec Transaction.

Variable not_iterable_message : json -> string.

Abbreviation verify_transaction :=
  (Transaction.verify_transaction not_iterable_message).

Lemma existsb_eqb_elem (field : string) (keys : list string) :
  existsb (String.eqb field) keys = bool_decide (field ∈ keys).
Proof.
  induction keys as [|k keys IH]; cbn [existsb].
  - rewrite bool_decide_eq_false_2; [reflexivity | apply not_elem_of_nil].
  - rewrite IH. destruct (String.eqb_spec field k) as [->|Hne]; cbn [orb].
    + rewrite bool_decide_eq_true_2; [reflexivity | apply elem_of_cons; now left].
    + apply bool_decide_ext. rewrite elem_of_cons. tauto.
Qed.

Lemma missing_object (fields : list string) (members : list (string * json)) :
  missing not_iterable_message fields (JObject members)
  = Ok (filter (fun field => field ∉ map fst members) fields).
Proof.
  induction fields as [|f fields IH]; [reflexivity|].
  cbn [missing contains]. rsimpl. rewrite IH. rsimpl.
  rewrite existsb_eqb_elem, filter_cons.
  destruct (decide (f ∈ map fst members)) as [Hin|Hout].
  - rewrite bool_decide_eq_true_2 by assumption.
    now rewrite decide_False by tauto.
  - rewrite bool_decide_eq_false_2 by assumption.
    now rewrite decide_True by assumption.
Qed.

(** X25. [POST /verify/transaction] on a JSON object looks only at the
    names of its members: the fields among sender, receiver, amount and
    timestamp that are no member are named, in that order, in an answer
    with status 400; when none is missing the transaction is returned as
    valid, whatever the values of its members are. *)
Theorem transaction_fields_checked (members : list (string * json))
    (signature : option (list N)) :
  verify_transaction (Parsed (JObject members)) signature
  = Ok match filter (fun field => field ∉ map fst members) required_fields with
       | [] => Answer true (JObject members) (check_signature signature)
       | missing_fields =>
           JSONResponse 400 false
             ("Missing required fields: " +:+ join ", " missing_fields)
       end.
Proof.
  unfold Transaction.verify_transaction. rewrite missing_object.
  now destruct (filter _ required_fields).
Qed.

Lemma existsb_item (field : string) (items : list json) :
  JStr field ∈ items -> existsb (str_eq_json field) items = true.
Proof.
  intros Hin. apply existsb_exists. exists (JStr field). split.
  - now apply list_elem_of_In.
  - cbn [str_eq_json]. apply String.eqb_refl.
Qed.

Lemma missing_none (fields : list string) (transaction : json) :
  Forall (fun field => contains not_iterable_message field transaction = Ok true)
         fields ->
  missing not_iterable_message fields transaction = Ok [].
Proof.
  induction 1 as [|f fields Hf _ IH]; [reflexivity|].
  cbn [missing]. rewrite Hf, IH. reflexivity.
Qed.

(** X26. The transaction need not be an object.  A JSON array that has
    the four field names among its items, and a JSON string that has them
    as substrings, are returned as valid transactions; a number, a boolean
    or null is answered with status 500 and the message of the
    [TypeError], not with the answer for missing fields. *)
Theorem transaction_shape_unchecked (signature : option (list N)) :
  (forall items,
      Forall (fun field => JStr field ∈ items) required_fields ->
      verify_transaction (Parsed (JArray items)) signature
      = Ok (Answer true (JArray items) (check_signature signature)))
  /\ (forall s,
        Forall (fun field => str_contains field s = true) required_fields ->
        verify_transaction (Parsed (JStr s)) signature
        = Ok (Answer true (JStr s) (check_signature signature)))
  /\ (forall transaction,
        is_scalar transaction ->
        verify_transaction (Parsed transaction) signature
        = Raise (HTTPException 500 (not_iterable_message transaction))).
Proof.
  split; [|split].
  - intros items Hall. unfold Transaction.verify_transaction.
    rewrite missing_none; [reflexivity|].
    eapply Forall_impl; [exact Hall|].
    intros f Hf. cbn [contains]. now rewrite existsb_item.
  - intros s Hall. unfold Transaction.verify_transaction.
    rewrite missing_none; [reflexivity|].
    eapply Forall_impl; [exact Hall|].
    intros f Hf. cbn [contains]. now rewrite Hf.
  - intros transaction Hs.
    destruct transaction; try contradiction; reflexivity.
Qed.

End Transactions.

Section TransactionWitnesses.
Import MoreSpec Transaction.

Lemma transaction_fields_witness :
  Transaction.verify_transaction no_message (Parsed transaction_no_amount) None
  = Ok (JSONResponse 400 false "Missing required fields: amount").
Proof.
  unfold transaction_no_amount.
  rewrite (transaction_fields_checked no_message). vm_compute. reflexivity.
Defined.

Lemma transaction_shape_witness :
  Transaction.verify_transaction no_message
    (Parsed (JArray [JStr "timestamp"; JStr "amount"; JInt 7; JStr "receiver";
                     JStr "sender"])) None
  = Ok (Answer true (JArray [JStr "timestamp"; JStr "amount"; JInt 7;
                             JStr "receiver"; JStr "sender"]) None)
  /\ Transaction.verify_transaction no_message (Parsed (JInt 7)) None
     = Raise (HTTPException 500 (no_message (JInt 7))).
Proof.
  pose proof (transaction_shape_unchecked no_message None) as (Harr & _ & Hsc).
  split.
  - apply Harr. repeat constructor.
  - apply Hsc. exact I.
Defined.

End TransactionWitnesses.
